(** * NativeScrollSlider: a shallow embedding of the slider's geometry,
      configuration, navigation and clone management.

    Conventions of the embedding.

    - JavaScript numbers are idealised as rationals ([Q]); every equation
      between computed numbers is stated up to [Qeq] ([==]).  Indices and
      counts that the code only adds, subtracts and compares are integers
      ([Z]) or naturals.
    - Objects used as dictionaries (the options objects) are finite maps
      from property names to values ([gmap string value]);
      [Object.assign] is the right-biased merge of such maps.
    - The DOM is an explicit store: the strip is the list of its children,
      every child carries its content, its CSS class, its
      [data-original-index] and its measured width; [offsetLeft] is
      computed from the strip order as a flex row lays it out.
    - Timers, scroll requests and console diagnostics are recorded in the
      state ([setTimeout] allocates a pending entry, [clearTimeout] deletes
      it), so that what a function schedules or cancels can be observed.
    - A call that can end in a [TypeError] (a property of [undefined])
      returns a [result].  The code guards no division; [Q] has no
      infinity, so the statements that depend on a quotient assume a
      divisor that is not zero. *)

From Stdlib Require Import QArith Qround Qminmax Qabs Lqa Sorted.
From stdpp Require Import gmap strings list fin_maps.

(** ** JavaScript values *)

(** Primitive values, as they occur as option values and in the
    [data-slider-config] attribute. *)
Inductive prim : Type :=
  | PUndefined
  | PNull
  | PBool (b : bool)
  | PNum (q : Q)
  | PStr (s : string).

(** [!v] is false exactly on the truthy values. *)
Definition truthy (v : prim) : bool :=
  match v with
  | PUndefined | PNull => false
  | PBool b => b
  | PNum q => negb (Qeq_bool q 0)
  | PStr s => negb (String.eqb s "")
  end.

(** Number comparisons [a <= b] and [a < b] as the code evaluates them. *)
Definition Qleb (a b : Q) : bool := Qle_bool a b.
Definition Qltb (a b : Q) : bool := negb (Qle_bool b a).

(** What a call can end in: a value, or a thrown [TypeError]. *)
Inductive result (A : Type) : Type :=
  | Ok (a : A)
  | TypeError.
Arguments Ok {A} a.
Arguments TypeError {A}.

#[global] Instance result_ret : MRet result := fun A a => Ok a.
#[global] Instance result_bind : MBind result := fun A B k r =>
  match r with
  | Ok a => k a
  | TypeError => TypeError
  end.

(** [arr[i]] for a number [i]: [undefined] outside the array. *)
Definition nthZ {A : Type} (l : list A) (i : Z) : option A :=
  if (i <? 0)%Z then None else l !! Z.to_nat i.

(** The indices [lo, lo+1, ..., hi-1] of a counting [for] loop. *)
Definition range (lo hi : Z) : list Z :=
  (fun k => (lo + Z.of_nat k)%Z) <$> seq 0 (Z.to_nat (hi - lo)).

(** A [for] loop whose body may throw. *)
Fixpoint for_each {S : Type} (idx : list Z) (body : Z -> S -> result S) (s : S)
  : result S :=
  match idx with
  | [] => Ok s
  | i :: rest => s' ← body i s; for_each rest body s'
  end.

(** ** The slider instance and the part of the DOM it reads and writes *)

(** The CSS class that tells a synthetic copy from a real item. *)
Inductive slideClass : Type :=
  | RealSlide
  | InfiniteClone
  | BounceClone.

#[global] Instance slideClass_eq_dec : EqDecision slideClass.
Proof. solve_decision. Defined.

(** A child of the strip: [content] stands for the markup of the item
    (what [cloneNode(true)] copies), [originalIndex] for
    [dataset.originalIndex]. *)
Record Slide : Type := mkSlide {
  content : nat;
  cls : slideClass;
  originalIndex : option Z;
  offsetWidth : Q
}.

Definition isClone (s : Slide) : bool :=
  match cls s with
  | RealSlide => false
  | _ => true
  end.

(** [cloneNode(true)] followed by [classList.add('cloned', k)]. *)
Definition cloneAs (k : slideClass) (s : Slide) : Slide :=
  mkSlide (content s) k (originalIndex s) (offsetWidth s).

(** [clone.dataset.originalIndex = i]. *)
Definition withOriginalIndex (i : Z) (s : Slide) : Slide :=
  mkSlide (content s) (cls s) (Some i) (offsetWidth s).

(** A fresh strip of [n] real items of width [w]. *)
Definition realSlides (n : nat) (w : Q) : list Slide :=
  (fun i => mkSlide i RealSlide None w) <$> seq 0 n.

(** The typed view of [currentOptions] that the runtime reads. *)
Record Options : Type := mkOptions {
  slidesToShow : Z;
  slidesToScroll : Z;
  infinite : bool;
  bounceBack : bool;
  centerMode : bool;
  autoplay : bool;
  autoplaySpeed : Z;
  gap : Q;
  startSlide : Z
}.

(** The closures that the code hands to [setTimeout] and [setInterval]. *)
Inductive callback : Type :=
  | RestoreScrollBehavior (originalBehavior : string)
  | InitialPosition (cloneCount : Z)
  | FirstRealPosition (cloneCount : Z)
  | AutoplayTick
  | ResumeAutoplay
  | ScrollEnd
  | DebouncedInfiniteScroll.

Record Timer : Type := mkTimer {
  delay : Z;
  repeating : bool;
  action : callback
}.

(** [track.scrollTo({ left, behavior })]; [left] is [None] when the code
    passes [undefined] or [NaN]. *)
Record ScrollRequest : Type := mkScrollRequest {
  left : option Q;
  smooth : bool
}.

Record Context : Type := mkContext {
  trackChildren : list Slide;  (* the strip: [track.children], left to right *)
  scrollLeft : Q;  (* [track.scrollLeft] *)
  scrollBehavior : string;  (* [track.style.scrollBehavior] *)
  trackPaddingLeft : Q;  (* left padding of the track *)
  trackPaddingRight : Q;  (* right padding of the track *)
  trackOffsetWidth : Q;  (* [track.offsetWidth] *)
  containerOffsetWidth : Q;  (* [container.offsetWidth] *)
  containerPaddingLeft : Q;  (* computed left padding of the container *)
  containerPaddingRight : Q;  (* computed right padding of the container *)
  slides : list Slide;  (* the real items, as found at construction *)
  allSlides : option (list Slide);  (* snapshot of the strip once clones exist *)
  currentOptions : Options;
  totalSlides : Z;
  currentSlide : Z;
  slidePositions : list Q;
  initialCloneCount : Z;
  infiniteScrollSetup : bool;
  isScrolling : bool;
  autoplayPaused : bool;
  autoplayInterval : option nat;
  scrollTimeout : option nat;
  infiniteScrollTimeout : option nat;
  timers : gmap nat Timer;  (* pending timers of the event loop, by timer id *)
  nextTimer : nat;  (* the next timer id *)
  scrollRequests : list ScrollRequest  (* calls of [track.scrollTo], oldest first *)
}.

(** Field assignments. *)
Definition set_trackChildren (v : list Slide) (c : Context) : Context :=
  mkContext v (scrollLeft c) (scrollBehavior c) (trackPaddingLeft c)
    (trackPaddingRight c) (trackOffsetWidth c) (containerOffsetWidth c)
    (containerPaddingLeft c) (containerPaddingRight c) (slides c) (allSlides c)
    (currentOptions c) (totalSlides c) (currentSlide c) (slidePositions c)
    (initialCloneCount c) (infiniteScrollSetup c) (isScrolling c) (autoplayPaused c)
    (autoplayInterval c) (scrollTimeout c) (infiniteScrollTimeout c) (timers c)
    (nextTimer c) (scrollRequests c).

Definition set_scrollLeft (v : Q) (c : Context) : Context :=
  mkContext (trackChildren c) v (scrollBehavior c) (trackPaddingLeft c)
    (trackPaddingRight c) (trackOffsetWidth c) (containerOffsetWidth c)
    (containerPaddingLeft c) (containerPaddingRight c) (slides c) (allSlides c)
    (currentOptions c) (totalSlides c) (currentSlide c) (slidePositions c)
    (initialCloneCount c) (infiniteScrollSetup c) (isScrolling c) (autoplayPaused c)
    (autoplayInterval c) (scrollTimeout c) (infiniteScrollTimeout c) (timers c)
    (nextTimer c) (scrollRequests c).

Definition set_scrollBehavior (v : string) (c : Context) : Context :=
  mkContext (trackChildren c) (scrollLeft c) v (trackPaddingLeft c) (trackPaddingRight
    c) (trackOffsetWidth c) (containerOffsetWidth c) (containerPaddingLeft c)
    (containerPaddingRight c) (slides c) (allSlides c) (currentOptions c) (totalSlides
    c) (currentSlide c) (slidePositions c) (initialCloneCount c) (infiniteScrollSetup c)
    (isScrolling c) (autoplayPaused c) (autoplayInterval c) (scrollTimeout c)
    (infiniteScrollTimeout c) (timers c) (nextTimer c) (scrollRequests c).

Definition set_allSlides (v : option (list Slide)) (c : Context) : Context :=
  mkContext (trackChildren c) (scrollLeft c) (scrollBehavior c) (trackPaddingLeft c)
    (trackPaddingRight c) (trackOffsetWidth c) (containerOffsetWidth c)
    (containerPaddingLeft c) (containerPaddingRight c) (slides c) v (currentOptions c)
    (totalSlides c) (currentSlide c) (slidePositions c) (initialCloneCount c)
    (infiniteScrollSetup c) (isScrolling c) (autoplayPaused c) (autoplayInterval c)
    (scrollTimeout c) (infiniteScrollTimeout c) (timers c) (nextTimer c) (scrollRequests
    c).

Definition set_currentSlide (v : Z) (c : Context) : Context :=
  mkContext (trackChildren c) (scrollLeft c) (scrollBehavior c) (trackPaddingLeft c)
    (trackPaddingRight c) (trackOffsetWidth c) (containerOffsetWidth c)
    (containerPaddingLeft c) (containerPaddingRight c) (slides c) (allSlides c)
    (currentOptions c) (totalSlides c) v (slidePositions c) (initialCloneCount c)
    (infiniteScrollSetup c) (isScrolling c) (autoplayPaused c) (autoplayInterval c)
    (scrollTimeout c) (infiniteScrollTimeout c) (timers c) (nextTimer c) (scrollRequests
    c).

Definition set_slidePositions (v : list Q) (c : Context) : Context :=
  mkContext (trackChildren c) (scrollLeft c) (scrollBehavior c) (trackPaddingLeft c)
    (trackPaddingRight c) (trackOffsetWidth c) (containerOffsetWidth c)
    (containerPaddingLeft c) (containerPaddingRight c) (slides c) (allSlides c)
    (currentOptions c) (totalSlides c) (currentSlide c) v (initialCloneCount c)
    (infiniteScrollSetup c) (isScrolling c) (autoplayPaused c) (autoplayInterval c)
    (scrollTimeout c) (infiniteScrollTimeout c) (timers c) (nextTimer c) (scrollRequests
    c).

Definition set_initialCloneCount (v : Z) (c : Context) : Context :=
  mkContext (trackChildren c) (scrollLeft c) (scrollBehavior c) (trackPaddingLeft c)
    (trackPaddingRight c) (trackOffsetWidth c) (containerOffsetWidth c)
    (containerPaddingLeft c) (containerPaddingRight c) (slides c) (allSlides c)
    (currentOptions c) (totalSlides c) (currentSlide c) (slidePositions c) v
    (infiniteScrollSetup c) (isScrolling c) (autoplayPaused c) (autoplayInterval c)
    (scrollTimeout c) (infiniteScrollTimeout c) (timers c) (nextTimer c) (scrollRequests
    c).

Definition set_infiniteScrollSetup (v : bool) (c : Context) : Context :=
  mkContext (trackChildren c) (scrollLeft c) (scrollBehavior c) (trackPaddingLeft c)
    (trackPaddingRight c) (trackOffsetWidth c) (containerOffsetWidth c)
    (containerPaddingLeft c) (containerPaddingRight c) (slides c) (allSlides c)
    (currentOptions c) (totalSlides c) (currentSlide c) (slidePositions c)
    (initialCloneCount c) v (isScrolling c) (autoplayPaused c) (autoplayInterval c)
    (scrollTimeout c) (infiniteScrollTimeout c) (timers c) (nextTimer c) (scrollRequests
    c).

Definition set_isScrolling (v : bool) (c : Context) : Context :=
  mkContext (trackChildren c) (scrollLeft c) (scrollBehavior c) (trackPaddingLeft c)
    (trackPaddingRight c) (trackOffsetWidth c) (containerOffsetWidth c)
    (containerPaddingLeft c) (containerPaddingRight c) (slides c) (allSlides c)
    (currentOptions c) (totalSlides c) (currentSlide c) (slidePositions c)
    (initialCloneCount c) (infiniteScrollSetup c) v (autoplayPaused c) (autoplayInterval
    c) (scrollTimeout c) (infiniteScrollTimeout c) (timers c) (nextTimer c)
    (scrollRequests c).

Definition set_autoplayPaused (v : bool) (c : Context) : Context :=
  mkContext (trackChildren c) (scrollLeft c) (scrollBehavior c) (trackPaddingLeft c)
    (trackPaddingRight c) (trackOffsetWidth c) (containerOffsetWidth c)
    (containerPaddingLeft c) (containerPaddingRight c) (slides c) (allSlides c)
    (currentOptions c) (totalSlides c) (currentSlide c) (slidePositions c)
    (initialCloneCount c) (infiniteScrollSetup c) (isScrolling c) v (autoplayInterval c)
    (scrollTimeout c) (infiniteScrollTimeout c) (timers c) (nextTimer c) (scrollRequests
    c).

Definition set_autoplayInterval (v : option nat) (c : Context) : Context :=
  mkContext (trackChildren c) (scrollLeft c) (scrollBehavior c) (trackPaddingLeft c)
    (trackPaddingRight c) (trackOffsetWidth c) (containerOffsetWidth c)
    (containerPaddingLeft c) (containerPaddingRight c) (slides c) (allSlides c)
    (currentOptions c) (totalSlides c) (currentSlide c) (slidePositions c)
    (initialCloneCount c) (infiniteScrollSetup c) (isScrolling c) (autoplayPaused c) v
    (scrollTimeout c) (infiniteScrollTimeout c) (timers c) (nextTimer c) (scrollRequests
    c).

Definition set_scrollTimeout (v : option nat) (c : Context) : Context :=
  mkContext (trackChildren c) (scrollLeft c) (scrollBehavior c) (trackPaddingLeft c)
    (trackPaddingRight c) (trackOffsetWidth c) (containerOffsetWidth c)
    (containerPaddingLeft c) (containerPaddingRight c) (slides c) (allSlides c)
    (currentOptions c) (totalSlides c) (currentSlide c) (slidePositions c)
    (initialCloneCount c) (infiniteScrollSetup c) (isScrolling c) (autoplayPaused c)
    (autoplayInterval c) v (infiniteScrollTimeout c) (timers c) (nextTimer c)
    (scrollRequests c).

Definition set_infiniteScrollTimeout (v : option nat) (c : Context) : Context :=
  mkContext (trackChildren c) (scrollLeft c) (scrollBehavior c) (trackPaddingLeft c)
    (trackPaddingRight c) (trackOffsetWidth c) (containerOffsetWidth c)
    (containerPaddingLeft c) (containerPaddingRight c) (slides c) (allSlides c)
    (currentOptions c) (totalSlides c) (currentSlide c) (slidePositions c)
    (initialCloneCount c) (infiniteScrollSetup c) (isScrolling c) (autoplayPaused c)
    (autoplayInterval c) (scrollTimeout c) v (timers c) (nextTimer c) (scrollRequests
    c).

Definition set_timers (v : gmap nat Timer) (c : Context) : Context :=
  mkContext (trackChildren c) (scrollLeft c) (scrollBehavior c) (trackPaddingLeft c)
    (trackPaddingRight c) (trackOffsetWidth c) (containerOffsetWidth c)
    (containerPaddingLeft c) (containerPaddingRight c) (slides c) (allSlides c)
    (currentOptions c) (totalSlides c) (currentSlide c) (slidePositions c)
    (initialCloneCount c) (infiniteScrollSetup c) (isScrolling c) (autoplayPaused c)
    (autoplayInterval c) (scrollTimeout c) (infiniteScrollTimeout c) v (nextTimer c)
    (scrollRequests c).

Definition set_nextTimer (v : nat) (c : Context) : Context :=
  mkContext (trackChildren c) (scrollLeft c) (scrollBehavior c) (trackPaddingLeft c)
    (trackPaddingRight c) (trackOffsetWidth c) (containerOffsetWidth c)
    (containerPaddingLeft c) (containerPaddingRight c) (slides c) (allSlides c)
    (currentOptions c) (totalSlides c) (currentSlide c) (slidePositions c)
    (initialCloneCount c) (infiniteScrollSetup c) (isScrolling c) (autoplayPaused c)
    (autoplayInterval c) (scrollTimeout c) (infiniteScrollTimeout c) (timers c) v
    (scrollRequests c).

Definition set_scrollRequests (v : list ScrollRequest) (c : Context) : Context :=
  mkContext (trackChildren c) (scrollLeft c) (scrollBehavior c) (trackPaddingLeft c)
    (trackPaddingRight c) (trackOffsetWidth c) (containerOffsetWidth c)
    (containerPaddingLeft c) (containerPaddingRight c) (slides c) (allSlides c)
    (currentOptions c) (totalSlides c) (currentSlide c) (slidePositions c)
    (initialCloneCount c) (infiniteScrollSetup c) (isScrolling c) (autoplayPaused c)
    (autoplayInterval c) (scrollTimeout c) (infiniteScrollTimeout c) (timers c)
    (nextTimer c) v.

(** [setTimeout] and [setInterval] return the id of the new timer. *)
Definition setTimeout (cb : callback) (ms : Z) (c : Context) : nat * Context :=
  let id := nextTimer c in
  (id, set_nextTimer (S id) (set_timers (<[id := mkTimer ms false cb]> (timers c)) c)).

Definition setInterval (cb : callback) (ms : Z) (c : Context) : nat * Context :=
  let id := nextTimer c in
  (id, set_nextTimer (S id) (set_timers (<[id := mkTimer ms true cb]> (timers c)) c)).

(** [clearTimeout] and [clearInterval]; an [undefined] id clears nothing. *)
Definition clearTimer (id : option nat) (c : Context) : Context :=
  match id with
  | Some i => set_timers (delete i (timers c)) c
  | None => c
  end.

(** The same on the table of pending timers. *)
Definition clearTimerMap (id : option nat) (pending : gmap nat Timer) : gmap nat Timer :=
  match id with
  | Some i => delete i pending
  | None => pending
  end.

Definition scrollTo (target : option Q) (c : Context) : Context :=
  set_scrollRequests (scrollRequests c ++ [mkScrollRequest target true]) c.

Definition appendChild (s : Slide) (c : Context) : Context :=
  set_trackChildren (trackChildren c ++ [s]) c.

(** [track.insertBefore(s, track.firstChild)]. *)
Definition insertFirst (s : Slide) (c : Context) : Context :=
  set_trackChildren (s :: trackChildren c) c.

(** Layout of the strip as a flex row: the children follow the left
    padding side by side, separated by the gap.  [offsetsFrom x g l] lists
    the [offsetLeft] of every element of [l] when the first starts at [x]. *)
Fixpoint offsetsFrom (x g : Q) (l : list Slide) : list Q :=
  match l with
  | [] => []
  | s :: rest => x :: offsetsFrom (x + offsetWidth s + g)%Q g rest
  end.

Definition offsetLefts (c : Context) : list Q :=
  offsetsFrom (trackPaddingLeft c) (gap (currentOptions c)) (trackChildren c).

(** [track.scrollWidth]: never less than the box of the track. *)
Definition contentWidth (g : Q) (l : list Slide) : Q :=
  match l with
  | [] => 0%Q
  | _ => (foldr (fun s acc => offsetWidth s + g + acc) 0 l - g)%Q
  end.

Definition scrollWidth (c : Context) : Q :=
  Qmax (trackOffsetWidth c)
       (trackPaddingLeft c + contentWidth (gap (currentOptions c)) (trackChildren c)
        + trackPaddingRight c)%Q.

(** [querySelectorAll(k).length]. *)
Definition countClass (k : slideClass) (l : list Slide) : nat :=
  length (filter (fun s => cls s = k) l).

(** Stable sort by descending key, as [sort((a, b) => key(b) - key(a))]. *)
Fixpoint insert_desc {A : Type} (key : A -> Q) (x : A) (l : list A) : list A :=
  match l with
  | [] => [x]
  | y :: l' =>
      if Qleb (key y) (key x) then x :: y :: l'
      else y :: insert_desc key x l'
  end.

Definition sort_desc {A : Type} (key : A -> Q) (l : list A) : list A :=
  foldr (insert_desc key) [] l.

(** Running a pending timer: a timeout is consumed, an interval stays. *)
Definition fireTimer (run : callback -> Context -> result Context) (id : nat)
    (c : Context) : result Context :=
  match timers c !! id with
  | None => Ok c
  | Some t =>
      run (action t) (if repeating t then c else set_timers (delete id (timers c)) c)
  end.

(** [slidesToUse = allSlides || slides]. *)
Definition slidesToUse (c : Context) : list Slide :=
  match allSlides c with
  | Some l => l
  | None => slides c
  end.

(** [slidesToUse[i].offsetLeft]: the snapshot is taken in the turn that
    changes the strip, so its element [i] is child [i] of the strip. *)
Definition offsetLeftAt (c : Context) (i : nat) : Q :=
  nth i (offsetLefts c) 0%Q.

(** ** helpers/dom.js *)

Module Dom.
Local Open Scope Z_scope.

(** [offsets] lists [slides[i].offsetLeft]. *)
Definition calculateSlidePositions (offsets : list Q) (leftPadding : Q) : list Q :=
  (fun offsetLeft => (offsetLeft - leftPadding)%Q) <$> offsets.

(** [track] is the list of children of the track element; the function
    returns it as it is after the insertions, which is also the array
    [Array.from(track.children)] that the code returns. *)
Definition createClonedSlides (slides track : list Slide) (cloneCount : Z)
    (mode : string) : result (list Slide) :=
  let totalSlides := Z.of_nat (length slides) in
  let cloneClass := if String.eqb mode "infinite" then InfiniteClone else BounceClone in
  if String.eqb mode "infinite" then
    track ← for_each (range 0 cloneCount) (fun i track =>
      let originalIndex := Z.rem i totalSlides in
      match nthZ slides originalIndex with
      | Some s => Ok (track ++ [withOriginalIndex originalIndex (cloneAs cloneClass s)])
      | None => TypeError
      end) track;
    for_each (range 0 cloneCount) (fun i track =>
      let originalIndex := Z.rem (totalSlides - cloneCount + i) totalSlides in
      match nthZ slides originalIndex with
      | Some s => Ok (withOriginalIndex originalIndex (cloneAs cloneClass s) :: track)
      | None => TypeError
      end) track
  else
    track ← for_each (range 0 cloneCount) (fun i track =>
      match nthZ slides i with
      | Some s => Ok (track ++ [cloneAs cloneClass s])
      | None => TypeError
      end) track;
    for_each (range (totalSlides - cloneCount) totalSlides) (fun i track =>
      match nthZ slides i with
      | Some s => Ok (cloneAs cloneClass s :: track)
      | None => TypeError
      end) track.

(** [track] is [None] for a null track; [cloneClass] is the class that the
    selector names (['.infinite-clone'] when the argument is left out). *)
Definition removeClonedSlides (track : option (list Slide)) (cloneClass : slideClass)
  : option (list Slide) :=
  filter (fun s => cls s ≠ cloneClass) <$> track.

(** An element on the way from the track to the root of the document, as
    far as [findContainer] reads it: [dataset.sliderConfig] ([None] when
    the attribute is absent) and whether it is [document.body]. *)
Record Element : Type := mkElement {
  datasetSliderConfig : option string;
  isBody : bool
}.

(** [if (element.dataset.sliderConfig)]. *)
Definition configured (element : Element) : bool :=
  match datasetSliderConfig element with
  | Some s => truthy (PStr s)
  | None => truthy PUndefined
  end.

(** The [while] loop of [findContainer] over the elements that
    [parentElement] reaches one after the other; [steps] counts the
    elements already passed.  [None]: the loop ran to its end. *)
Fixpoint firstConfigured (chain : list Element) (steps : nat) : option nat :=
  match chain with
  | [] => None
  | element :: ancestors =>
      if isBody element then None
      else if configured element then Some steps
      else firstConfigured ancestors (S steps)
  end.

(** [ancestors] lists the parent of the track, the parent of that parent,
    and so on up to the root.  The element that is returned is named by
    the number of [parentElement] steps that lead to it from the track. *)
Definition findContainer (trackElement : Element) (ancestors : list Element) : nat :=
  match firstConfigured (trackElement :: ancestors) 0 with
  | Some steps => steps
  | None =>
      match ancestors with
      | _ :: _ => 1
      | [] => 0
      end
  end.

End Dom.

(** ** modules/infinite-scroll.js *)

Module InfiniteScroll.
Local Open Scope Q_scope.

(** The callback of [seamlessJump]:
    [track.style.scrollBehavior = originalBehavior || 'smooth']. *)
Definition restoreScrollBehavior (originalBehavior : string) (c : Context) : Context :=
  set_scrollBehavior
    (if truthy (PStr originalBehavior) then originalBehavior else "smooth") c.

(** The assignment to [track.scrollLeft] stores the requested offset: the
    clamping of the browser to the scrollable range is left out. *)
Definition seamlessJump (newPosition : Q) (c : Context) : Context :=
  let originalBehavior := scrollBehavior c in
  let c := set_scrollBehavior "auto" c in
  let c := set_scrollLeft newPosition c in
  snd (setTimeout (RestoreScrollBehavior originalBehavior) 10 c).

(** A boundary that involves [undefined] is [NaN]; every comparison with
    it is false. *)
Definition geq_boundary (x : Q) (boundary : option Q) : bool :=
  match boundary with
  | Some b => Qleb b x
  | None => false
  end.

Definition handleInfiniteScroll (c : Context) : result Context :=
  if negb (infiniteScrollSetup c) then Ok c
  else
    match slides c with
    | [] => TypeError
    | first :: _ =>
        let scrollLeft := scrollLeft c in
        let slideWidth := offsetWidth first + gap (currentOptions c) in
        let totalOriginalWidth := inject_Z (totalSlides c) * slideWidth in
        let leftBoundary := slideWidth * 2 in
        let rightBoundary :=
          (fun p => p - slideWidth * 2)
            <$> nthZ (slidePositions c) (initialCloneCount c + totalSlides c) in
        if Qleb scrollLeft leftBoundary then
          let equivalentPosition := scrollLeft + totalOriginalWidth in
          Ok (seamlessJump equivalentPosition c)
        else if geq_boundary scrollLeft rightBoundary then
          let equivalentPosition := scrollLeft - totalOriginalWidth in
          Ok (seamlessJump equivalentPosition c)
        else Ok c
    end.

(** The index of the first element of [centers] that is closest to
    [centerPoint] ([0] when there is none). *)
Definition closestIndex (centerPoint : Q) (centers : list Q) : Z :=
  let step (acc : Z * option Q * Z) (slideCenter : Q) :=
    let '(closestSlide, closestDistance, i) := acc in
    let distance := Qabs (centerPoint - slideCenter) in
    let closer := match closestDistance with
                  | None => true
                  | Some d => Qltb distance d
                  end in
    if closer then (i, Some distance, (i + 1)%Z)
    else (closestSlide, closestDistance, (i + 1)%Z) in
  (foldl step (0%Z, None, 0%Z) centers).1.1.

Definition visibleTrackWidth (c : Context) : Q :=
  trackOffsetWidth c - trackPaddingLeft c - trackPaddingRight c.

Definition findCurrentCenterSlideIndex (c : Context) : Z :=
  let centerPoint := scrollLeft c + visibleTrackWidth c / 2 in
  closestIndex centerPoint
    (imap (fun i slide => offsetLeftAt c i + offsetWidth slide / 2 - trackPaddingLeft c)
          (slidesToUse c)).

Definition goToCenterSlide (slideIndex : Z) (c : Context) : Context :=
  if (slideIndex <? 0)%Z || (Z.of_nat (length (slidesToUse c)) <=? slideIndex)%Z then c
  else
    match nthZ (slidesToUse c) slideIndex with
    | None => c
    | Some targetSlide =>
        let slideLeft := offsetLeftAt c (Z.to_nat slideIndex) - trackPaddingLeft c in
        let slideWidth := offsetWidth targetSlide in
        let targetPosition := slideLeft - visibleTrackWidth c / 2 + slideWidth / 2 in
        scrollTo (Some targetPosition) c
    end.

Definition setupTrueInfinite (c : Context) : result Context :=
  match slides c with
  | [] => TypeError
  | first :: _ =>
      let containerWidth := containerOffsetWidth c in
      let slideWidth := offsetWidth first + gap (currentOptions c) in
      let slidesPerView := Qceiling (containerWidth / slideWidth) in
      let clonesNeeded := Z.max (totalSlides c) (slidesPerView * 2) in
      let c := set_initialCloneCount clonesNeeded c in
      c ← for_each (range 0 clonesNeeded) (fun i c =>
        let originalIndex := Z.rem i (totalSlides c) in
        match nthZ (slides c) originalIndex with
        | Some s =>
            Ok (appendChild (withOriginalIndex originalIndex (cloneAs InfiniteClone s)) c)
        | None => TypeError
        end) c;
      c ← for_each (range 0 clonesNeeded) (fun i c =>
        let originalIndex :=
          Z.rem (totalSlides c - 1 - Z.rem i (totalSlides c)) (totalSlides c) in
        match nthZ (slides c) originalIndex with
        | Some s =>
            Ok (insertFirst (withOriginalIndex originalIndex (cloneAs InfiniteClone s)) c)
        | None => TypeError
        end) c;
      let c := set_allSlides (Some (trackChildren c)) c in
      Ok (snd (setTimeout (InitialPosition clonesNeeded) 10 c))
  end.

(** The callback that [setupTrueInfinite] schedules.  Assigning
    [undefined] to [scrollLeft] scrolls to [0]. *)
Definition initialPosition (clonesNeeded : Z) (c : Context) : result Context :=
  let leftPadding := trackPaddingLeft c in
  slidePositions ←
    match allSlides c with
    | Some all => Ok (imap (fun i _ => offsetLeftAt c i - leftPadding) all)
    | None => TypeError
    end;
  let c := set_slidePositions slidePositions c in
  let startIndex := (clonesNeeded + startSlide (currentOptions c))%Z in
  let initialPosition := nthZ slidePositions startIndex in
  initialPosition ←
    (if centerMode (currentOptions c) then
       match slides c with
       | [] => TypeError
       | first :: _ =>
           let slideWidth := offsetWidth first in
           Ok ((fun p => p - visibleTrackWidth c / 2 + slideWidth / 2) <$> initialPosition)
       end
     else Ok initialPosition);
  let c := set_scrollBehavior "auto" c in
  let c := set_scrollLeft (default 0 initialPosition) c in
  let c := set_scrollBehavior "smooth" c in
  let c := set_currentSlide (startSlide (currentOptions c)) c in
  Ok (set_infiniteScrollSetup true c).

Definition run (cb : callback) (c : Context) : result Context :=
  match cb with
  | RestoreScrollBehavior originalBehavior => Ok (restoreScrollBehavior originalBehavior c)
  | InitialPosition clonesNeeded => initialPosition clonesNeeded c
  | _ => Ok c
  end.

End InfiniteScroll.

(** ** helpers/config.js *)

Module Config.

(** One entry of [options.responsive]. *)
Record Breakpoint : Type := mkBreakpoint {
  breakpoint : Q;
  settings : gmap string prim
}.

(** A property of an options object: a primitive, or the breakpoint list. *)
Inductive value : Type :=
  | VPrim (p : prim)
  | VResponsive (bps : list Breakpoint).

(** [Object.assign(target, source)]: the properties of [source] win. *)
Definition assign (target source : gmap string value) : gmap string value :=
  source ∪ target.

Definition vnum (q : Q) : value := VPrim (PNum q).
Definition vbool (b : bool) : value := VPrim (PBool b).
Definition vstr (s : string) : value := VPrim (PStr s).

Definition DEFAULT_CONFIG : gmap string value :=
  list_to_map
    [ ("slidesToShow", vnum 4);
      ("slidesToScroll", vnum 1);
      ("infinite", vbool false);
      ("bounceBack", vbool false);
      ("centerMode", vbool false);
      ("autoplay", vbool false);
      ("autoplaySpeed", vnum 3000);
      ("gap", vnum 24);
      ("startSlide", vnum 0);
      ("responsive", VResponsive
         [ mkBreakpoint 1200 {[ "slidesToShow" := PNum 3 ]};
           mkBreakpoint 992 {[ "slidesToShow" := PNum 2 ]};
           mkBreakpoint 768 {[ "slidesToShow" := PNum 1 ]};
           mkBreakpoint 576 {[ "slidesToShow" := PNum 1 ]} ]);
      ("prevElement", vstr ".prev, .slider-prev, .slider-grid-prev");
      ("nextElement", vstr ".next, .slider-next, .slider-grid-next");
      ("minSlideWidth", vnum 0);
      ("showOverflow", vbool false);
      ("overflowAmount", vnum (1 # 2));
      ("containerMaxWidth", vnum 1200);
      ("basePadding", vnum 35) ].

(** The container element, as far as [buildConfig] reads it:
    [dataset.sliderConfig], [None] when the attribute is absent. *)
Record Container : Type := mkContainer {
  sliderConfig : option string
}.

Inductive diagnostic : Type :=
  | Warn (msg : string).

Definition invalid_json_warning : diagnostic :=
  Warn "NativeScrollSlider: Invalid JSON in data-slider-config".

Section WithJSON.
(** The builtin [JSON.parse], read through the own properties of what it
    returns; [None] when it throws a [SyntaxError]. *)
Variable JSON_parse : string -> option (gmap string value).

(** Returns the merged configuration and what was written to the console. *)
Definition buildConfig (container : option Container)
    (passedOptions : gmap string value) : gmap string value * list diagnostic :=
  let '(dataConfig, console) :=
    match container with
    | Some c =>
        match sliderConfig c with
        | Some s =>
            if truthy (PStr s) then
              match JSON_parse s with
              | Some parsed => (parsed, [])
              | None => (∅, [invalid_json_warning])
              end
            else (∅, [])
        | None => (∅, [])
        end
    | None => (∅, [])
    end in
  (assign (assign (assign ∅ DEFAULT_CONFIG) dataConfig) passedOptions, console).

End WithJSON.

(** One turn of the cascade loop. *)
Definition apply_breakpoint (width : Q) (currentOptions : gmap string value)
    (bp : Breakpoint) : gmap string value :=
  if Qleb width (breakpoint bp)
  then assign currentOptions (VPrim <$> settings bp)
  else currentOptions.

(** [width] is [window.innerWidth].  Spreading [options.responsive]
    throws unless it is iterable; a string is iterable, and none of its
    characters has a [breakpoint]. *)
Definition applyResponsiveSettings (width : Q) (options : gmap string value)
  : result (gmap string value) :=
  let currentOptions := assign ∅ options in
  match options !! "responsive" with
  | Some (VResponsive responsive) =>
      let sortedBreakpoints := sort_desc breakpoint responsive in
      Ok (foldl (apply_breakpoint width) currentOptions sortedBreakpoints)
  | Some (VPrim (PStr _)) => Ok currentOptions
  | _ => TypeError
  end.

End Config.

(** ** helpers/utils.js *)

Module Utils.
Local Open Scope Q_scope.

Section WithParseFloat.
(** The builtin [parseFloat]; [None] stands for [NaN]. *)
Variable parseFloat : string -> option Q.

Definition parseMinSlideWidth (minWidth : prim) : Q :=
    if negb (truthy minWidth) then 0
    else match minWidth with
         | PStr s => match parseFloat s with
                     | Some numericValue => numericValue
                     | None => 0
                     end
         | PNum q => q
         | _ => 0
         end.

Record LayoutResult : Type := mkLayout {
    slideWidth : Q;
    totalNeededWidth : Q;
    leftPadding : Q
  }.

Definition calculateSlideWidth
      (containerWidth slidesToShow gap : Q) (minSlideWidth : prim) : LayoutResult :=
    let totalGaps := (slidesToShow - 1) * gap in
    let calculatedSlideWidth := (containerWidth - totalGaps) / slidesToShow in
    let parsedMinWidth := parseMinSlideWidth minSlideWidth in
    if Qltb 0 parsedMinWidth && Qltb calculatedSlideWidth parsedMinWidth then
      let slideWidth := parsedMinWidth in
      let totalNeededWidth := slideWidth * slidesToShow + totalGaps in
      mkLayout slideWidth totalNeededWidth
               (Qmax 0 ((containerWidth - totalNeededWidth) / 2))
    else
      let slideWidth := calculatedSlideWidth in
      let totalNeededWidth := slideWidth * slidesToShow + totalGaps in
      mkLayout slideWidth totalNeededWidth
               (Qmax 0 ((containerWidth - totalNeededWidth) / 2)).

End WithParseFloat.

(** [Math.floor], and the number of slides that fit in the container. *)
Definition getActualSlidesToShow
    (containerWidth : Q) (slides : list Q) (gap : Q) (configuredSlidesToShow : Z) : Z :=
  match slides with
  | [] => configuredSlidesToShow
  | slideWidth :: _ =>
      let actualSlidesToShow := Qfloor ((containerWidth + gap) / (slideWidth + gap)) in
      Z.min actualSlidesToShow configuredSlidesToShow
  end.


End Utils.

(** ** modules/navigation.js *)

Module Navigation.
Local Open Scope Z_scope.

Definition goToSlide (slideIndex : Z) (c : Context) : result Context :=
  let o := currentOptions c in
  if infinite o then Ok c
  else if (slideIndex <? 0) || (totalSlides c <=? slideIndex) then Ok c
  else
    let targetPosition :=
      if bounceBack o then
        let cloneCount := Z.max (slidesToShow o) 2 in
        nthZ (slidePositions c) (cloneCount + slideIndex)
      else nthZ (slidePositions c) slideIndex in
    targetPosition ←
      (if centerMode o then
         let containerInnerWidth :=
           (containerOffsetWidth c - containerPaddingLeft c - containerPaddingRight c)%Q in
         match slides c with
         | [] => TypeError
         | first :: _ =>
             let slideWidth := offsetWidth first in
             let centered :=
               (fun p => p - containerInnerWidth / 2 + slideWidth / 2)%Q <$> targetPosition in
             Ok ((fun p => p - containerPaddingLeft c)%Q <$> centered)
         end
       else Ok targetPosition);
    Ok (set_currentSlide slideIndex (scrollTo targetPosition c)).

Definition next (c : Context) : result Context :=
  let o := currentOptions c in
  if infinite o then
    match slides c with
    | [] => TypeError
    | first :: _ =>
        let slideWidth := (offsetWidth first + gap o)%Q in
        let scrollAmount := (slideWidth * inject_Z (slidesToScroll o))%Q in
        if centerMode o then
          let currentCenterSlide := InfiniteScroll.findCurrentCenterSlideIndex c in
          let nextCenterSlide := currentCenterSlide + slidesToScroll o in
          Ok (InfiniteScroll.goToCenterSlide nextCenterSlide c)
        else Ok (scrollTo (Some (scrollLeft c + scrollAmount)%Q) c)
    end
  else
    let actualSlidesToShow :=
      Utils.getActualSlidesToShow (containerOffsetWidth c) (offsetWidth <$> slides c)
        (gap o) (slidesToShow o) in
    let nextSlide :=
      if bounceBack o then Z.rem (currentSlide c + slidesToScroll o) (totalSlides c)
      else Z.min (currentSlide c + slidesToScroll o) (totalSlides c - actualSlidesToShow) in
    goToSlide nextSlide c.

Definition prev (c : Context) : result Context :=
  let o := currentOptions c in
  if infinite o then
    match slides c with
    | [] => TypeError
    | first :: _ =>
        let slideWidth := (offsetWidth first + gap o)%Q in
        let scrollAmount := (slideWidth * inject_Z (slidesToScroll o))%Q in
        if centerMode o then
          let currentCenterSlide := InfiniteScroll.findCurrentCenterSlideIndex c in
          let prevCenterSlide := currentCenterSlide - slidesToScroll o in
          Ok (InfiniteScroll.goToCenterSlide prevCenterSlide c)
        else Ok (scrollTo (Some (scrollLeft c - scrollAmount)%Q) c)
    end
  else
    let prevSlide :=
      if bounceBack o then
        let prevSlide := currentSlide c - slidesToScroll o in
        if prevSlide <? 0 then totalSlides c + prevSlide else prevSlide
      else Z.max (currentSlide c - slidesToScroll o) 0 in
    goToSlide prevSlide c.

End Navigation.

(** ** The bundled class, version 0.0.2 (teleporting infinite mode) *)

Module Slider.
Local Open Scope Z_scope.

Definition calculateSlidePositions (c : Context) : Context :=
  let leftPadding := trackPaddingLeft c in
  set_slidePositions
    (imap (fun i _ => (offsetLeftAt c i - leftPadding)%Q) (slidesToUse c)) c.

(** The callback that [setupClonedSlides] schedules. *)
Definition initialPosition (slidesToClone : Z) (c : Context) : result Context :=
  let c := calculateSlidePositions c in
  let startIndex := slidesToClone + startSlide (currentOptions c) in
  let initialPosition := nthZ (slidePositions c) startIndex in
  initialPosition ←
    (if centerMode (currentOptions c) then
       let visibleTrackWidth := InfiniteScroll.visibleTrackWidth c in
       match slides c with
       | [] => TypeError
       | first :: _ =>
           let slideWidth := offsetWidth first in
           Ok ((fun p => p - visibleTrackWidth / 2 + slideWidth / 2)%Q <$> initialPosition)
       end
     else Ok initialPosition);
  let c := set_scrollLeft (default 0%Q initialPosition) c in
  Ok (set_currentSlide (startSlide (currentOptions c)) c).

Definition setupClonedSlides (mode : string) (c : Context) : result Context :=
  let o := currentOptions c in
  let slidesToClone :=
    if String.eqb mode "infinite" then slidesToShow o + 1 else Z.max (slidesToShow o) 2 in
  c ←
    (if String.eqb mode "infinite" then
       c ← for_each (range 0 slidesToClone) (fun i c =>
         let originalIndex := Z.rem i (totalSlides c) in
         match nthZ (slides c) originalIndex with
         | Some s =>
             Ok (appendChild (withOriginalIndex originalIndex (cloneAs InfiniteClone s)) c)
         | None => TypeError
         end) c;
       c ← for_each (range 0 slidesToClone) (fun i c =>
         let originalIndex := Z.rem (totalSlides c - slidesToClone + i) (totalSlides c) in
         match nthZ (slides c) originalIndex with
         | Some s =>
             Ok (insertFirst (withOriginalIndex originalIndex (cloneAs InfiniteClone s)) c)
         | None => TypeError
         end) c;
       Ok (set_initialCloneCount slidesToClone c)
     else
       c ← for_each (range 0 slidesToClone) (fun i c =>
         match nthZ (slides c) i with
         | Some s => Ok (appendChild (cloneAs BounceClone s) c)
         | None => TypeError
         end) c;
       for_each (range (totalSlides c - slidesToClone) (totalSlides c)) (fun i c =>
         match nthZ (slides c) i with
         | Some s => Ok (insertFirst (cloneAs BounceClone s) c)
         | None => TypeError
         end) c);
  let c := set_allSlides (Some (trackChildren c)) c in
  Ok (snd (setTimeout (InitialPosition slidesToClone) 10 c)).

Definition setupBounceBack (c : Context) : result Context :=
  setupClonedSlides "bounce" c.

Definition stopAutoplay (c : Context) : Context :=
  match autoplayInterval c with
  | Some id => set_autoplayInterval None (clearTimer (Some id) c)
  | None => c
  end.

Definition startAutoplay (c : Context) : Context :=
  if negb (autoplay (currentOptions c)) then c
  else
    let c := stopAutoplay c in
    let '(id, c) := setInterval AutoplayTick (autoplaySpeed (currentOptions c)) c in
    set_autoplayInterval (Some id) c.

Definition pauseAutoplay (c : Context) : Context :=
  stopAutoplay (set_autoplayPaused true c).

Definition resumeAutoplay (c : Context) : Context :=
  if autoplay (currentOptions c) && autoplayPaused c then
    let c := set_autoplayPaused false c in
    snd (setTimeout ResumeAutoplay 1000 c)
  else c.

(** The callback that [resumeAutoplay] schedules. *)
Definition resumeAutoplay_timeout (c : Context) : Context :=
  if negb (autoplayPaused c) && negb (isScrolling c) then startAutoplay c else c.

Definition destroy (c : Context) : Context :=
  let c := stopAutoplay c in
  let c := clearTimer (scrollTimeout c) c in
  let c := clearTimer (infiniteScrollTimeout c) c in
  set_trackChildren (filter (fun clone => cls clone ≠ InfiniteClone) (trackChildren c)) c.

(** The interval callback that [startAutoplay] installs.  The methods
    [next], [goToCenterSlide], [findCurrentCenterSlideIndex] and
    [handleInfiniteScroll] of this class are the functions of the modules
    with [this] for the context. *)
Definition autoplayTick (c : Context) : result Context :=
  let o := currentOptions c in
  if negb (isScrolling c) then
    if infinite o then
      match slides c with
      | [] => TypeError
      | first :: _ =>
          let slideWidth := (offsetWidth first + gap o)%Q in
          let scrollAmount := (slideWidth * inject_Z (slidesToScroll o))%Q in
          if centerMode o then
            let currentCenterSlide := InfiniteScroll.findCurrentCenterSlideIndex c in
            let nextCenterSlide := currentCenterSlide + slidesToScroll o in
            Ok (InfiniteScroll.goToCenterSlide nextCenterSlide c)
          else Ok (scrollTo (Some (scrollLeft c + scrollAmount)%Q) c)
      end
    else Navigation.next c
  else Ok c.

(** The closures of this class, by the timer that runs them. *)
Definition run (cb : callback) (c : Context) : result Context :=
  match cb with
  | InitialPosition slidesToClone => initialPosition slidesToClone c
  | AutoplayTick => autoplayTick c
  | ResumeAutoplay => Ok (resumeAutoplay_timeout c)
  | ScrollEnd => Ok (resumeAutoplay (set_isScrolling false c))
  | DebouncedInfiniteScroll => InfiniteScroll.handleInfiniteScroll c
  | RestoreScrollBehavior originalBehavior =>
      Ok (InfiniteScroll.restoreScrollBehavior originalBehavior c)
  | FirstRealPosition _ => Ok c
  end.

(** The last statement of [setupSlides]: the clones are set up only when
    there are more real items than [slidesToShow].  [setupTrueInfinite] of
    this class is the function of modules/infinite-scroll.js. *)
Definition setupLoopMode (c : Context) : result Context :=
  let o := currentOptions c in
  if (infinite o || bounceBack o) && (slidesToShow o <? totalSlides c) then
    if infinite o then InfiniteScroll.setupTrueInfinite c
    else if bounceBack o then setupBounceBack c
    else Ok c
  else Ok c.

(** What the class shows besides the strip: the two navigation buttons
    ([None] when no button was found, else the [disabled] property of the
    button) and the places in [slidesToUse] of the elements that carry the
    class ['center'].  The elements of [slidesToUse] are the same from one
    call to the next: [allSlides] is assigned by the setup only. *)
Record View : Type := mkView {
  prevBtn : option bool;
  nextBtn : option bool;
  center : gset nat
}.

(** [track.clientWidth]: the track has no border, and its scrollbar is
    hidden. *)
Definition clientWidth (c : Context) : Q := trackOffsetWidth c.

Definition updateNavigation (c : Context) (v : View) : View :=
  match prevBtn v, nextBtn v with
  | Some _, Some _ =>
      let o := currentOptions c in
      if infinite o then mkView (Some false) (Some false) (center v)
      else if bounceBack o then mkView (Some false) (Some false) (center v)
      else
        let maxScroll := (scrollWidth c - clientWidth c)%Q in
        let currentScroll := scrollLeft c in
        mkView (Some (currentSlide c =? 0)) (Some (Qleb (maxScroll - 5) currentScroll))
               (center v)
  | _, _ => v
  end.

Definition updateCenterMode (c : Context) (v : View) : View :=
  let o := currentOptions c in
  if negb (centerMode o) then v
  else
    let slidesToUse := slidesToUse c in
    let v := mkView (prevBtn v) (nextBtn v) ∅ in
    let addCenter (i : nat) := mkView (prevBtn v) (nextBtn v) ({[ i ]} ∪ center v) in
    let atIndex (centerSlideIndex : Z) :=
      match nthZ slidesToUse centerSlideIndex with
      | Some _ => addCenter (Z.to_nat centerSlideIndex)
      | None => v
      end in
    if bounceBack o then
      let cloneCount := Z.max (slidesToShow o) 2 in
      atIndex (cloneCount + currentSlide c)
    else if infinite o then
      let centerPoint := (scrollLeft c + containerOffsetWidth c / 2)%Q in
      match slidesToUse with
      | [] => v
      | _ :: _ =>
          addCenter
            (Z.to_nat
               (InfiniteScroll.closestIndex centerPoint
                  (imap (fun i slide => (offsetLeftAt c i + offsetWidth slide / 2)%Q)
                        slidesToUse)))
      end
    else atIndex (currentSlide c).

Definition updateCurrentSlideFromScroll (c : Context) (v : View)
  : result (Context * View) :=
  let o := currentOptions c in
  let scrollLeft := scrollLeft c in
  if infinite o then Ok (c, updateCenterMode c v)
  else
    let adjustedScrollLeft :=
      if centerMode o then
        let containerInnerWidth :=
          (containerOffsetWidth c - containerPaddingLeft c - containerPaddingRight c)%Q in
        (scrollLeft + containerInnerWidth / 2 + containerPaddingLeft c)%Q
      else scrollLeft in
    comparePositions ←
      (if centerMode o then
         match slidePositions c, slides c with
         | [], _ => Ok []
         | _ :: _, [] => TypeError
         | _ :: _, first :: _ =>
             let slideWidth := offsetWidth first in
             Ok ((fun position => position + slideWidth / 2)%Q <$> slidePositions c)
         end
       else Ok (slidePositions c));
    let closestSlide := InfiniteScroll.closestIndex adjustedScrollLeft comparePositions in
    let c :=
      if bounceBack o && bool_decide (is_Some (allSlides c)) then
        let cloneCount := Z.max (slidesToShow o) 2 in
        if (cloneCount <=? closestSlide) && (closestSlide <? cloneCount + totalSlides c)
        then set_currentSlide (closestSlide - cloneCount) c
        else c
      else set_currentSlide closestSlide c in
    let v := updateNavigation c v in
    Ok (c, updateCenterMode c v).

(** The listener that [setupScrollListener] attaches to the ['scroll']
    event of the track. *)
Definition onScroll (c : Context) (v : View) : result (Context * View) :=
  let c := set_isScrolling true c in
  let c := pauseAutoplay c in
  let c :=
    if infinite (currentOptions c) then
      let c := clearTimer (infiniteScrollTimeout c) c in
      let '(id, c) := setTimeout DebouncedInfiniteScroll 50 c in
      set_infiniteScrollTimeout (Some id) c
    else c in
  let c := clearTimer (scrollTimeout c) c in
  let '(id, c) := setTimeout ScrollEnd 150 c in
  let c := set_scrollTimeout (Some id) c in
  updateCurrentSlideFromScroll c v.

(** The options of the pull-to-right layout, and what
    [updatePullToRightPadding] and [resetPullToRightStyles] write: the
    padding of the track in pixels ([None] for the empty string) and the
    padding that the instance remembers. *)
Record OverflowOptions : Type := mkOverflowOptions {
  showOverflow : bool;
  overflowAmount : Q;
  containerMaxWidth : Q;
  basePadding : Q
}.

Record TrackPadding : Type := mkTrackPadding {
  stylePaddingLeft : option Q;
  stylePaddingRight : option Q;
  pullToRightLeftPadding : Q
}.

(** [viewportWidth] is [window.innerWidth]. *)
Definition updatePullToRightPadding (viewportWidth : Q) (o : OverflowOptions)
    (p : TrackPadding) : TrackPadding :=
  if negb (showOverflow o) then p
  else
    let containerMaxWidth := containerMaxWidth o in
    let basePadding := basePadding o in
    let leftPadding :=
      if Qleb viewportWidth (containerMaxWidth + basePadding * 2)%Q then basePadding
      else Qmax basePadding ((viewportWidth - containerMaxWidth) / 2 + basePadding)%Q in
    mkTrackPadding (Some leftPadding) (Some basePadding) leftPadding.

End Slider.

(** ** The events of the page around the class of version 0.0.2 *)

Module SliderRun.
Import Slider.

(** What the page can send to a slider that [init] has set up: a scroll
    event of the track, after the browser has moved the scroll offset to
    [x] (for the user or for a requested scroll); the pointer entering and
    leaving the container; a click on one of the buttons; and a pending
    timer that becomes due. *)
Inductive event : Type :=
  | Scroll (x : Q)
  | MouseEnter
  | MouseLeave
  | ClickPrev
  | ClickNext
  | TimerFires (id : nat).

(** The callback that [setupTrueInfinite] of the class schedules. *)
Definition infiniteInitialPosition (clonesNeeded : Z) (c : Context) : result Context :=
  let c := calculateSlidePositions c in
  let startIndex := (clonesNeeded + startSlide (currentOptions c))%Z in
  let initialPosition := nthZ (slidePositions c) startIndex in
  initialPosition ←
    (if centerMode (currentOptions c) then
       let visibleTrackWidth := InfiniteScroll.visibleTrackWidth c in
       match slides c with
       | [] => TypeError
       | first :: _ =>
           let slideWidth := offsetWidth first in
           Ok ((fun p => p - visibleTrackWidth / 2 + slideWidth / 2)%Q <$> initialPosition)
       end
     else Ok initialPosition);
  let c := set_scrollBehavior "auto" c in
  let c := set_scrollLeft (default 0%Q initialPosition) c in
  let c := set_scrollBehavior "smooth" c in
  let c := set_currentSlide (startSlide (currentOptions c)) c in
  Ok (set_infiniteScrollSetup true c).

(** The closures of the class by the timer that runs them.  The
    positioning timer is the one of the setup that [setupSlides] chooses:
    [setupTrueInfinite] in infinite mode, else [setupClonedSlides]. *)
Definition run (cb : callback) (c : Context) : result Context :=
  match cb with
  | InitialPosition clonesNeeded =>
      if infinite (currentOptions c) then infiniteInitialPosition clonesNeeded c
      else Slider.run cb c
  | _ => Slider.run cb c
  end.

(** The listeners that [setupScrollListener], [setupAutoplay] (for a
    slider with autoplay) and [setupNavigation] (for a button that was
    found) attach, and the callbacks of the timers.  A disabled button
    sends no click. *)
Definition dispatch (e : event) (s : Context * View) : result (Context * View) :=
  let '(c, v) := s in
  match e with
  | Scroll x => onScroll (set_scrollLeft x c) v
  | MouseEnter =>
      if autoplay (currentOptions c) then Ok (pauseAutoplay c, v) else Ok (c, v)
  | MouseLeave =>
      if autoplay (currentOptions c) then Ok (resumeAutoplay c, v) else Ok (c, v)
  | ClickPrev =>
      match prevBtn v with
      | Some false => c ← Navigation.prev c; Ok (c, v)
      | _ => Ok (c, v)
      end
  | ClickNext =>
      match nextBtn v with
      | Some false => c ← Navigation.next c; Ok (c, v)
      | _ => Ok (c, v)
      end
  | TimerFires id => c ← fireTimer run id c; Ok (c, v)
  end.

Fixpoint runEvents (es : list event) (s : Context * View) : result (Context * View) :=
  match es with
  | [] => Ok s
  | e :: rest => s ← dispatch e s; runEvents rest s
  end.

End SliderRun.

(** ** The bundled class, version 0.0.1 (infinite mode with clones added
       and removed while scrolling) *)

Module SliderDynamic.
Local Open Scope Z_scope.

Definition calculateSlidePositions (c : Context) : Context :=
  let leftPadding := trackPaddingLeft c in
  set_slidePositions
    (imap (fun i _ => (offsetLeftAt c i - leftPadding)%Q) (slidesToUse c)) c.

(** The callback that [setupBounceBack] schedules. *)
Definition bouncePosition (slidesToClone : Z) (c : Context) : result Context :=
  let c := calculateSlidePositions c in
  let firstRealSlideIndex := slidesToClone in
  let initialPosition := nthZ (slidePositions c) firstRealSlideIndex in
  initialPosition ←
    (if centerMode (currentOptions c) then
       let containerWidth := containerOffsetWidth c in
       match slides c with
       | [] => TypeError
       | first :: _ =>
           let slideWidth := offsetWidth first in
           Ok ((fun p => p - containerWidth / 2 + slideWidth / 2)%Q <$> initialPosition)
       end
     else Ok initialPosition);
  let c := set_scrollLeft (default 0%Q initialPosition) c in
  Ok (set_currentSlide (startSlide (currentOptions c)) c).

(** The callback that [setupTrueInfinite] schedules. *)
Definition initialPosition (initialClones : Z) (c : Context) : result Context :=
  let c := calculateSlidePositions c in
  let startIndex := initialClones + startSlide (currentOptions c) in
  let initialPosition := nthZ (slidePositions c) startIndex in
  initialPosition ←
    (if centerMode (currentOptions c) then
       let containerWidth := containerOffsetWidth c in
       match slides c with
       | [] => TypeError
       | first :: _ =>
           let slideWidth := offsetWidth first in
           Ok ((fun p => p - containerWidth / 2 + slideWidth / 2)%Q <$> initialPosition)
       end
     else Ok initialPosition);
  let c := set_scrollLeft (default 0%Q initialPosition) c in
  Ok (set_currentSlide (startSlide (currentOptions c)) c).

Definition setupBounceBack (c : Context) : result Context :=
  let slidesToClone := Z.max (slidesToShow (currentOptions c)) 2 in
  c ← for_each (range 0 slidesToClone) (fun i c =>
    match nthZ (slides c) i with
    | Some s => Ok (appendChild (cloneAs BounceClone s) c)
    | None => TypeError
    end) c;
  c ← for_each (range (totalSlides c - slidesToClone) (totalSlides c)) (fun i c =>
    match nthZ (slides c) i with
    | Some s => Ok (insertFirst (cloneAs BounceClone s) c)
    | None => TypeError
    end) c;
  let c := set_allSlides (Some (trackChildren c)) c in
  Ok (snd (setTimeout (FirstRealPosition slidesToClone) 10 c)).

Definition setupTrueInfinite (c : Context) : result Context :=
  let initialClones := slidesToShow (currentOptions c) + 1 in
  c ← for_each (range 0 initialClones) (fun i c =>
    let originalIndex := Z.rem i (totalSlides c) in
    match nthZ (slides c) originalIndex with
    | Some s => Ok (appendChild (withOriginalIndex originalIndex (cloneAs InfiniteClone s)) c)
    | None => TypeError
    end) c;
  c ← for_each (range 0 initialClones) (fun i c =>
    let originalIndex := Z.rem (totalSlides c - initialClones + i) (totalSlides c) in
    match nthZ (slides c) originalIndex with
    | Some s => Ok (insertFirst (withOriginalIndex originalIndex (cloneAs InfiniteClone s)) c)
    | None => TypeError
    end) c;
  let c := set_allSlides (Some (trackChildren c)) c in
  let c := set_initialCloneCount initialClones c in
  Ok (snd (setTimeout (InitialPosition initialClones) 10 c)).

(** The last statement of [setupSlides]: clones are set up only when there
    are more real items than [slidesToShow]. *)
Definition setupLoopMode (c : Context) : result Context :=
  let o := currentOptions c in
  if (infinite o || bounceBack o) && (slidesToShow o <? totalSlides c) then
    if infinite o then setupTrueInfinite c
    else if bounceBack o then setupBounceBack c
    else Ok c
  else Ok c.

Definition addClonesAtEnd (c : Context) : result Context :=
  c ← for_each (range 0 (totalSlides c)) (fun i c =>
    match nthZ (slides c) i with
    | Some s => Ok (appendChild (withOriginalIndex i (cloneAs InfiniteClone s)) c)
    | None => TypeError
    end) c;
  let c := set_allSlides (Some (trackChildren c)) c in
  Ok (calculateSlidePositions c).

Definition addClonesAtStart (c : Context) : result Context :=
  let currentScrollLeft := scrollLeft c in
  r ← for_each (reverse (range 0 (totalSlides c))) (fun i (r : Context * Q) =>
    let '(c, addedWidth) := r in
    match nthZ (slides c) i with
    | Some s =>
        let clone := withOriginalIndex i (cloneAs InfiniteClone s) in
        Ok (insertFirst clone c,
            (addedWidth + (offsetWidth clone + gap (currentOptions c)))%Q)
    | None => TypeError
    end) (c, 0%Q);
  let '(c, addedWidth) := r in
  let c := set_allSlides (Some (trackChildren c)) c in
  let c := set_scrollLeft (currentScrollLeft + addedWidth)%Q c in
  Ok (calculateSlidePositions c).

(** The children of the strip with their node identities: a node is named
    by the place it has when the function is entered. *)
Definition nodes (c : Context) : list (nat * Slide) :=
  imap (fun i s => (i, s)) (trackChildren c).

(** The live [offsetLeft] of node [t] in a strip that starts at [x];
    [0] once the node is detached. *)
Fixpoint offsetLeftOf (x g : Q) (strip : list (nat * Slide)) (t : nat) : Q :=
  match strip with
  | [] => 0%Q
  | (t', s) :: rest =>
      if (t =? t')%nat then x else offsetLeftOf (x + offsetWidth s + g)%Q g rest t
  end.

(** [clone.remove()]. *)
Definition removeNode (t : nat) (strip : list (nat * Slide)) : list (nat * Slide) :=
  filter (fun n => n.1 ≠ t) strip.

Definition cleanupClonesForAutoplay (c : Context) : Context :=
  let strip := nodes c in
  let g := gap (currentOptions c) in
  let offsetLeft (strip : list (nat * Slide)) (n : nat * Slide) : Q :=
    offsetLeftOf (trackPaddingLeft c) g strip n.1 in
  let clones := filter (fun n => cls n.2 = InfiniteClone) strip in
  let maxAllowedClones := totalSlides c * 4 in
  if Z.of_nat (length clones) <=? maxAllowedClones then c
  else
    let scrollLeft := scrollLeft c in
    let containerWidth := containerOffsetWidth c in
    let keepBuffer := (containerWidth * 2)%Q in
    let outside (clone : nat * Slide) : bool :=
      let cloneLeft := offsetLeft strip clone in
      let cloneRight := (cloneLeft + offsetWidth clone.2)%Q in
      let viewportLeft := (scrollLeft - keepBuffer)%Q in
      let viewportRight := (scrollLeft + containerWidth + keepBuffer)%Q in
      Qltb cloneRight viewportLeft || Qltb viewportRight cloneLeft in
    let distance (a : nat * Slide) : Q :=
      Qabs ((offsetLeft strip a + offsetWidth a.2 / 2)
            - (scrollLeft + containerWidth / 2))%Q in
    let clonesToRemove := sort_desc distance (filter (fun n => outside n = true) clones) in
    let maxToRemove := Z.max 0 (Z.of_nat (length clonesToRemove) - totalSlides c) in
    let removed := take (Z.to_nat (Z.min (Z.of_nat (length clonesToRemove)) maxToRemove))
                        clonesToRemove in
    let '(strip', scrollAdjustment) :=
      foldl (fun (acc : list (nat * Slide) * Q) clone =>
               let '(strip, scrollAdjustment) := acc in
               let scrollAdjustment :=
                 if Qltb (offsetLeft strip clone) scrollLeft
                 then (scrollAdjustment + (offsetWidth clone.2 + g))%Q
                 else scrollAdjustment in
               (removeNode clone.1 strip, scrollAdjustment))
            (strip, 0%Q) removed in
    let c := set_trackChildren (strip'.*2) c in
    let c := if Qltb 0 scrollAdjustment
             then set_scrollLeft (scrollLeft - scrollAdjustment)%Q c else c in
    match clonesToRemove with
    | [] => c
    | _ => calculateSlidePositions (set_allSlides (Some (trackChildren c)) c)
    end.

(** The entries that [cleanupDistantClones] collects: the node, its
    recorded position and its index in [allSlides]. *)
Record CloneInfo : Type := mkCloneInfo {
  slide : nat * Slide;
  position : Q;
  index : nat
}.

Definition cleanupDistantClones (c : Context) : result Context :=
  if autoplay (currentOptions c) then Ok (cleanupClonesForAutoplay c)
  else
    match allSlides c with
    | None => TypeError
    | Some _ =>
        let start := scrollLeft c in
        let containerWidth := containerOffsetWidth c in
        let cleanupDistance := (containerWidth * 4)%Q in
        let far (n : nat * Slide) : option CloneInfo :=
          if bool_decide (cls n.2 = InfiniteClone) then
            match slidePositions c !! n.1 with
            | Some slidePosition =>
                let distanceFromViewport := Qabs (slidePosition - start) in
                if Qltb cleanupDistance distanceFromViewport
                then Some (mkCloneInfo n slidePosition n.1) else None
            | None => None
            end
          else None in
        let clonesToRemove :=
          sort_desc (fun a => Qabs (position a - start)) (omap far (nodes c)) in
        let minClonesPerSide := totalSlides c in
        let maxToRemove :=
          Z.max 0 (Z.of_nat (length clonesToRemove) - minClonesPerSide * 2) in
        let removed := take (Z.to_nat (Z.min (Z.of_nat (length clonesToRemove)) maxToRemove))
                            clonesToRemove in
        let '(strip', scrollLeft) :=
          foldl (fun (acc : list (nat * Slide) * Q) cloneInfo =>
                   let '(strip, scrollLeft) := acc in
                   let scrollLeft :=
                     if Qltb (position cloneInfo) scrollLeft then
                       let slideWidth :=
                         (offsetWidth (slide cloneInfo).2 + gap (currentOptions c))%Q in
                       (scrollLeft - slideWidth)%Q
                     else scrollLeft in
                   (removeNode (slide cloneInfo).1 strip, scrollLeft))
                (nodes c, start) removed in
        let c := set_scrollLeft scrollLeft (set_trackChildren (strip'.*2) c) in
        match removed with
        | [] => Ok c
        | _ => Ok (calculateSlidePositions (set_allSlides (Some (trackChildren c)) c))
        end
    end.

Definition handleInfiniteScroll (c : Context) : result Context :=
  let scrollLeft := scrollLeft c in
  let containerWidth := containerOffsetWidth c in
  let addBuffer := containerWidth in
  let maxClones := totalSlides c * 3 in
  let trackWidth := scrollWidth c in
  let distanceFromEnd := (trackWidth - (scrollLeft + containerWidth))%Q in
  c ←
    (if Qltb distanceFromEnd addBuffer then
       let currentClones := Z.of_nat (countClass InfiniteClone (trackChildren c)) in
       if currentClones <? maxClones then addClonesAtEnd c else Ok c
     else Ok c);
  c ←
    (if Qltb scrollLeft addBuffer then
       let currentClones := Z.of_nat (countClass InfiniteClone (trackChildren c)) in
       if currentClones <? maxClones then addClonesAtStart c else Ok c
     else Ok c);
  cleanupDistantClones c.

Definition handleBounceBackScroll (c : Context) : result Context :=
  let cloneCount := Z.max (slidesToShow (currentOptions c)) 2 in
  let scrollLeft := scrollLeft c in
  match slides c with
  | [] => TypeError
  | first :: _ =>
      let slideWidth := (offsetWidth first + gap (currentOptions c))%Q in
      if Qltb scrollLeft (inject_Z cloneCount * slideWidth / 2)%Q then
        let targetIndex :=
          cloneCount + totalSlides c - (cloneCount - Qfloor (scrollLeft / slideWidth)) in
        Ok (set_scrollLeft (default 0%Q (nthZ (slidePositions c) targetIndex)) c)
      else
        match nthZ (slidePositions c) (cloneCount + totalSlides c - 1) with
        | Some lastReal =>
            if Qltb lastReal scrollLeft then
              let targetIndex := cloneCount + Z.rem (currentSlide c) (totalSlides c) in
              Ok (set_scrollLeft (default 0%Q (nthZ (slidePositions c) targetIndex)) c)
            else Ok c
        | None => Ok c
        end
  end.

Definition handleScrollEnd (c : Context) : result Context :=
  if bounceBack (currentOptions c) then handleBounceBackScroll c
  else if infinite (currentOptions c) then handleInfiniteScroll c
  else Ok c.

(** The interval callback that [startAutoplay] installs in infinite mode. *)
Definition autoplayTick (c : Context) : result Context :=
  if negb (isScrolling c) then
    match slides c with
    | [] => TypeError
    | first :: _ =>
        let slideWidth := (offsetWidth first + gap (currentOptions c))%Q in
        let scrollAmount := (slideWidth * inject_Z (slidesToScroll (currentOptions c)))%Q in
        let c := scrollTo (Some (scrollLeft c + scrollAmount)%Q) c in
        Ok (cleanupClonesForAutoplay c)
    end
  else Ok c.

End SliderDynamic.

(** ** The event loop around the dynamic slider *)

Module DynamicRun.
Import SliderDynamic.

(** The browser completes the scroll that was requested last. *)
Definition settle (c : Context) : Context :=
  match last (scrollRequests c) with
  | Some request =>
      match left request with
      | Some x => set_scrollLeft x c
      | None => c
      end
  | None => c
  end.

(** One period of the autoplay: the tick, the scroll it requested, and the
    end of that scroll. *)
Definition autoplayRound (c : Context) : result Context :=
  c ← autoplayTick c; handleScrollEnd (settle c).

Fixpoint autoplayRounds (n : nat) (c : Context) : result Context :=
  match n with
  | O => Ok c
  | S n' => c ← autoplayRound c; autoplayRounds n' c
  end.

(** What can happen to a running infinite slider between two observations:
    an autoplay tick, the end of a scroll, the first positioning after
    setup, a change of the scroll offset by the browser (the animation of
    a requested scroll, or the user), and the start or end of a scroll
    gesture. *)
Inductive step : Context -> Context -> Prop :=
  | step_tick c c' : autoplayTick c = Ok c' -> step c c'
  | step_scroll_end c c' : handleScrollEnd c = Ok c' -> step c c'
  | step_positioned n c c' : initialPosition n c = Ok c' -> step c c'
  | step_positioned_bounce n c c' : bouncePosition n c = Ok c' -> step c c'
  | step_scrolled x c : step c (set_scrollLeft x c)
  | step_scrolling b c : step c (set_isScrolling b c).

Inductive reachable (c0 : Context) : Context -> Prop :=
  | reachable_start : reachable c0 c0
  | reachable_step c c' : reachable c0 c -> step c c' -> reachable c0 c'.

End DynamicRun.

(** The clone of real item [j] that the loops of infinite mode insert. *)
Definition infiniteCloneOf (slides : list Slide) (j : Z) : option Slide :=
  (fun s => withOriginalIndex j (cloneAs InfiniteClone s)) <$> nthZ slides j.

(** [x] is a copy of real item [j]: same content, the class of the clones
    of infinite mode, and the index [j] in [data-original-index]. *)
Definition copyOf (slides : list Slide) (j : Z) (x : Slide) : Prop :=
  exists s, nthZ slides j = Some s /\
            content x = content s /\ cls x = InfiniteClone /\ originalIndex x = Some j.

(** ** Relations used in the statements and proofs *)

(** The base width as the specification writes it. *)
Definition baseWidth (containerWidth slidesToShow gap : Q) : Q :=
  ((containerWidth - gap * (slidesToShow - 1)) / slidesToShow)%Q.

(** The cascade as the specification words it: only the breakpoints whose
    threshold is at least [width], sorted by descending threshold, every
    one of them applied. *)
Definition fold_matching (width : Q) (options : gmap string Config.value)
    (responsive : list Config.Breakpoint) : gmap string Config.value :=
  foldl (fun cur bp => Config.assign cur (Config.VPrim <$> Config.settings bp)) options
    (sort_desc Config.breakpoint
       (filter (fun bp => Qleb width (Config.breakpoint bp) = true) responsive)).

(** [x] may stand before [y] in a list sorted by descending key. *)
Definition desc {A : Type} (key : A -> Q) (x y : A) : Prop := (key y <= key x)%Q.

(** The merge of the defaults with the explicit options alone. *)
Definition defaults_with (passedOptions : gmap string Config.value)
  : gmap string Config.value :=
  Config.assign (Config.assign ∅ Config.DEFAULT_CONFIG) passedOptions.

(** The facts about an instance that the clone maintenance keeps or
    changes: [k] more clones of infinite mode, none of bounce mode, same
    configuration. *)
Definition grown (k : nat) (c c' : Context) : Prop :=
  totalSlides c' = totalSlides c /\
  slides c' = slides c /\
  currentOptions c' = currentOptions c /\
  Forall (fun s => cls s ≠ BounceClone) (trackChildren c') /\
  countClass InfiniteClone (trackChildren c') =
    countClass InfiniteClone (trackChildren c) + k.

(** The same with clones removed at will. *)
Definition shrunk (c c' : Context) : Prop :=
  totalSlides c' = totalSlides c /\
  slides c' = slides c /\
  currentOptions c' = currentOptions c /\
  Forall (fun s => cls s ≠ BounceClone) (trackChildren c') /\
  countClass InfiniteClone (trackChildren c') <=
    countClass InfiniteClone (trackChildren c).

(** The invariant of the running slider: the real items [sl], counted by
    [totalSlides], the configuration [o], no bounce clone in the strip and
    at most four clones of infinite mode per real item. *)
Definition bounded (sl : list Slide) (o : Options) (c : Context) : Prop :=
  slides c = sl /\
  totalSlides c = Z.of_nat (length sl) /\
  currentOptions c = o /\
  Forall (fun s => cls s ≠ BounceClone) (trackChildren c) /\
  (Z.of_nat (countClass InfiniteClone (trackChildren c)) <= 4 * Z.of_nat (length sl))%Z.

(** The three fields that the cloning loops read or that are read after
    them. *)
Definition sameInstance (c c' : Context) : Prop :=
  slides c' = slides c /\ totalSlides c' = totalSlides c /\
  initialCloneCount c' = initialCloneCount c.

(** The clones that [createClonedSlides] takes from [slides]. *)
Definition cloneOf (mode : string) (slides : list Slide) (originalIndex : Z)
  : option Slide :=
  if String.eqb mode "infinite" then
    (fun s => withOriginalIndex originalIndex (cloneAs InfiniteClone s))
      <$> nthZ slides originalIndex
  else cloneAs BounceClone <$> nthZ slides originalIndex.

(** The state of the search after the elements of [l]. *)
Definition searched (centerPoint : Q) (l : list Q) (acc : Z * option Q * Z) : Prop :=
  acc.2 = Z.of_nat (length l) /\
  match l with
  | [] => acc.1 = (0%Z, None)
  | _ :: _ =>
      exists x,
        (0 <= acc.1.1)%Z /\ l !! Z.to_nat acc.1.1 = Some x /\
        acc.1.2 = Some (Qabs (centerPoint - x)) /\
        forall (j : nat) y, l !! j = Some y ->
          (Qabs (centerPoint - x) <= Qabs (centerPoint - y))%Q /\
          ((j < Z.to_nat acc.1.1)%nat ->
           (Qabs (centerPoint - x) < Qabs (centerPoint - y))%Q)
  end.

(** The width that the elements of [l] take in the row, each with the gap
    that follows it. *)
Definition stripWidth (g : Q) (l : list Slide) : Q :=
  foldr (fun s acc => offsetWidth s + g + acc)%Q 0%Q l.

(** Calling [f] again and again, [n] times. *)
Fixpoint repeatedly {S : Type} (n : nat) (f : S -> result S) (s : S) : result S :=
  match n with
  | O => Ok s
  | Datatypes.S n' => s' ← f s; repeatedly n' f s'
  end.

(** What the teleport reads of the instance. *)
Definition sameGeometry (c c' : Context) : Prop :=
  infiniteScrollSetup c' = infiniteScrollSetup c /\
  slides c' = slides c /\
  currentOptions c' = currentOptions c /\
  totalSlides c' = totalSlides c /\
  initialCloneCount c' = initialCloneCount c /\
  slidePositions c' = slidePositions c.

(** The number of clones that [setupTrueInfinite] puts on each side. *)
Definition clonesNeeded (c : Context) : Z :=
  match slides c with
  | [] => 0%Z
  | first :: _ =>
      Z.max (totalSlides c)
        (Qceiling (containerOffsetWidth c / (offsetWidth first + gap (currentOptions c)))%Q
         * 2)%Z
  end.

(** The instance knows its debounced timers: every pending timer was
    handed out before, and a pending autoplay interval, scroll-end timeout
    or debounced teleport is the one that the instance holds the id of. *)
Definition ownsTimers (c : Context) : Prop :=
  (forall id t, timers c !! id = Some t -> (id < nextTimer c)%nat) /\
  (forall id t, timers c !! id = Some t -> action t = AutoplayTick ->
                autoplayInterval c = Some id) /\
  (forall id t, timers c !! id = Some t -> action t = ScrollEnd ->
                scrollTimeout c = Some id) /\
  (forall id t, timers c !! id = Some t -> action t = DebouncedInfiniteScroll ->
                infiniteScrollTimeout c = Some id).

(** The fields that hold the timers, and those that the autoplay reads. *)
Definition sameTimers (c c' : Context) : Prop :=
  timers c' = timers c /\ nextTimer c' = nextTimer c /\
  autoplayInterval c' = autoplayInterval c /\ scrollTimeout c' = scrollTimeout c /\
  infiniteScrollTimeout c' = infiniteScrollTimeout c /\
  currentOptions c' = currentOptions c /\ isScrolling c' = isScrolling c /\
  autoplayPaused c' = autoplayPaused c.

(** The callbacks that the class keeps at most one pending timer of. *)
Definition debounced (cb : callback) : bool :=
  match cb with
  | AutoplayTick | ScrollEnd | DebouncedInfiniteScroll => true
  | _ => false
  end.

(** The real items among the children of the strip, left to right. *)
Definition realItems (l : list Slide) : list Slide :=
  filter (fun s => cls s = RealSlide) l.


(** What the index of the current slide depends on. *)
Definition unmoved (c c' : Context) : Prop :=
  totalSlides c' = totalSlides c /\ currentOptions c' = currentOptions c /\
  slides c' = slides c /\ allSlides c' = allSlides c /\
  currentSlide c' = currentSlide c /\ slidePositions c' = slidePositions c.

(** ** Construction *)

(** The instance as the constructor leaves it before [init]: [n] real
    items of width [w] in a container and track of width [width], nothing
    scheduled, nothing scrolled. *)
Definition construct (o : Options) (n : nat) (w width : Q) : Context :=
  mkContext (realSlides n w) 0 "" 0 0 width width 0 0 (realSlides n w) None o
    (Z.of_nat n) 0 [] 0 false false false None None None ∅ 1 [].

(** [setupTrackStyles], as far as the scroll behaviour goes. *)
Definition setupTrackStyles (c : Context) : Context :=
  set_scrollBehavior "smooth" c.

(** ** Sample sliders *)

(** An infinite slider of five items of width 282 in a container of 1200,
    set up, positioned by its timer, and then scrolled by the user to
    offset 100, close to the left end of the strip. *)
Definition infiniteNearLeftEnd : result Context :=
  let o := mkOptions 4 1 true false false false 3000 24 0 in
  c ← InfiniteScroll.setupTrueInfinite (setupTrackStyles (construct o 5 282 1200));
  c ← fireTimer InfiniteScroll.run 1 c;
  Ok (set_scrollLeft 100 c).

(** A plain slider of five items, three of which fit the container:
    [(948 - 2*24) / 3 = 300]. *)
Definition plainFive : Context :=
  Slider.calculateSlidePositions
    (construct (mkOptions 3 1 false false false false 3000 24 0) 5 300 948).


(** A bounce-back slider of four items showing two, set up and positioned
    by its timer. *)
Definition bounceFour : result Context :=
  let o := mkOptions 2 1 false true false false 3000 24 0 in
  c ← Slider.setupBounceBack (setupTrackStyles (construct o 4 300 624));
  fireTimer Slider.run 1 c.

(** A bounce-back slider with autoplay: set up and started by [init],
    positioned by its timer; the pointer then enters the container, which
    pauses the autoplay, and leaves it, which schedules the resumption. *)
Definition bounceHovered : result Context :=
  let o := mkOptions 2 1 false true false true 3000 24 0 in
  c ← Slider.setupBounceBack (setupTrackStyles (construct o 4 300 624));
  let c := Slider.startAutoplay c in
  c ← fireTimer Slider.run 1 c;
  let c := Slider.pauseAutoplay c in
  Ok (Slider.resumeAutoplay c).

(** An infinite slider of five items with autoplay, in the class of
    version 0.0.1, as the constructor and the track styles leave it. *)
Definition dynamicAutoplay : Context :=
  setupTrackStyles (construct (mkOptions 3 1 true false false true 3000 24 0) 5 300 948).

(** An infinite slider of three items showing one, set up, positioned by
    its timer and then scrolled to the second clone: [324 = 300 + 24]. *)
Definition infiniteThree : result Context :=
  let o := mkOptions 1 1 true false false false 3000 24 0 in
  c ← InfiniteScroll.setupTrueInfinite (setupTrackStyles (construct o 3 300 300));
  c ← fireTimer InfiniteScroll.run 1 c;
  Ok (set_scrollLeft 324 c).

(** A plain slider of five items with autoplay, started by [init], with
    both buttons; the previous button is disabled on the first slide. *)
Definition autoplayFive : Context * Slider.View :=
  (Slider.startAutoplay
     (Slider.calculateSlidePositions
        (construct (mkOptions 3 1 false false false true 3000 24 0) 5 300 948)),
   Slider.mkView (Some true) (Some false) ∅).

(** * Properties *)

(** ** Number comparisons *)

Lemma Qleb_spec (a b : Q) : Qleb a b = true <-> (a <= b)%Q.
Proof. apply Qle_bool_iff. Qed.

Lemma Qltb_spec (a b : Q) : Qltb a b = true <-> (a < b)%Q.
Proof.
  unfold Qltb. rewrite negb_true_iff, <- not_true_iff_false, Qle_bool_iff.
  split; [apply Qnot_le_lt | apply Qlt_not_le].
Qed.

Lemma Qleb_false (a b : Q) : Qleb a b = false <-> (b < a)%Q.
Proof.
  rewrite <- not_true_iff_false, Qleb_spec.
  split; [apply Qnot_le_lt | apply Qlt_not_le].
Qed.

Lemma Qltb_false (a b : Q) : Qltb a b = false <-> (b <= a)%Q.
Proof.
  rewrite <- not_true_iff_false, Qltb_spec.
  split; [apply Qnot_lt_le | apply Qle_not_lt].
Qed.

(** ** Layout: [calculateSlideWidth] *)

Section Layout.
Local Open Scope Q_scope.
Variable parseFloat : string -> option Q.

Let layout := Utils.calculateSlideWidth parseFloat.
Let parsed := Utils.parseMinSlideWidth parseFloat.

Lemma baseWidth_calculated (cw n g : Q) :
  baseWidth cw n g == (cw - (n - 1) * g) / n.
Proof.
  unfold baseWidth.
  assert (E : cw - g * (n - 1) == cw - (n - 1) * g) by ring.
  now rewrite E.
Qed.

(** The width is the base width unless a positive minimum exceeds it. *)
Lemma calculateSlideWidth_width (cw n g : Q) (m : prim) :
  Utils.slideWidth (layout cw n g m) ==
    if Qltb 0 (parsed m) && Qltb (baseWidth cw n g) (parsed m)
    then parsed m else baseWidth cw n g.
Proof.
  unfold layout, parsed, Utils.calculateSlideWidth.
  set (p := Utils.parseMinSlideWidth parseFloat m).
  assert (E : Qltb ((cw - (n - 1) * g) / n) p = Qltb (baseWidth cw n g) p).
  { unfold Qltb. f_equal. apply eq_true_iff_eq.
    rewrite !Qle_bool_iff, baseWidth_calculated. reflexivity. }
  rewrite E.
  destruct (Qltb 0 p && Qltb (baseWidth cw n g) p); simpl;
    [reflexivity | symmetry; apply baseWidth_calculated].
Qed.

Lemma calculateSlideWidth_padding (cw n g : Q) (m : prim) :
  let r := layout cw n g m in
  Utils.leftPadding r ==
    Qmax 0 ((cw - (Utils.slideWidth r * n + g * (n - 1))) / 2).
Proof.
  unfold layout, Utils.calculateSlideWidth.
  destruct (_ && _); simpl;
    match goal with
    | |- Qmax 0 ((cw - (?w * n + ?a)) / 2) == Qmax 0 ((cw - (?w * n + ?b)) / 2) =>
        assert (E : a == b) by ring; now rewrite E
    end.
Qed.

End Layout.

(** C3 (as amended).  For a positive container width, at least one visible
    slide and a non-negative gap, [calculateSlideWidth] returns the base
    width [(containerWidth - gap*(slidesToShow-1)) / slidesToShow] whenever
    the parsed minimum is not positive or does not exceed the base width,
    and the parsed minimum when it is positive and exceeds the base width;
    in both cases the left padding is
    [max(0, (containerWidth - (slideWidth*slidesToShow + gap*(slidesToShow-1))) / 2)].
    For a container of 1200, 4 slides, gap 24 and no minimum, the slide
    width is 282 and the padding 0. *)
Theorem calculateSlideWidth_spec :
  (forall (parseFloat : string -> option Q) (cw n g : Q) (m : prim),
      (0 < cw)%Q -> (1 <= n)%Q -> (0 <= g)%Q ->
      let r := Utils.calculateSlideWidth parseFloat cw n g m in
      let base := baseWidth cw n g in
      let p := Utils.parseMinSlideWidth parseFloat m in
      ((p <= 0 \/ p <= base)%Q -> (Utils.slideWidth r == base)%Q) /\
      ((0 < p /\ base < p)%Q -> (Utils.slideWidth r == p)%Q) /\
      (Utils.leftPadding r ==
         Qmax 0 ((cw - (Utils.slideWidth r * n + g * (n - 1))) / 2))%Q) /\
  (forall (parseFloat : string -> option Q),
      let r := Utils.calculateSlideWidth parseFloat 1200 4 24 (PNum 0) in
      (Utils.slideWidth r == 282)%Q /\ (Utils.leftPadding r == 0)%Q).
Proof.
  split.
  - intros parseFloat cw n g m _ _ _ r base p. repeat split.
    + intros H. unfold r. rewrite calculateSlideWidth_width. fold p base.
      destruct (Qltb 0 p) eqn:E1; destruct (Qltb base p) eqn:E2; simpl;
        try reflexivity.
      apply Qltb_spec in E1, E2. destruct H as [H | H]; exfalso; lra.
    + intros [H1 H2]. unfold r. rewrite calculateSlideWidth_width. fold p base.
      apply Qltb_spec in H1, H2. rewrite H1, H2. reflexivity.
    + apply calculateSlideWidth_padding.
  - intros parseFloat. split; vm_compute; reflexivity.
Qed.

Lemma calculateSlideWidth_spec_witness :
  (0 < 1000)%Q /\ (1 <= 3)%Q /\ (0 <= 20)%Q /\
  (Utils.slideWidth (Utils.calculateSlideWidth (fun _ => Some 400%Q) 1000 3 20 (PStr "400px"))
   == 400)%Q.
Proof.
  assert (H1 : (0 < 1000)%Q) by reflexivity.
  assert (H2 : (1 <= 3)%Q) by (unfold Qle; simpl; lia).
  assert (H3 : (0 <= 20)%Q) by (unfold Qle; simpl; lia).
  split; [exact H1 | split; [exact H2 | split; [exact H3 |]]].
  apply (proj1 (proj2 (proj1 calculateSlideWidth_spec
                   (fun _ => Some 400%Q) 1000%Q 3%Q 20%Q (PStr "400px") H1 H2 H3))).
  split; reflexivity.
Defined.

(** C3 as stated fails on a negative minimum: the base width [-100] is
    below the parsed minimum [-50], the minimum is not [0], and yet the
    width is not raised to the minimum. *)
Lemma calculateSlideWidth_negative_minimum :
  let parseFloat : string -> option Q := fun _ => None in
  let r := Utils.calculateSlideWidth parseFloat 100 2 300 (PNum (-50)) in
  let base := baseWidth 100 2 300 in
  let p := Utils.parseMinSlideWidth parseFloat (PNum (-50)) in
  ((0 < 100)%Q /\ (1 <= 2)%Q /\ (0 <= 300)%Q) /\
  ~ (p <= base)%Q /\ ~ (p == 0)%Q /\
  ~ (Utils.slideWidth r == p)%Q /\ (Utils.slideWidth r == base)%Q.
Proof.
  vm_compute. repeat split; try discriminate; intros H; apply H; reflexivity.
Qed.

(** ** Stable sort by descending key *)

Section SortDesc.
Context {A : Type} (key : A -> Q).

Lemma insert_desc_elem (x : A) (l : list A) (P : A -> Prop) :
  P x -> Forall P l -> Forall P (insert_desc key x l).
Proof.
  intros Hx. induction 1 as [| y l Hy Hl IH]; simpl.
  - by constructor.
  - destruct (Qleb (key y) (key x)); repeat constructor; auto.
Qed.

Lemma insert_desc_sorted (x : A) (l : list A) :
  StronglySorted (desc key) l -> StronglySorted (desc key) (insert_desc key x l).
Proof.
  induction 1 as [| y l Hs IH Hall]; simpl.
  - repeat constructor.
  - destruct (Qleb (key y) (key x)) eqn:E.
    + apply Qleb_spec in E. constructor; [by constructor |].
      constructor; [exact E |].
      eapply Forall_impl; [exact Hall |]. unfold desc. intros z Hz. simpl in *. lra.
    + apply Qleb_false in E. constructor; [exact IH |].
      apply insert_desc_elem; [unfold desc; lra | exact Hall].
Qed.

Lemma sort_desc_sorted (l : list A) : StronglySorted (desc key) (sort_desc key l).
Proof.
  induction l as [| x l IH]; simpl; [constructor | by apply insert_desc_sorted].
Qed.

(** An element that may stand before all of a list is inserted in front. *)
Lemma insert_desc_front (x : A) (l : list A) :
  Forall (desc key x) l -> insert_desc key x l = x :: l.
Proof.
  destruct 1 as [| y l Hy _]; simpl; [reflexivity |].
  apply Qleb_spec in Hy. by rewrite Hy.
Qed.

Section Filter.
Context (P : A -> Prop) `{!forall x, Decision (P x)}.

Lemma Forall_filter_keep (R : A -> Prop) (l : list A) :
  Forall R l -> Forall R (filter P l).
Proof.
  induction 1 as [| y l Hy Hl IH]; [constructor |].
  rewrite filter_cons. destruct (decide (P y)); [by constructor | exact IH].
Qed.

Lemma filter_insert_desc_out (x : A) (l : list A) :
  ~ P x -> filter P (insert_desc key x l) = filter P l.
Proof.
  intros Hx. induction l as [| y l IH]; simpl.
  - by rewrite filter_cons_False.
  - destruct (Qleb (key y) (key x)).
    + by rewrite (filter_cons_False _ x).
    + rewrite !filter_cons, IH. reflexivity.
Qed.

Lemma filter_insert_desc_in (x : A) (l : list A) :
  StronglySorted (desc key) l -> P x ->
  filter P (insert_desc key x l) = insert_desc key x (filter P l).
Proof.
  intros Hs Hx. induction Hs as [| y l Hs IH Hall]; simpl.
  - by rewrite filter_cons_True.
  - destruct (Qleb (key y) (key x)) eqn:E.
    + rewrite (filter_cons_True _ x) by done.
      symmetry. apply insert_desc_front.
      apply Qleb_spec in E. apply Forall_filter_keep.
      constructor; [exact E |].
      eapply Forall_impl; [exact Hall |]. unfold desc. intros z Hz. simpl in *. lra.
    + rewrite !filter_cons. destruct (decide (P y)); simpl.
      * by rewrite E, IH.
      * exact IH.
Qed.

(** Sorting and selecting commute, the sort being stable. *)
Lemma filter_sort_desc (l : list A) :
  filter P (sort_desc key l) = sort_desc key (filter P l).
Proof.
  induction l as [| x l IH]; simpl; [reflexivity |].
  rewrite filter_cons. destruct (decide (P x)) as [Hx | Hx]; simpl.
  - rewrite filter_insert_desc_in by (apply sort_desc_sorted || done). by rewrite IH.
  - rewrite filter_insert_desc_out by done. exact IH.
Qed.

End Filter.
End SortDesc.

(** ** Configuration: [buildConfig] and [applyResponsiveSettings] *)

Section Configuration.
Import Config.

Lemma assign_empty (m : gmap string value) : assign ∅ m = m.
Proof. unfold assign. apply (right_id _ _). Qed.

Lemma lookup_assign (target source : gmap string value) (k : string) :
  assign target source !! k =
    match source !! k with
    | Some v => Some v
    | None => target !! k
    end.
Proof.
  unfold assign. rewrite lookup_union.
  destruct (source !! k), (target !! k); reflexivity.
Qed.

(** The guarded loop applies exactly the matching breakpoints. *)
Lemma cascade_filter (width : Q) (l : list Breakpoint) (m : gmap string value) :
  foldl (apply_breakpoint width) m l =
  foldl (fun cur bp => assign cur (VPrim <$> settings bp)) m
        (filter (fun bp => Qleb width (breakpoint bp) = true) l).
Proof.
  revert m. induction l as [| bp l IH]; intros m; simpl; [reflexivity |].
  rewrite filter_cons. unfold apply_breakpoint at 2.
  destruct (decide (Qleb width (breakpoint bp) = true)) as [E | E].
  - rewrite E. simpl. apply IH.
  - apply not_true_is_false in E. rewrite E. apply IH.
Qed.

(** What a cascade leaves under a key depends on the options only through
    that key. *)
Lemma cascade_lookup (l : list Breakpoint) (m m' : gmap string value) (k : string) :
  m !! k = m' !! k ->
  foldl (fun cur bp => assign cur (VPrim <$> settings bp)) m l !! k =
  foldl (fun cur bp => assign cur (VPrim <$> settings bp)) m' l !! k.
Proof.
  revert m m'. induction l as [| bp l IH]; intros m m' H; simpl; [exact H |].
  apply IH. rewrite !lookup_assign, H. reflexivity.
Qed.

End Configuration.

(** C4.  For an options object with a breakpoint list and every viewport
    width [W], the cascade of [applyResponsiveSettings] returns exactly the
    options obtained by applying, in descending threshold order, only the
    breakpoints whose threshold is at least [W]; the breakpoints below [W]
    have no influence: replacing the list by one with the same breakpoints
    at or above [W] changes no property of the result besides
    [responsive], which holds the list itself. *)
Theorem applyResponsiveSettings_cascade
    (W : Q) (options : gmap string Config.value) (bps : list Config.Breakpoint) :
  options !! "responsive" = Some (Config.VResponsive bps) ->
  Config.applyResponsiveSettings W options = Ok (fold_matching W options bps) /\
  (forall bps' k,
      filter (fun bp => Qleb W (Config.breakpoint bp) = true) bps' =
      filter (fun bp => Qleb W (Config.breakpoint bp) = true) bps ->
      k <> "responsive" ->
      exists r',
        Config.applyResponsiveSettings W
          (<["responsive" := Config.VResponsive bps']> options) = Ok r' /\
        r' !! k = fold_matching W options bps !! k).
Proof.
  intros Hresp. split.
  - unfold Config.applyResponsiveSettings, fold_matching.
    rewrite Hresp, assign_empty, cascade_filter, filter_sort_desc. reflexivity.
  - intros bps' k Hsame Hk. eexists. split.
    + unfold Config.applyResponsiveSettings.
      rewrite lookup_insert_eq, assign_empty, cascade_filter, filter_sort_desc.
      reflexivity.
    + rewrite Hsame. unfold fold_matching.
      apply cascade_lookup. by rewrite lookup_insert_ne.
Qed.

Lemma applyResponsiveSettings_cascade_witness :
  exists r,
    Config.applyResponsiveSettings 800 Config.DEFAULT_CONFIG = Ok r /\
    r !! "slidesToShow" = Some (Config.vnum 2).
Proof.
  destruct (applyResponsiveSettings_cascade 800 Config.DEFAULT_CONFIG _ eq_refl)
    as [H _].
  eexists. split; [exact H |]. vm_compute. reflexivity.
Defined.

Section BuildConfig.
Import Config.
Variable JSON_parse : string -> option (gmap string value).

Lemma assign_nothing (m : gmap string value) : assign m ∅ = m.
Proof. unfold assign. apply (left_id _ _). Qed.

(** An absent or empty attribute is skipped: nothing is parsed and nothing
    is reported. *)
Lemma buildConfig_no_attribute (container : option Container)
    (passedOptions : gmap string value) :
  (forall c, container = Some c -> sliderConfig c = None \/ sliderConfig c = Some "") ->
  buildConfig JSON_parse container passedOptions = (defaults_with passedOptions, []).
Proof.
  intros H. unfold buildConfig, defaults_with.
  generalize DEFAULT_CONFIG. intros defaults.
  destruct container as [c |]; [| by rewrite assign_nothing].
  destruct (H c eq_refl) as [E | E]; rewrite E; simpl; by rewrite assign_nothing.
Qed.



End BuildConfig.



(** ** Teleporting: [handleInfiniteScroll] and [seamlessJump] *)

Section Teleport.
Import InfiniteScroll.
Local Open Scope Q_scope.

Lemma seamlessJump_fields (x : Q) (c : Context) :
  scrollLeft (seamlessJump x c) = x /\
  scrollBehavior (seamlessJump x c) = "auto" /\
  timers (seamlessJump x c) =
    <[nextTimer c := mkTimer 10 false (RestoreScrollBehavior (scrollBehavior c))]>
      (timers c).
Proof. repeat split. Qed.

(** Running the timer of a jump puts the scroll behaviour back. *)
Lemma seamlessJump_restores (x : Q) (c : Context) :
  exists c'',
    fireTimer run (nextTimer c) (seamlessJump x c) = Ok c'' /\
    scrollBehavior c'' =
      (if String.eqb (scrollBehavior c) "" then "smooth" else scrollBehavior c) /\
    scrollLeft c'' = x.
Proof.
  eexists. unfold fireTimer.
  rewrite (proj2 (proj2 (seamlessJump_fields x c))), lookup_insert_eq. simpl.
  split; [reflexivity |]. split; [| reflexivity].
  unfold restoreScrollBehavior, truthy. simpl.
  destruct (String.eqb (scrollBehavior c) ""); reflexivity.
Qed.

End Teleport.

(** C1.  Once the setup of an infinite slider has completed,
    [handleInfiniteScroll] moves an offset that is at most two slide
    widths (each with its gap) from the left end forward by exactly one
    cycle [totalSlides * (slideWidth + gap)], moves an offset at or beyond the
    right boundary back by exactly one cycle, and leaves an offset strictly
    between the two boundaries alone (nothing of the instance changes).
    A move sets the scroll behaviour to ['auto'] and schedules a timer
    that, when it runs, puts back the behaviour that was there (['smooth']
    when none was set) without touching the offset. *)
Theorem handleInfiniteScroll_teleports (c : Context) (first : Slide) (rest : list Slide) :
  infiniteScrollSetup c = true ->
  slides c = first :: rest ->
  let slideWidth := (offsetWidth first + gap (currentOptions c))%Q in
  let cycle := (inject_Z (totalSlides c) * slideWidth)%Q in
  let leftBoundary := (slideWidth * 2)%Q in
  let rightBoundary :=
    (fun p => p - slideWidth * 2)%Q
      <$> nthZ (slidePositions c) (initialCloneCount c + totalSlides c) in
  let jumped (direction : Z) (c' : Context) :=
    (scrollLeft c' == scrollLeft c + inject_Z direction * cycle)%Q /\
    scrollBehavior c' = "auto" /\
    exists id c'',
      timers c' !! id =
        Some (mkTimer 10 false (RestoreScrollBehavior (scrollBehavior c))) /\
      fireTimer InfiniteScroll.run id c' = Ok c'' /\
      scrollBehavior c'' =
        (if String.eqb (scrollBehavior c) "" then "smooth" else scrollBehavior c) /\
      scrollLeft c'' = scrollLeft c' in
  exists c',
    InfiniteScroll.handleInfiniteScroll c = Ok c' /\
    ((scrollLeft c <= leftBoundary)%Q -> jumped 1%Z c') /\
    (forall rb, rightBoundary = Some rb ->
                (leftBoundary < scrollLeft c)%Q -> (rb <= scrollLeft c)%Q ->
                jumped (-1)%Z c') /\
    (forall rb, rightBoundary = Some rb ->
                (leftBoundary < scrollLeft c)%Q -> (scrollLeft c < rb)%Q ->
                c' = c).
Proof.
  intros Hsetup Hslides slideWidth cycle leftBoundary rightBoundary jumped.
  assert (Hjump : forall (d : Z) (x : Q),
             (x == scrollLeft c + inject_Z d * cycle)%Q ->
             jumped d (InfiniteScroll.seamlessJump x c)).
  { intros d x Hx. split; [exact Hx |]. split; [reflexivity |].
    destruct (seamlessJump_restores x c) as (c'' & Hfire & Hb & Hl).
    exists (nextTimer c), c''. repeat split; try assumption.
    rewrite (proj2 (proj2 (seamlessJump_fields x c))). apply lookup_insert_eq. }
  unfold InfiniteScroll.handleInfiniteScroll.
  rewrite Hsetup, Hslides. simpl.
  fold slideWidth. fold cycle. subst leftBoundary rightBoundary.
  destruct (Qleb (scrollLeft c) (slideWidth * 2)) eqn:El.
  - apply Qleb_spec in El. eexists. split; [reflexivity |]. split; [| split].
    + intros _. apply Hjump. unfold cycle. simpl. ring.
    + intros rb _ Hlt _. exfalso. lra.
    + intros rb _ Hlt _. exfalso. lra.
  - apply Qleb_false in El.
    destruct (nthZ (slidePositions c) (initialCloneCount c + totalSlides c))
      as [p |]; simpl.
    + destruct (Qleb (p - slideWidth * 2) (scrollLeft c)) eqn:Eb.
      * apply Qleb_spec in Eb. eexists. split; [reflexivity |]. split; [| split].
        -- intros Hle. exfalso. lra.
        -- intros rb' _ _ _. apply Hjump. unfold cycle. simpl. ring.
        -- intros rb' [= <-] _ Hlt. exfalso. lra.
      * apply Qleb_false in Eb. eexists. split; [reflexivity |]. split; [| split].
        -- intros Hle. exfalso. lra.
        -- intros rb' [= <-] _ Hle. exfalso. lra.
        -- reflexivity.
    + eexists. split; [reflexivity |]. split; [| split].
      * intros Hle. exfalso. lra.
      * intros rb' [=].
      * reflexivity.
Qed.

Lemma handleInfiniteScroll_teleports_witness :
  exists c c',
    infiniteNearLeftEnd = Ok c /\
    InfiniteScroll.handleInfiniteScroll c = Ok c' /\
    (scrollLeft c' == 100 + 5 * (282 + 24))%Q /\
    scrollBehavior c' = "auto".
Proof.
  assert (H : exists c first rest,
             infiniteNearLeftEnd = Ok c /\ infiniteScrollSetup c = true /\
             slides c = first :: rest /\ offsetWidth first = 282%Q /\
             gap (currentOptions c) = 24%Q /\ totalSlides c = 5%Z /\
             scrollLeft c = 100%Q).
  { do 3 eexists. vm_compute. repeat split. }
  destruct H as (c & first & rest & Hc & Hsetup & Hslides & Hw & Hg & Ht & Hl).
  destruct (handleInfiniteScroll_teleports c first rest Hsetup Hslides)
    as (c' & Hrun & Hleft & _).
  exists c, c'. split; [exact Hc |]. split; [exact Hrun |].
  rewrite Hw, Hg, Ht, Hl in Hleft.
  destruct Hleft as (Hpos & Hauto & _); [vm_compute; discriminate |].
  split; [| exact Hauto]. rewrite Hpos. vm_compute. reflexivity.
Defined.

(** ** Navigation: [goToSlide], [next] and [prev] *)

Section NavigationFacts.
Import Navigation.
Local Open Scope Z_scope.

(** The offset that [goToSlide] asks for. *)
Lemma goToSlide_in_range (c : Context) (index : Z) (first : Slide) (rest : list Slide) :
  infinite (currentOptions c) = false ->
  0 <= index < totalSlides c ->
  slides c = first :: rest ->
  let o := currentOptions c in
  let position :=
    if bounceBack o then nthZ (slidePositions c) (Z.max (slidesToShow o) 2 + index)
    else nthZ (slidePositions c) index in
  let containerInnerWidth :=
    (containerOffsetWidth c - containerPaddingLeft c - containerPaddingRight c)%Q in
  let target :=
    if centerMode o then
      (fun p => p - containerInnerWidth / 2 + offsetWidth first / 2
                - containerPaddingLeft c)%Q <$> position
    else position in
  goToSlide index c = Ok (set_currentSlide index (scrollTo target c)).
Proof.
  intros Hinf [Hlo Hhi] Hslides o position inner target.
  subst o position inner target. unfold goToSlide. rewrite Hinf.
  destruct (index <? 0) eqn:E1; [apply Z.ltb_lt in E1; lia |].
  destruct (totalSlides c <=? index) eqn:E2; [apply Z.leb_le in E2; lia |].
  simpl. destruct (centerMode (currentOptions c)).
  - rewrite Hslides. simpl.
    destruct (bounceBack (currentOptions c)); destruct (nthZ _ _); reflexivity.
  - reflexivity.
Qed.

Lemma goToSlide_rejects (c : Context) (index : Z) :
  infinite (currentOptions c) = true \/ index < 0 \/ totalSlides c <= index ->
  goToSlide index c = Ok c.
Proof.
  intros H. unfold goToSlide.
  destruct (infinite (currentOptions c)); [reflexivity |].
  destruct H as [H | [H | H]]; [discriminate | |].
  - apply Z.ltb_lt in H. by rewrite H.
  - apply Z.leb_le in H. rewrite H. by rewrite orb_true_r.
Qed.

(** In the non-infinite modes [goToSlide] always returns when the instance
    has a slide, and the current index is then the requested one or the
    old one. *)
Lemma goToSlide_index (c : Context) (index : Z) :
  infinite (currentOptions c) = false -> slides c <> [] ->
  exists c',
    goToSlide index c = Ok c' /\
    currentSlide c' =
      (if (0 <=? index) && (index <? totalSlides c) then index else currentSlide c).
Proof.
  intros Hinf Hne.
  destruct (slides c) as [| first rest] eqn:Hslides; [done |].
  destruct (Z.leb_spec 0 index); destruct (Z.ltb_spec index (totalSlides c)); simpl.
  - eexists. split; [by eapply goToSlide_in_range | reflexivity].
  - exists c. split; [apply goToSlide_rejects; lia | reflexivity].
  - exists c. split; [apply goToSlide_rejects; lia | reflexivity].
  - exists c. split; [apply goToSlide_rejects; lia | reflexivity].
Qed.

End NavigationFacts.

(** C7.  [goToSlide] does nothing in infinite mode.  In the other modes an
    index below [0] or at least [totalSlides] makes it return normally
    with the instance untouched: no scroll is requested and no field
    changes.  For an index in range (of an instance whose [totalSlides]
    counts its slides) it returns the instance with exactly two changes:
    a smooth scroll request to the recorded position of the slide (the
    entry after the leading clones in bounce mode), shifted for centering
    when [centerMode] is on, and [currentSlide] set to the index. *)
Theorem goToSlide_spec (c : Context) (index : Z) :
  (infinite (currentOptions c) = true -> Navigation.goToSlide index c = Ok c) /\
  (infinite (currentOptions c) = false ->
   (index < 0 \/ totalSlides c <= index)%Z ->
   Navigation.goToSlide index c = Ok c) /\
  (infinite (currentOptions c) = false ->
   (0 <= index < totalSlides c)%Z ->
   totalSlides c = Z.of_nat (length (slides c)) ->
   let o := currentOptions c in
   let position :=
     if bounceBack o then nthZ (slidePositions c) (Z.max (slidesToShow o) 2 + index)
     else nthZ (slidePositions c) index in
   let containerInnerWidth :=
     (containerOffsetWidth c - containerPaddingLeft c - containerPaddingRight c)%Q in
   exists first rest target c',
     slides c = first :: rest /\
     target =
       (if centerMode o then
          (fun p => p - containerInnerWidth / 2 + offsetWidth first / 2
                    - containerPaddingLeft c)%Q <$> position
        else position) /\
     Navigation.goToSlide index c = Ok c' /\
     c' = set_currentSlide index (scrollTo target c) /\
     scrollRequests c' = scrollRequests c ++ [mkScrollRequest target true] /\
     currentSlide c' = index).
Proof.
  split; [| split].
  - intros H. apply goToSlide_rejects. by left.
  - intros _ H. apply goToSlide_rejects. by right.
  - intros Hinf Hrange Htotal o position inner.
    destruct (slides c) as [| first rest] eqn:Hslides; [simpl in Htotal; lia |].
    exists first, rest. do 2 eexists. split; [reflexivity |]. split; [reflexivity |].
    split; [by apply (goToSlide_in_range c index first rest) |].
    repeat split.
Qed.

Lemma goToSlide_spec_witness :
  exists c',
    Navigation.goToSlide 2 plainFive = Ok c' /\
    scrollRequests c' = [mkScrollRequest (Some 648%Q) true] /\
    currentSlide c' = 2%Z.
Proof.
  destruct (proj2 (proj2 (goToSlide_spec plainFive 2)) eq_refl)
    as (first & rest & target & c' & Hs & Ht & Hgo & _ & Hreq & Hcur);
    [vm_compute; split; [discriminate | reflexivity] | reflexivity |].
  exists c'. split; [exact Hgo |]. split; [| exact Hcur].
  rewrite Hreq, Ht. reflexivity.
Defined.

Section PlainAndBounce.
Import Navigation.
Local Open Scope Z_scope.

(** The index that [next] passes to [goToSlide] outside infinite mode. *)
Lemma next_request (c : Context) :
  infinite (currentOptions c) = false ->
  let o := currentOptions c in
  let actual :=
    Utils.getActualSlidesToShow (containerOffsetWidth c) (offsetWidth <$> slides c)
      (gap o) (slidesToShow o) in
  next c =
    goToSlide
      (if bounceBack o then Z.rem (currentSlide c + slidesToScroll o) (totalSlides c)
       else Z.min (currentSlide c + slidesToScroll o) (totalSlides c - actual)) c.
Proof. intros Hinf. unfold next. by rewrite Hinf. Qed.

Lemma prev_request (c : Context) :
  infinite (currentOptions c) = false ->
  let o := currentOptions c in
  prev c =
    goToSlide
      (if bounceBack o then
         if currentSlide c - slidesToScroll o <? 0
         then totalSlides c + (currentSlide c - slidesToScroll o)
         else currentSlide c - slidesToScroll o
       else Z.max (currentSlide c - slidesToScroll o) 0) c.
Proof. intros Hinf. unfold prev. by rewrite Hinf. Qed.

End PlainAndBounce.




(** C6.  In every bounce-mode slider [next] asks [goToSlide] for the index
    [(currentSlide + slidesToScroll) % totalSlides] and [prev] for
    [currentSlide - slidesToScroll], with [totalSlides] added when that is
    negative.  From the index of a real slide and with a non-negative
    [slidesToScroll], both return; [next] leaves the index
    [(currentSlide + slidesToScroll) mod totalSlides], and [prev] leaves
    [currentSlide - slidesToScroll] when that is not negative, and that
    number plus [totalSlides] when it is negative and the sum is not.
    With four items and [slidesToScroll = 1], [prev] from index 0 leaves
    index 3. *)
Theorem bounce_next_prev_wrap :
  (forall c : Context,
      infinite (currentOptions c) = false ->
      bounceBack (currentOptions c) = true ->
      let o := currentOptions c in
      let back := (currentSlide c - slidesToScroll o)%Z in
      (Navigation.next c =
         Navigation.goToSlide
           (Z.rem (currentSlide c + slidesToScroll o) (totalSlides c)) c /\
       Navigation.prev c =
         Navigation.goToSlide
           (if (back <? 0)%Z then (totalSlides c + back)%Z else back) c) /\
      (slides c <> [] ->
       (0 <= slidesToScroll o)%Z ->
       (0 <= currentSlide c < totalSlides c)%Z ->
       exists c1 c2,
         Navigation.next c = Ok c1 /\ Navigation.prev c = Ok c2 /\
         currentSlide c1 = ((currentSlide c + slidesToScroll o) mod totalSlides c)%Z /\
         ((0 <= back)%Z -> currentSlide c2 = back) /\
         ((back < 0)%Z -> (0 <= totalSlides c + back)%Z ->
          currentSlide c2 = (totalSlides c + back)%Z))) /\
  (exists c c',
      bounceFour = Ok c /\ totalSlides c = 4%Z /\ currentSlide c = 0%Z /\
      slidesToScroll (currentOptions c) = 1%Z /\
      Navigation.prev c = Ok c' /\ currentSlide c' = 3%Z).
Proof.
  split.
  - intros c Hinf Hbounce o back.
    pose proof (next_request c Hinf) as Hn. pose proof (prev_request c Hinf) as Hp.
    cbv zeta in Hn, Hp. rewrite Hbounce in Hn, Hp. fold o in Hn, Hp. fold back in Hp.
    split; [by split |].
    intros Hne Hscroll Hcur.
    destruct (goToSlide_index c
                (Z.rem (currentSlide c + slidesToScroll o) (totalSlides c)) Hinf Hne)
      as (c1 & Hnext & H1).
    destruct (goToSlide_index c
                (if (back <? 0)%Z then (totalSlides c + back)%Z else back) Hinf Hne)
      as (c2 & Hprev & H2).
    exists c1, c2. rewrite Hn, Hp.
    split; [exact Hnext |]. split; [exact Hprev |].
    rewrite H1, H2. clear Hnext Hprev H1 H2 Hn Hp.
    rewrite Z.rem_mod_nonneg by lia.
    pose proof (Z.mod_pos_bound (currentSlide c + slidesToScroll o) (totalSlides c)
                  ltac:(lia)) as Hmod.
    subst back.
    repeat match goal with
           | |- context [Z.leb ?a ?b] => destruct (Z.leb_spec a b)
           | |- context [Z.ltb ?a ?b] => destruct (Z.ltb_spec a b)
           end; simpl; try lia.
  - do 2 eexists.
    split; [vm_compute; reflexivity |].
    do 3 (split; [reflexivity |]).
    split; [vm_compute; reflexivity | reflexivity].
Qed.

Lemma bounce_next_prev_wrap_witness :
  exists c c1 c2,
    bounceFour = Ok c /\
    Navigation.next c = Ok c1 /\ Navigation.prev c = Ok c2 /\
    currentSlide c1 = 1%Z /\ currentSlide c2 = 3%Z.
Proof.
  assert (H : exists c, bounceFour = Ok c /\
                        infinite (currentOptions c) = false /\
                        bounceBack (currentOptions c) = true /\
                        slides c <> [] /\
                        slidesToScroll (currentOptions c) = 1%Z /\
                        currentSlide c = 0%Z /\ totalSlides c = 4%Z).
  { eexists. vm_compute. repeat split. discriminate. }
  destruct H as (c & Hc & Hinf & Hb & Hne & Hs & Hcur & Ht).
  destruct (proj2 (proj1 bounce_next_prev_wrap c Hinf Hb) Hne)
    as (c1 & c2 & Hn & Hp & H1 & _ & H2); [lia | lia |].
  exists c, c1, c2. split; [exact Hc |]. split; [exact Hn |]. split; [exact Hp |].
  rewrite H1, H2, Hs, Hcur, Ht by lia. split; reflexivity.
Defined.

(** ** Teardown: [destroy] *)

(** What [destroy] does: it deletes the autoplay interval and the two
    timeouts of the scroll listener from the pending timers, and removes
    the clones of infinite mode from the strip. *)
Lemma destroy_effect (c : Context) :
  let ids := [autoplayInterval c; scrollTimeout c; infiniteScrollTimeout c] in
  (forall id, Some id ∈ ids -> timers (Slider.destroy c) !! id = None) /\
  (forall id, Some id ∉ ids -> timers (Slider.destroy c) !! id = timers c !! id) /\
  trackChildren (Slider.destroy c) =
    filter (fun s => cls s ≠ InfiniteClone) (trackChildren c).
Proof.
  intros ids. subst ids.
  assert (Ht : timers (Slider.destroy c) =
               clearTimerMap (infiniteScrollTimeout c)
                 (clearTimerMap (scrollTimeout c)
                    (clearTimerMap (autoplayInterval c) (timers c)))).
  { unfold Slider.destroy, Slider.stopAutoplay, clearTimer, clearTimerMap.
    destruct (autoplayInterval c); cbn;
      destruct (scrollTimeout c); cbn;
      destruct (infiniteScrollTimeout c); reflexivity. }
  split; [| split].
  - intros id Hid. rewrite Ht. unfold clearTimerMap.
    rewrite !elem_of_cons in Hid.
    destruct (autoplayInterval c) as [a |], (scrollTimeout c) as [b |],
             (infiniteScrollTimeout c) as [d |];
      rewrite ?lookup_delete; repeat case_decide; try reflexivity;
      destruct Hid as [Hid | [Hid | [Hid | Hid]]];
      try (inversion Hid; fail); try congruence.
  - intros id Hid. rewrite Ht. unfold clearTimerMap.
    rewrite !not_elem_of_cons in Hid. destruct Hid as (H1 & H2 & H3 & _).
    destruct (autoplayInterval c) as [a |], (scrollTimeout c) as [b |],
             (infiniteScrollTimeout c) as [d |];
      rewrite ?lookup_delete; repeat case_decide; try reflexivity; congruence.
  - unfold Slider.destroy, Slider.stopAutoplay, clearTimer.
    destruct (autoplayInterval c); cbn;
      destruct (scrollTimeout c); cbn;
      destruct (infiniteScrollTimeout c); reflexivity.
Qed.

(** The strip that [destroy] leaves is the one that the helper
    [removeClonedSlides] gives for the clones of infinite mode; asked for
    the bounce clones as well, the helper leaves the real items only. *)
Lemma destroy_strip (c : Context) :
  Some (trackChildren (Slider.destroy c)) =
    Dom.removeClonedSlides (Some (trackChildren c)) InfiniteClone.
Proof. by rewrite (proj2 (proj2 (destroy_effect c))). Qed.

Lemma removeClonedSlides_both (l : list Slide) :
  exists l',
    Dom.removeClonedSlides (Dom.removeClonedSlides (Some l) InfiniteClone) BounceClone
      = Some l' /\
    Forall (fun s => cls s = RealSlide) l'.
Proof.
  eexists. split; [reflexivity |].
  apply Forall_forall. intros s Hs.
  apply list_elem_of_filter in Hs as [H1 Hs].
  apply list_elem_of_filter in Hs as [H2 _].
  destruct (cls s); congruence.
Qed.

(** C10 fails on the code.  A bounce-back slider with autoplay is set up,
    hovered and left, and destroyed before the resumption is due.  After
    [destroy] the strip still holds its four bounce clones, the timeout of
    [resumeAutoplay] is still pending, and when it runs it starts a new
    autoplay interval on the destroyed instance. *)
Theorem destroy_leaves_bounce_clones_and_timers :
  exists c d d',
    bounceHovered = Ok c /\ d = Slider.destroy c /\
    countClass BounceClone (trackChildren d) = 4 /\
    cls <$> trackChildren d =
      [BounceClone; BounceClone; RealSlide; RealSlide; RealSlide; RealSlide;
       BounceClone; BounceClone] /\
    timers d !! 3 = Some (mkTimer 1000 false ResumeAutoplay) /\
    fireTimer Slider.run 3 d = Ok d' /\
    autoplayInterval d' = Some 4 /\
    timers d' !! 4 = Some (mkTimer 3000 true AutoplayTick).
Proof.
  do 3 eexists.
  split; [vm_compute; reflexivity |].
  split; [reflexivity |].
  do 3 (split; [vm_compute; reflexivity |]).
  split; [vm_compute; reflexivity |].
  split; vm_compute; reflexivity.
Qed.

(** ** Clone maintenance of the dynamic infinite mode *)

Lemma for_each_counted {S : Type} (P : nat -> S -> Prop) (idx : list Z)
    (body : Z -> S -> result S) (s s' : S) :
  P 0 s ->
  (forall k i s1 s2, P k s1 -> body i s1 = Ok s2 -> P (Datatypes.S k) s2) ->
  for_each idx body s = Ok s' ->
  P (length idx) s'.
Proof.
  intros H0 Hstep. revert s H0.
  assert (G : forall k s, P k s -> for_each idx body s = Ok s' -> P (k + length idx) s').
  { induction idx as [| i idx IH]; intros k s Hk Hrun; simpl in *.
    - inversion Hrun; subst. by rewrite Nat.add_0_r.
    - destruct (body i s) as [s1 |] eqn:Hb; simpl in Hrun; [| discriminate].
      replace (k + Datatypes.S (length idx)) with (Datatypes.S k + length idx) by lia.
      eapply IH; [eapply Hstep; eassumption | exact Hrun]. }
  intros s H0 Hrun. exact (G 0 s H0 Hrun).
Qed.

Lemma length_range (lo hi : Z) : length (range lo hi) = Z.to_nat (hi - lo).
Proof. unfold range. by rewrite length_fmap, length_seq. Qed.

Section CloneCount.
Import SliderDynamic.

Lemma countClass_app (k : slideClass) (l1 l2 : list Slide) :
  countClass k (l1 ++ l2) = countClass k l1 + countClass k l2.
Proof. unfold countClass. by rewrite filter_app, length_app. Qed.

Lemma countClass_sublist (k : slideClass) (l1 l2 : list Slide) :
  sublist l1 l2 -> countClass k l1 <= countClass k l2.
Proof.
  intros H. unfold countClass. apply sublist_length.
  induction H as [| x l1 l2 H IH | x l1 l2 H IH]; [constructor | |].
  - rewrite !filter_cons. destruct (decide (cls x = k)); [by constructor | exact IH].
  - rewrite filter_cons. destruct (decide (cls x = k)); [by constructor | exact IH].
Qed.

Lemma grown_refl (c : Context) :
  Forall (fun s => cls s ≠ BounceClone) (trackChildren c) -> grown 0 c c.
Proof. intros H. repeat split; [exact H | lia]. Qed.

Lemma grown_clone_appended (k : nat) (c c1 : Context) (i : Z) (s : Slide) :
  grown k c c1 ->
  grown (S k) c (appendChild (withOriginalIndex i (cloneAs InfiniteClone s)) c1).
Proof.
  intros (Ht & Hs & Ho & Hb & Hn). repeat split; simpl; try assumption.
  - apply Forall_app. split; [exact Hb |]. by repeat constructor.
  - rewrite countClass_app, Hn. unfold countClass at 2. simpl. lia.
Qed.

Lemma grown_clone_inserted (k : nat) (c c1 : Context) (i : Z) (s : Slide) :
  grown k c c1 ->
  grown (S k) c (insertFirst (withOriginalIndex i (cloneAs InfiniteClone s)) c1).
Proof.
  intros (Ht & Hs & Ho & Hb & Hn). repeat split; simpl; try assumption.
  - by constructor.
  - unfold countClass in *. rewrite filter_cons_True by done. simpl. lia.
Qed.

Lemma addClonesAtEnd_grown (c c' : Context) :
  Forall (fun s => cls s ≠ BounceClone) (trackChildren c) ->
  addClonesAtEnd c = Ok c' ->
  grown (Z.to_nat (totalSlides c)) c c'.
Proof.
  intros Hb. unfold addClonesAtEnd.
  destruct (for_each _ _ c) as [c1 |] eqn:Hloop; simpl; [| discriminate].
  intros [= <-].
  apply (for_each_counted (fun k c1 => grown k c c1)) in Hloop.
  - rewrite length_range, Z.sub_0_r in Hloop. exact Hloop.
  - by apply grown_refl.
  - intros k i s1 s2 Hk. destruct (nthZ (slides s1) i); [| discriminate].
    intros [= <-]. by apply grown_clone_appended.
Qed.

Lemma addClonesAtStart_grown (c c' : Context) :
  Forall (fun s => cls s ≠ BounceClone) (trackChildren c) ->
  addClonesAtStart c = Ok c' ->
  grown (Z.to_nat (totalSlides c)) c c'.
Proof.
  intros Hb. unfold addClonesAtStart.
  destruct (for_each _ _ (c, 0%Q)) as [[c1 w] |] eqn:Hloop; simpl; [| discriminate].
  intros [= <-].
  apply (for_each_counted (fun k (r : Context * Q) => grown k c r.1)) in Hloop.
  - rewrite length_reverse, length_range, Z.sub_0_r in Hloop. exact Hloop.
  - by apply grown_refl.
  - intros k i [s1 w1] s2 Hk. simpl in Hk.
    destruct (nthZ (slides s1) i); [| discriminate].
    intros [= <-]. by apply grown_clone_inserted.
Qed.

(** Removing nodes one after the other leaves a sublist of the strip. *)
Lemma removeNode_sublist (t : nat) (strip : list (nat * Slide)) :
  sublist (removeNode t strip) strip.
Proof. apply sublist_filter. Qed.

Lemma nodes_elements (c : Context) : (nodes c).*2 = trackChildren c.
Proof.
  unfold nodes. rewrite fmap_imap.
  rewrite <- (list_fmap_id (trackChildren c)) at 2. apply (imap_const id).
Qed.

End CloneCount.

Section Cleanup.
Import SliderDynamic.

Lemma foldl_sublist {A B : Type}
    (step : list (nat * Slide) * B -> A -> list (nat * Slide) * B)
    (l : list A) (acc : list (nat * Slide) * B) :
  (forall acc x, sublist (step acc x).1 acc.1) ->
  sublist (foldl step acc l).1 acc.1.
Proof.
  intros Hstep. revert acc. induction l as [| x l IH]; intros acc; simpl.
  - reflexivity.
  - etransitivity; [apply IH | apply Hstep].
Qed.

Lemma Forall_sublist_keep {A : Type} (P : A -> Prop) (l1 l2 : list A) :
  sublist l1 l2 -> Forall P l2 -> Forall P l1.
Proof.
  induction 1 as [| x l1 l2 H IH | x l1 l2 H IH]; intros Hall.
  - constructor.
  - inversion Hall; subst. constructor; auto.
  - inversion Hall; subst. auto.
Qed.

Lemma shrunk_sublist (c c' : Context) :
  Forall (fun s => cls s ≠ BounceClone) (trackChildren c) ->
  totalSlides c' = totalSlides c -> slides c' = slides c ->
  currentOptions c' = currentOptions c ->
  sublist (trackChildren c') (trackChildren c) ->
  shrunk c c'.
Proof.
  intros Hb Ht Hs Ho Hsub. repeat split; try assumption.
  - eapply Forall_sublist_keep; [exact Hsub | exact Hb].
  - by apply countClass_sublist.
Qed.

Lemma cleanupClonesForAutoplay_shrunk (c : Context) :
  Forall (fun s => cls s ≠ BounceClone) (trackChildren c) ->
  shrunk c (cleanupClonesForAutoplay c).
Proof.
  intros Hb. unfold cleanupClonesForAutoplay. cbv zeta.
  destruct (_ <=? _)%Z; [by apply shrunk_sublist |].
  match goal with
  | |- context [foldl ?step ?acc ?l] =>
      pose proof (foldl_sublist step l acc) as Hsub;
      destruct (foldl step acc l) as [strip' adj]
  end.
  simpl in Hsub.
  assert (Hchildren : sublist (strip'.*2) (trackChildren c)).
  { rewrite <- (nodes_elements c). apply fmap_sublist. apply Hsub.
    intros [strip a] x. simpl. apply removeNode_sublist. }
  destruct (Qltb 0 adj); destruct (sort_desc _ _); by apply shrunk_sublist.
Qed.

End Cleanup.

Section Bound.
Import SliderDynamic DynamicRun.
Local Open Scope Z_scope.

Lemma shrunk_bounded (sl : list Slide) (o : Options) (c c' : Context) :
  bounded sl o c -> shrunk c c' -> bounded sl o c'.
Proof.
  intros (Hs & Ht & Ho & Hb & Hn) (Ht' & Hs' & Ho' & Hb' & Hn').
  repeat split; [congruence | congruence | congruence | exact Hb' | lia].
Qed.

Lemma grown_bounded (sl : list Slide) (o : Options) (c c' : Context) :
  bounded sl o c ->
  Z.of_nat (countClass InfiniteClone (trackChildren c)) < totalSlides c * 3 ->
  grown (Z.to_nat (totalSlides c)) c c' ->
  bounded sl o c'.
Proof.
  intros (Hs & Ht & Ho & Hb & Hn) Hlt (Ht' & Hs' & Ho' & Hb' & Hn').
  repeat split; [congruence | congruence | congruence | exact Hb' | lia].
Qed.

Lemma cleanupDistantClones_shrunk (c c' : Context) :
  Forall (fun s => cls s ≠ BounceClone) (trackChildren c) ->
  cleanupDistantClones c = Ok c' ->
  shrunk c c'.
Proof.
  intros Hb. unfold cleanupDistantClones. cbv zeta.
  destruct (autoplay (currentOptions c)).
  { intros [= <-]. by apply cleanupClonesForAutoplay_shrunk. }
  destruct (allSlides c); [| discriminate].
  match goal with
  | |- context [foldl ?step ?acc ?l] =>
      pose proof (foldl_sublist step l acc) as Hsub;
      destruct (foldl step acc l) as [strip' x]
  end.
  simpl in Hsub.
  assert (Hchildren : sublist (strip'.*2) (trackChildren c)).
  { rewrite <- (nodes_elements c). apply fmap_sublist. apply Hsub.
    intros [strip a] y. simpl. apply removeNode_sublist. }
  destruct (take _ _); intros [= <-]; by apply shrunk_sublist.
Qed.

Lemma handleInfiniteScroll_bounded (sl : list Slide) (o : Options) (c c' : Context) :
  bounded sl o c -> handleInfiniteScroll c = Ok c' -> bounded sl o c'.
Proof.
  intros Hc. unfold handleInfiniteScroll. cbv zeta.
  set (r1 := if Qltb _ _ then _ else _).
  assert (H1 : forall c1, r1 = Ok c1 -> bounded sl o c1).
  { intros c1. subst r1. destruct (Qltb _ _); [| by intros [= <-]].
    destruct (Z.ltb_spec (Z.of_nat (countClass InfiniteClone (trackChildren c)))
                (totalSlides c * 3)) as [Hlt | _]; [| by intros [= <-]].
    intros Hadd. pose proof Hc as (_ & _ & _ & Hb & _).
    eapply grown_bounded; [exact Hc | exact Hlt |].
    by apply addClonesAtEnd_grown. }
  destruct r1 as [c1 |]; simpl; [| discriminate].
  specialize (H1 c1 eq_refl).
  set (r2 := if Qltb _ _ then _ else _).
  assert (H2 : forall c2, r2 = Ok c2 -> bounded sl o c2).
  { intros c2. subst r2. destruct (Qltb _ _); [| by intros [= <-]].
    pose proof H1 as (_ & Ht1 & _ & Hb1 & _).
    replace (totalSlides c) with (totalSlides c1)
      by (destruct Hc as (_ & Ht & _); congruence).
    destruct (Z.ltb_spec (Z.of_nat (countClass InfiniteClone (trackChildren c1)))
                (totalSlides c1 * 3)) as [Hlt | _]; [| by intros [= <-]].
    intros Hadd.
    eapply grown_bounded; [exact H1 | exact Hlt |].
    by apply addClonesAtStart_grown. }
  destruct r2 as [c2 |]; simpl; [| discriminate].
  specialize (H2 c2 eq_refl).
  intros Hclean. eapply shrunk_bounded; [exact H2 |].
  apply cleanupDistantClones_shrunk;
    [by destruct H2 as (_ & _ & _ & Hb2 & _) | exact Hclean].
Qed.

Lemma step_bounded (sl : list Slide) (o : Options) (c c' : Context) :
  bounded sl o c -> step c c' -> bounded sl o c'.
Proof.
  intros Hc Hstep. destruct Hstep as [c c' H | c c' H | n c c' H | n c c' H | x c | b c].
  - unfold autoplayTick in H.
    destruct (negb (isScrolling c)); [| by inversion H; subst].
    destruct (slides c); [discriminate |]. inversion H; subst.
    eapply shrunk_bounded; [exact Hc |].
    apply (cleanupClonesForAutoplay_shrunk (scrollTo _ c)).
    by destruct Hc as (_ & _ & _ & Hb & _).
  - unfold handleScrollEnd in H.
    destruct (bounceBack (currentOptions c)).
    + unfold handleBounceBackScroll in H. destruct (slides c) eqn:E; [discriminate |].
      destruct (Qltb _ _); [inversion H; subst; exact Hc |].
      destruct (nthZ _ _); [| inversion H; subst; exact Hc].
      destruct (Qltb _ _); inversion H; subst; exact Hc.
    + destruct (infinite (currentOptions c)); [| by inversion H; subst].
      by eapply handleInfiniteScroll_bounded.
  - unfold initialPosition in H. cbv zeta in H.
    destruct (centerMode _); [destruct (slides _) eqn:E; [discriminate |] |];
      simpl in H; inversion H; subst; exact Hc.
  - unfold bouncePosition in H. cbv zeta in H.
    destruct (centerMode _); [destruct (slides _) eqn:E; [discriminate |] |];
      simpl in H; inversion H; subst; exact Hc.
  - exact Hc.
  - exact Hc.
Qed.

Lemma reachable_bounded (sl : list Slide) (o : Options) (c0 c : Context) :
  bounded sl o c0 -> reachable c0 c -> bounded sl o c.
Proof.
  intros H0. induction 1 as [| c c' _ IH Hstep]; [exact H0 |].
  by eapply step_bounded.
Qed.

(** *** The maintenance returns *)

Lemma for_each_total {S : Type} (I : S -> Prop) (idx : list Z)
    (body : Z -> S -> result S) (s : S) :
  I s ->
  (forall i s, i ∈ idx -> I s -> exists s', body i s = Ok s' /\ I s') ->
  exists s', for_each idx body s = Ok s' /\ I s'.
Proof.
  revert s. induction idx as [| i idx IH]; intros s Hs Hbody; cbn [for_each].
  - by exists s.
  - destruct (Hbody i s) as (s1 & Hrun & Hs1); [by left | exact Hs |].
    rewrite Hrun. cbn [mbind result_bind].
    apply IH; [exact Hs1 |]. intros k s2 Hk. apply Hbody. by right.
Qed.

Lemma real_item_found (sl : list Slide) (T i : Z) :
  T = Z.of_nat (length sl) -> i ∈ range 0 T -> is_Some (nthZ sl i).
Proof.
  intros -> Hi. unfold range in Hi.
  apply list_elem_of_fmap in Hi as (k & -> & Hk). apply elem_of_seq in Hk.
  unfold nthZ. destruct (Z.ltb_spec (0 + Z.of_nat k) 0); [lia |].
  apply lookup_lt_is_Some. lia.
Qed.

Lemma addClonesAtEnd_returns (c : Context) :
  totalSlides c = Z.of_nat (length (slides c)) ->
  exists c', addClonesAtEnd c = Ok c'.
Proof.
  intros Ht. unfold addClonesAtEnd. cbv zeta.
  match goal with
  | |- context [for_each ?idx ?body ?s] =>
      destruct (for_each_total (fun c1 => slides c1 = slides c) idx body s eq_refl)
        as (c1 & Hrun & _)
  end.
  { intros i c1 Hi Hc1. rewrite Hc1.
    destruct (real_item_found (slides c) _ i Ht Hi) as [s Hs]. rewrite Hs.
    eexists. split; [reflexivity | exact Hc1]. }
  rewrite Hrun. by eexists.
Qed.

Lemma addClonesAtStart_returns (c : Context) :
  totalSlides c = Z.of_nat (length (slides c)) ->
  exists c', addClonesAtStart c = Ok c'.
Proof.
  intros Ht. unfold addClonesAtStart. cbv zeta.
  match goal with
  | |- context [for_each ?idx ?body ?s] =>
      destruct (for_each_total (fun r : Context * Q => slides r.1 = slides c)
                  idx body s eq_refl) as ([c1 w] & Hrun & _)
  end.
  { intros i [c1 w] Hi Hc1. simpl in Hc1. rewrite Hc1.
    rewrite elem_of_reverse in Hi.
    destruct (real_item_found (slides c) _ i Ht Hi) as [s Hs]. rewrite Hs.
    eexists. split; [reflexivity | exact Hc1]. }
  rewrite Hrun. by eexists.
Qed.

(** With autoplay on, the clone maintenance of a scroll end and the
    autoplay tick return normally on every instance that has a slide and
    counts its slides. *)
Lemma maintenance_returns (sl : list Slide) (o : Options) (c : Context) :
  bounded sl o c -> sl <> [] -> autoplay o = true ->
  (exists c', autoplayTick c = Ok c') /\ (exists c', handleScrollEnd c = Ok c').
Proof.
  intros Hc Hne Hauto. pose proof Hc as (Hs & Ht & Ho & Hb & _). split.
  - unfold autoplayTick. destruct (negb (isScrolling c)); [| by eexists].
    rewrite Hs. destruct sl; [done | by eexists].
  - unfold handleScrollEnd. destruct (bounceBack (currentOptions c)).
    + unfold handleBounceBackScroll. rewrite Hs. destruct sl; [done |].
      destruct (Qltb _ _); [by eexists |].
      destruct (nthZ _ _); [| by eexists]. destruct (Qltb _ _); by eexists.
    + destruct (infinite (currentOptions c)); [| by eexists].
      unfold handleInfiniteScroll. cbv zeta.
      set (r1 := if Qltb _ _ then _ else _).
      assert (H1 : exists c1, r1 = Ok c1 /\ bounded sl o c1).
      { subst r1. destruct (Qltb _ _); [| by exists c].
        destruct (Z.ltb_spec (Z.of_nat (countClass InfiniteClone (trackChildren c)))
                    (totalSlides c * 3)) as [Hlt | _]; [| by exists c].
        destruct (addClonesAtEnd_returns c) as [c1 Hadd]; [congruence |].
        exists c1. split; [exact Hadd |].
        eapply grown_bounded; [exact Hc | exact Hlt | by apply addClonesAtEnd_grown]. }
      destruct H1 as (c1 & -> & Hc1). cbn [mbind result_bind].
      pose proof Hc1 as (Hs1 & Ht1 & Ho1 & Hb1 & _).
      replace (totalSlides c) with (totalSlides c1) by congruence.
      set (r2 := if Qltb _ _ then _ else _).
      assert (H2 : exists c2, r2 = Ok c2 /\ bounded sl o c2).
      { subst r2. destruct (Qltb _ _); [| by exists c1].
        destruct (Z.ltb_spec (Z.of_nat (countClass InfiniteClone (trackChildren c1)))
                    (totalSlides c1 * 3)) as [Hlt | _]; [| by exists c1].
        destruct (addClonesAtStart_returns c1) as [c2 Hadd]; [congruence |].
        exists c2. split; [exact Hadd |].
        eapply grown_bounded; [exact Hc1 | exact Hlt | by apply addClonesAtStart_grown]. }
      destruct H2 as (c2 & -> & Hc2). cbn [mbind result_bind].
      unfold cleanupDistantClones.
      destruct Hc2 as (_ & _ & Ho2 & _). rewrite Ho2, Hauto. by eexists.
Qed.

End Bound.

Section InitialClones.
Import SliderDynamic.
Local Open Scope Z_scope.

Lemma real_strip_no_clones (l : list Slide) :
  Forall (fun s => cls s = RealSlide) l ->
  Forall (fun s => cls s ≠ BounceClone) l /\ countClass InfiniteClone l = O.
Proof.
  induction 1 as [| s l Hs Hl [IH1 IH2]]; [by split |]. split.
  - constructor; [congruence | exact IH1].
  - unfold countClass in *. rewrite filter_cons_False by congruence. exact IH2.
Qed.

Lemma setupTrueInfinite_grown (c c' : Context) :
  Forall (fun s => cls s ≠ BounceClone) (trackChildren c) ->
  setupTrueInfinite c = Ok c' ->
  grown (Z.to_nat (slidesToShow (currentOptions c) + 1)
         + Z.to_nat (slidesToShow (currentOptions c) + 1)) c c'.
Proof.
  intros Hb. unfold setupTrueInfinite. cbv zeta.
  destruct (for_each _ _ c) as [c1 |] eqn:Hloop1; simpl; [| discriminate].
  destruct (for_each _ _ c1) as [c2 |] eqn:Hloop2; simpl; [| discriminate].
  intros [= <-].
  apply (for_each_counted (fun k c1 => grown k c c1)) in Hloop1.
  - apply (for_each_counted
             (fun k c2 => grown (Z.to_nat (slidesToShow (currentOptions c) + 1) + k) c c2))
      in Hloop2.
    + rewrite length_range, Z.sub_0_r in Hloop2. exact Hloop2.
    + rewrite length_range, Z.sub_0_r in Hloop1. rewrite Nat.add_0_r. exact Hloop1.
    + intros k i s1 s2 Hk. destruct (nthZ (slides s1) _); [| discriminate].
      intros [= <-]. rewrite Nat.add_succ_r. by apply grown_clone_inserted.
  - by apply grown_refl.
  - intros k i s1 s2 Hk. destruct (nthZ (slides s1) _); [| discriminate].
    intros [= <-]. by apply grown_clone_appended.
Qed.

Lemma setupLoopMode_bounded (c c' : Context) :
  infinite (currentOptions c) = true ->
  totalSlides c = Z.of_nat (length (slides c)) ->
  Forall (fun s => cls s = RealSlide) (trackChildren c) ->
  setupLoopMode c = Ok c' ->
  bounded (slides c) (currentOptions c) c'.
Proof.
  intros Hinf Htotal Hreal. apply real_strip_no_clones in Hreal as [Hb Hzero].
  unfold setupLoopMode. rewrite Hinf. simpl.
  destruct (Z.ltb_spec (slidesToShow (currentOptions c)) (totalSlides c)) as [Hlt | _].
  - intros Hsetup. apply setupTrueInfinite_grown in Hsetup; [| exact Hb].
    destruct Hsetup as (Ht & Hs & Ho & Hb' & Hn).
    repeat split; try assumption; [congruence |]. rewrite Hn, Hzero. lia.
  - intros [= <-]. repeat split; [exact Htotal | exact Hb | rewrite Hzero; lia].
Qed.

Lemma clones_are_infinite_clones (l : list Slide) :
  Forall (fun s => cls s ≠ BounceClone) l ->
  length (filter (fun s => isClone s = true) l) = countClass InfiniteClone l.
Proof.
  unfold countClass. induction 1 as [| s l Hs Hl IH]; [reflexivity |].
  rewrite !filter_cons.
  destruct (decide (isClone s = true)) as [H1 | H1],
           (decide (cls s = InfiniteClone)) as [H2 | H2]; simpl;
    first [exact IH | f_equal; exact IH
          | exfalso; unfold isClone in H1; destruct (cls s); congruence].
Qed.

End InitialClones.

(** C2.  An infinite slider with autoplay starts from a strip of its real
    items and sets up its clones (the last step of [setupSlides]).
    Whatever then happens, in any order and any number of times (autoplay
    ticks, each a scroll request followed by [cleanupClonesForAutoplay];
    ends of scrolls with the clone maintenance of [handleInfiniteScroll];
    the positioning timer; moves of the scroll offset), the strip never
    holds more clones than four times the number of real items; and in
    every state so reached the next autoplay tick and the next end of a
    scroll return normally. *)
Theorem autoplay_clone_bound (c0 c1 c : Context) :
  infinite (currentOptions c0) = true ->
  autoplay (currentOptions c0) = true ->
  slides c0 <> [] ->
  totalSlides c0 = Z.of_nat (length (slides c0)) ->
  Forall (fun s => cls s = RealSlide) (trackChildren c0) ->
  SliderDynamic.setupLoopMode c0 = Ok c1 ->
  DynamicRun.reachable c1 c ->
  (Z.of_nat (length (filter (fun s => isClone s = true) (trackChildren c)))
   <= 4 * totalSlides c0)%Z /\
  (exists c', SliderDynamic.autoplayTick c = Ok c') /\
  (exists c', SliderDynamic.handleScrollEnd c = Ok c').
Proof.
  intros Hinf Hauto Hne Htotal Hreal Hsetup Hreach.
  pose proof (setupLoopMode_bounded c0 c1 Hinf Htotal Hreal Hsetup) as H1.
  pose proof (reachable_bounded _ _ c1 c H1 Hreach) as Hc.
  split; [| by eapply maintenance_returns].
  destruct Hc as (_ & _ & _ & Hb & Hn).
  rewrite clones_are_infinite_clones by exact Hb. lia.
Qed.

Lemma autoplay_clone_bound_witness :
  exists c1 c2 c3,
    SliderDynamic.setupLoopMode dynamicAutoplay = Ok c1 /\
    SliderDynamic.autoplayTick c1 = Ok c2 /\
    SliderDynamic.handleScrollEnd (set_scrollLeft 3000 c2) = Ok c3 /\
    (8 <= length (filter (fun s => isClone s = true) (trackChildren c3)))%nat /\
    (Z.of_nat (length (filter (fun s => isClone s = true) (trackChildren c3))) <= 20)%Z.
Proof.
  do 3 eexists.
  do 3 (split; [vm_compute; reflexivity |]).
  split; [vm_compute; lia |].
  refine (proj1 (autoplay_clone_bound dynamicAutoplay _ _ eq_refl eq_refl
                   _ eq_refl _ _ _)).
  - discriminate.
  - vm_compute. repeat constructor.
  - vm_compute. reflexivity.
  - eapply DynamicRun.reachable_step;
      [eapply DynamicRun.reachable_step;
         [eapply DynamicRun.reachable_step; [apply DynamicRun.reachable_start |] |] |].
    + apply DynamicRun.step_tick. vm_compute. reflexivity.
    + apply (DynamicRun.step_scrolled 3000%Q).
    + apply DynamicRun.step_scroll_end. vm_compute. reflexivity.
Defined.

(** The same for the periods of the autoplay one after the other: any
    number of them runs to the end, and the strip it leaves is within the
    bound. *)
Corollary autoplay_rounds_bound (c0 c1 : Context) (n : nat) :
  infinite (currentOptions c0) = true ->
  autoplay (currentOptions c0) = true ->
  slides c0 <> [] ->
  totalSlides c0 = Z.of_nat (length (slides c0)) ->
  Forall (fun s => cls s = RealSlide) (trackChildren c0) ->
  SliderDynamic.setupLoopMode c0 = Ok c1 ->
  exists c,
    DynamicRun.autoplayRounds n c1 = Ok c /\
    (Z.of_nat (length (filter (fun s => isClone s = true) (trackChildren c)))
     <= 4 * totalSlides c0)%Z.
Proof.
  intros Hinf Hauto Hne Htotal Hreal Hsetup.
  pose proof (setupLoopMode_bounded c0 c1 Hinf Htotal Hreal Hsetup) as H1.
  assert (G : forall n c, DynamicRun.reachable c1 c ->
                exists c', DynamicRun.autoplayRounds n c = Ok c' /\
                           DynamicRun.reachable c1 c').
  { clear n. induction n as [| n IH]; intros c Hc; cbn [DynamicRun.autoplayRounds].
    - by exists c.
    - unfold DynamicRun.autoplayRound.
      destruct (maintenance_returns _ _ c (reachable_bounded _ _ c1 c H1 Hc) Hne Hauto)
        as [[c2 Htick] _].
      rewrite Htick. cbn [mbind result_bind].
      assert (Hc2 : DynamicRun.reachable c1 c2)
        by (eapply DynamicRun.reachable_step;
            [exact Hc | by apply DynamicRun.step_tick]).
      assert (Hc3 : DynamicRun.reachable c1 (DynamicRun.settle c2)).
      { unfold DynamicRun.settle. destruct (last _) as [r |]; [| exact Hc2].
        destruct (left r); [| exact Hc2].
        eapply DynamicRun.reachable_step;
          [exact Hc2 | apply DynamicRun.step_scrolled]. }
      destruct (maintenance_returns _ _ _ (reachable_bounded _ _ c1 _ H1 Hc3) Hne Hauto)
        as [_ [c4 Hend]].
      rewrite Hend. cbn [mbind result_bind].
      apply IH. eapply DynamicRun.reachable_step;
        [exact Hc3 | by apply DynamicRun.step_scroll_end]. }
  destruct (G n c1 (DynamicRun.reachable_start c1)) as (c & Hrun & Hc).
  exists c. split; [exact Hrun |].
  destruct (reachable_bounded _ _ c1 c H1 Hc) as (_ & _ & _ & Hb & Hn).
  rewrite clones_are_infinite_clones by exact Hb. lia.
Qed.

(** ** Clone setup: [setupTrueInfinite] and [createClonedSlides] *)

Section CloneSetup.
Local Open Scope Z_scope.

Lemma infiniteCloneOf_copy (sl : list Slide) (j : Z) (x : Slide) :
  infiniteCloneOf sl j = Some x -> copyOf sl j x.
Proof.
  unfold infiniteCloneOf, copyOf. destruct (nthZ sl j) as [s |]; [| discriminate].
  intros [= <-]. exists s. repeat split.
Qed.

Lemma nthZ_in_range {A : Type} (l : list A) (j : Z) :
  0 <= j < Z.of_nat (length l) -> is_Some (nthZ l j).
Proof.
  intros [H0 H1]. unfold nthZ.
  destruct (Z.ltb_spec j 0); [lia |]. apply lookup_lt_is_Some. lia.
Qed.

Lemma lookup_range (lo hi : Z) (k : nat) :
  (k < Z.to_nat (hi - lo))%nat -> range lo hi !! k = Some (lo + Z.of_nat k).
Proof.
  intros H. unfold range. rewrite list_lookup_fmap, lookup_seq_lt by exact H.
  reflexivity.
Qed.

Lemma elem_of_range (lo hi i : Z) : i ∈ range lo hi -> lo <= i < hi.
Proof.
  unfold range. intros H. apply list_elem_of_fmap in H as (k & -> & Hk).
  apply elem_of_seq in Hk. lia.
Qed.

(** A cloning loop that appends: the strip grows to the right by the
    clones, in the order of the loop. *)
Lemma for_each_clone_appended (F : Z -> Z -> Z) (idx : list Z) (c : Context) :
  (forall i, i ∈ idx -> is_Some (nthZ (slides c) (F i (totalSlides c)))) ->
  exists c' xs,
    for_each idx (fun i c =>
      match nthZ (slides c) (F i (totalSlides c)) with
      | Some s =>
          Ok (appendChild (withOriginalIndex (F i (totalSlides c)) (cloneAs InfiniteClone s)) c)
      | None => TypeError
      end) c = Ok c' /\
    sameInstance c c' /\
    trackChildren c' = trackChildren c ++ xs /\
    Forall2 (fun i x => infiniteCloneOf (slides c) (F i (totalSlides c)) = Some x) idx xs.
Proof.
  revert c. induction idx as [| i idx IH]; intros c Hvalid; cbn [for_each].
  - exists c, []. rewrite app_nil_r. repeat split. constructor.
  - destruct (Hvalid i) as [s Hs]; [by left |].
    rewrite Hs. cbn [mbind result_bind].
    set (x := withOriginalIndex _ _).
    destruct (IH (appendChild x c)) as (c' & xs & Hrun & (H1 & H2 & H3) & Hch & Hall).
    { intros k Hk. simpl. apply Hvalid. by right. }
    exists c', (x :: xs). split; [exact Hrun |]. split; [by repeat split |].
    split; [rewrite Hch; simpl; by rewrite <- app_assoc |].
    constructor; [| exact Hall].
    unfold infiniteCloneOf. rewrite Hs. reflexivity.
Qed.

(** A cloning loop that inserts in front: the strip grows to the left,
    the clone of the last turn first. *)
Lemma for_each_clone_inserted (F : Z -> Z -> Z) (idx : list Z) (c : Context) :
  (forall i, i ∈ idx -> is_Some (nthZ (slides c) (F i (totalSlides c)))) ->
  exists c' xs,
    for_each idx (fun i c =>
      match nthZ (slides c) (F i (totalSlides c)) with
      | Some s =>
          Ok (insertFirst (withOriginalIndex (F i (totalSlides c)) (cloneAs InfiniteClone s)) c)
      | None => TypeError
      end) c = Ok c' /\
    sameInstance c c' /\
    trackChildren c' = reverse xs ++ trackChildren c /\
    Forall2 (fun i x => infiniteCloneOf (slides c) (F i (totalSlides c)) = Some x) idx xs.
Proof.
  revert c. induction idx as [| i idx IH]; intros c Hvalid; cbn [for_each].
  - exists c, []. repeat split. constructor.
  - destruct (Hvalid i) as [s Hs]; [by left |].
    rewrite Hs. cbn [mbind result_bind].
    set (x := withOriginalIndex _ _).
    destruct (IH (insertFirst x c)) as (c' & xs & Hrun & (H1 & H2 & H3) & Hch & Hall).
    { intros k Hk. simpl. apply Hvalid. by right. }
    exists c', (x :: xs). split; [exact Hrun |]. split; [by repeat split |].
    split; [rewrite Hch; simpl; by rewrite reverse_cons, <- app_assoc |].
    constructor; [| exact Hall].
    unfold infiniteCloneOf. rewrite Hs. reflexivity.
Qed.

End CloneSetup.

(** [setupTrueInfinite] builds the strip that the specification describes:
    [n] clones, the real items, [n] clones, where [n] is the clone count it
    records; the clone at distance [d] to the left of the first real item is
    a copy of item [totalSlides - 1 - d mod totalSlides] (so the nearest is
    a copy of the last item), and the [j]-th clone after the last real item
    is a copy of item [j mod totalSlides]. *)
Lemma setupTrueInfinite_strip (c : Context) (first : Slide) (rest : list Slide) :
  slides c = first :: rest ->
  totalSlides c = Z.of_nat (length (slides c)) ->
  (0 < offsetWidth first + gap (currentOptions c))%Q ->
  let T := totalSlides c in
  let n := Z.to_nat
             (Z.max T
                (Qceiling (containerOffsetWidth c
                           / (offsetWidth first + gap (currentOptions c))) * 2)) in
  exists c' pre post,
    InfiniteScroll.setupTrueInfinite c = Ok c' /\
    initialCloneCount c' = Z.of_nat n /\
    trackChildren c' = pre ++ trackChildren c ++ post /\
    length pre = n /\ length post = n /\
    (forall d, (d < n)%nat ->
       exists x, pre !! (n - 1 - d)%nat = Some x /\
                 copyOf (slides c) (T - 1 - Z.of_nat d mod T)%Z x) /\
    (forall j, (j < n)%nat ->
       exists x, post !! j = Some x /\ copyOf (slides c) (Z.of_nat j mod T)%Z x).
Proof.
  intros Hslides Htotal _ T n. subst T.
  assert (HT : (0 < totalSlides c)%Z) by (rewrite Htotal, Hslides; simpl; lia).
  set (m := Z.max (totalSlides c)
              (Qceiling (containerOffsetWidth c
                         / (offsetWidth first + gap (currentOptions c))) * 2)) in *.
  assert (Hm : (0 <= m)%Z) by (subst m; lia).
  assert (Hn : Z.of_nat n = m) by (subst n; lia).
  unfold InfiniteScroll.setupTrueInfinite. rewrite Hslides. cbv zeta. fold m.
  set (c0 := set_initialCloneCount m c).
  assert (Hvalid1 : forall i, i ∈ range 0 m ->
            is_Some (nthZ (slides c0) ((fun i T => Z.rem i T) i (totalSlides c0)))).
  { intros i Hi. apply elem_of_range in Hi. apply nthZ_in_range. simpl.
    rewrite <- Htotal. rewrite Z.rem_mod_nonneg by lia.
    apply Z.mod_pos_bound. lia. }
  destruct (for_each_clone_appended (fun i T => Z.rem i T) (range 0 m) c0 Hvalid1)
    as (c1 & post & Hrun1 & (Hs1 & Ht1 & Hi1) & Hch1 & Hall1).
  cbv beta in Hrun1, Hall1. rewrite Hrun1. cbn [mbind result_bind].
  assert (Hvalid2 : forall i, i ∈ range 0 m ->
            is_Some (nthZ (slides c1)
                       ((fun i T => Z.rem (T - 1 - Z.rem i T) T) i (totalSlides c1)))).
  { intros i Hi. apply elem_of_range in Hi. apply nthZ_in_range.
    rewrite Hs1, Ht1. simpl. rewrite <- Htotal.
    rewrite (Z.rem_mod_nonneg i) by lia.
    pose proof (Z.mod_pos_bound i (totalSlides c) HT).
    rewrite Z.rem_mod_nonneg by lia. apply Z.mod_pos_bound. lia. }
  destruct (for_each_clone_inserted (fun i T => Z.rem (T - 1 - Z.rem i T) T)
              (range 0 m) c1 Hvalid2)
    as (c2 & pre & Hrun2 & (Hs2 & Ht2 & Hi2) & Hch2 & Hall2).
  cbv beta in Hrun2, Hall2. rewrite Hrun2. cbn [mbind result_bind].
  pose proof (Forall2_length _ _ _ Hall1) as Hlen1.
  pose proof (Forall2_length _ _ _ Hall2) as Hlen2.
  rewrite length_range, Z.sub_0_r in Hlen1, Hlen2.
  eexists _, (reverse pre), post. split; [reflexivity |].
  split; [simpl; rewrite Hi2, Hi1; simpl; lia |].
  split; [simpl; rewrite Hch2, Hch1; reflexivity |].
  split; [rewrite length_reverse; lia |]. split; [lia |]. split.
  - intros d Hd.
    destruct (Forall2_lookup_l _ _ _ d (Z.of_nat d) Hall2) as (x & Hx & Hcopy).
    { rewrite lookup_range by lia. f_equal. }
    exists x. split.
    + rewrite reverse_lookup by lia. rewrite <- Hx. f_equal. lia.
    + apply infiniteCloneOf_copy in Hcopy. rewrite Hs1, Ht1 in Hcopy. simpl in Hcopy.
      pose proof (Z.mod_pos_bound (Z.of_nat d) (totalSlides c) HT).
      rewrite (Z.rem_mod_nonneg (Z.of_nat d)) in Hcopy by lia.
      rewrite Z.rem_small in Hcopy by lia. rewrite <- Hslides. exact Hcopy.
  - intros j Hj.
    destruct (Forall2_lookup_l _ _ _ j (Z.of_nat j) Hall1) as (x & Hx & Hcopy).
    { rewrite lookup_range by lia. f_equal. }
    exists x. split; [exact Hx |].
    apply infiniteCloneOf_copy in Hcopy. simpl in Hcopy.
    rewrite Z.rem_mod_nonneg in Hcopy by lia. rewrite <- Hslides. exact Hcopy.
Qed.

(** The prepending loop of [createClonedSlides] starts at index
    [totalSlides - cloneCount]: with more clones than real items it reads
    [slides] at a negative index and throws, where [setupTrueInfinite]
    cycles through the items. *)
Lemma createClonedSlides_throws_beyond_one_cycle :
  Dom.createClonedSlides (realSlides 3 100) (realSlides 3 100) 4 "infinite" = TypeError.
Proof. vm_compute. reflexivity. Qed.

(** C8 fails on [createClonedSlides].  With three real items and two
    clones on each side in infinite mode, every clone carries its
    [originalIndex], but the block put before the real items reads 2, 1 in
    strip order: the clone next to the first real item is a copy of item
    1, not of the last item 2. *)
Theorem createClonedSlides_prepends_reversed :
  exists strip x,
    Dom.createClonedSlides (realSlides 3 100) (realSlides 3 100) 2 "infinite" = Ok strip /\
    originalIndex <$> strip =
      [Some 2; Some 1; None; None; None; Some 0; Some 1]%Z /\
    content <$> strip = [2; 1; 0; 1; 2; 0; 1] /\
    strip !! 1 = Some x /\ isClone x = true /\
    (cls <$> strip !! 2) = Some RealSlide /\
    originalIndex x = Some 1%Z /\
    originalIndex x <> Some (3 - 1)%Z.
Proof.
  do 2 eexists.
  split; [vm_compute; reflexivity |].
  do 2 (split; [reflexivity |]).
  split; [reflexivity |].
  do 3 (split; [reflexivity |]). discriminate.
Qed.

(** * Further properties *)

(** ** Layout: what fits the container *)

Section Fit.
Local Open Scope Q_scope.

(** Multiplying out a floor of a quotient by a positive divisor. *)
Lemma Qfloor_div_le (a b : Q) :
  0 < b -> inject_Z (Qfloor (a / b)) * b <= a.
Proof.
  intros Hb. pose proof (Qfloor_le (a / b)) as H.
  apply (Qmult_le_compat_r _ _ b) in H; [| lra].
  assert (E : a / b * b == a) by (field; lra).
  lra.
Qed.

Lemma Qfloor_div_lt (a b : Q) :
  0 < b -> a < (inject_Z (Qfloor (a / b)) + 1) * b.
Proof.
  intros Hb. pose proof (Qlt_floor (a / b)) as H.
  rewrite inject_Z_plus in H.
  apply (Qmult_lt_compat_r _ _ b) in H; [| lra].
  assert (E : a / b * b == a) by (field; lra).
  change (inject_Z 1) with 1 in H. lra.
Qed.

End Fit.

(** X1. [getActualSlidesToShow] returns the configured number when there
    is no slide.  Otherwise (width of the first slide plus gap positive)
    it returns at most the configured number; that many slides of the
    width of the first one fit the container with the gaps between them;
    and when it returns fewer than configured, one slide more does not
    fit. *)
Theorem getActualSlidesToShow_fits :
  (forall (containerWidth gap : Q) (configured : Z),
      Utils.getActualSlidesToShow containerWidth [] gap configured = configured) /\
  (forall (containerWidth slideWidth gap : Q) (others : list Q) (configured : Z),
      (0 < slideWidth + gap)%Q ->
      let k := Utils.getActualSlidesToShow containerWidth (slideWidth :: others)
                 gap configured in
      (k <= configured)%Z /\
      (inject_Z k * slideWidth + (inject_Z k - 1) * gap <= containerWidth)%Q /\
      ((k < configured)%Z ->
       (containerWidth < (inject_Z k + 1) * slideWidth + inject_Z k * gap)%Q)).
Proof.
  split; [reflexivity |].
  intros cw sw g others n Hpos k. subst k. unfold Utils.getActualSlidesToShow.
  set (f := Qfloor ((cw + g) / (sw + g))).
  pose proof (Qfloor_div_le (cw + g) (sw + g) Hpos) as Hle.
  pose proof (Qfloor_div_lt (cw + g) (sw + g) Hpos) as Hlt.
  fold f in Hle, Hlt.
  split; [lia |]. split.
  - destruct (Z.min_spec f n) as [[Hc ->] | [Hc ->]]; [lra |].
    assert (Hq : (inject_Z n <= inject_Z f)%Q) by (rewrite <- Zle_Qle; lia).
    nra.
  - intros Hk. destruct (Z.min_spec f n) as [[Hc ->] | [Hc E]]; [lra | lia].
Qed.

Lemma getActualSlidesToShow_fits_witness :
  (0 < 300 + 24)%Q /\
  (Utils.getActualSlidesToShow 700%Q [300; 300; 300]%Q 24%Q 3 <= 3)%Z /\
  (inject_Z (Utils.getActualSlidesToShow 700 [300; 300; 300]%Q 24 3) * 300
   + (inject_Z (Utils.getActualSlidesToShow 700 [300; 300; 300]%Q 24 3) - 1) * 24
   <= 700)%Q.
Proof.
  split; [reflexivity |].
  destruct (proj2 getActualSlidesToShow_fits 700%Q 300%Q 24%Q [300; 300]%Q 3%Z eq_refl)
    as (Hle & Hfit & _).
  split; [exact Hle | exact Hfit].
Defined.

Lemma Qhalf (x : Q) : (x / 2 == x * (1 # 2))%Q.
Proof. field. Qed.

Section Fill.
Local Open Scope Q_scope.
Variable parseFloat : string -> option Q.




End Fill.





(** ** Responsive settings *)

Section Cascade.
Import Config.

Lemma cascade_union (l : list Breakpoint) (m : gmap string value) :
  foldl (fun cur bp => assign cur (VPrim <$> settings bp)) m l =
  foldl (fun cur bp => assign cur (VPrim <$> settings bp)) ∅ l ∪ m.
Proof.
  revert m. induction l as [| bp l IH]; intros m; simpl.
  - by rewrite (left_id_L ∅ (∪)).
  - rewrite IH, (IH (assign ∅ _)). unfold assign.
    by rewrite (right_id_L ∅ (∪)), (assoc_L (∪)).
Qed.

Lemma cascade_twice (l : list Breakpoint) (m : gmap string value) :
  foldl (fun cur bp => assign cur (VPrim <$> settings bp))
        (foldl (fun cur bp => assign cur (VPrim <$> settings bp)) m l) l =
  foldl (fun cur bp => assign cur (VPrim <$> settings bp)) m l.
Proof.
  rewrite (cascade_union l (foldl _ m l)), (cascade_union l m).
  by rewrite (assoc_L (∪)), (idemp_L (∪)).
Qed.

Lemma cascade_untouched (l : list Breakpoint) (m : gmap string value) (k : string) :
  Forall (fun bp => settings bp !! k = None) l ->
  foldl (fun cur bp => assign cur (VPrim <$> settings bp)) m l !! k = m !! k.
Proof.
  intros H. revert m. induction H as [| bp l Hbp Hl IH]; intros m; simpl; [done |].
  rewrite IH, lookup_assign, lookup_fmap, Hbp. reflexivity.
Qed.

Lemma cascade_same_value (l : list Breakpoint) (m : gmap string value) (k : string)
    (v : prim) :
  m !! k = Some (VPrim v) ->
  Forall (fun bp => is_Some (settings bp !! k) -> settings bp !! k = Some v) l ->
  foldl (fun cur bp => assign cur (VPrim <$> settings bp)) m l !! k = Some (VPrim v).
Proof.
  intros Hm H. revert m Hm. induction H as [| bp l Hbp Hl IH]; intros m Hm; simpl; [done |].
  apply IH. rewrite lookup_assign, lookup_fmap.
  destruct (settings bp !! k) as [w |] eqn:E; simpl; [| exact Hm].
  specialize (Hbp ltac:(by eexists)). by inversion Hbp.
Qed.

Lemma cascade_sorted (l : list Breakpoint) (m : gmap string value) (bp : Breakpoint)
    (k : string) (v : prim) :
  StronglySorted (desc breakpoint) l ->
  bp ∈ l -> settings bp !! k = Some v ->
  (forall x, x ∈ l -> is_Some (settings x !! k) ->
             x = bp \/ (breakpoint bp < breakpoint x)%Q) ->
  foldl (fun cur bp => assign cur (VPrim <$> settings bp)) m l !! k = Some (VPrim v).
Proof.
  intros Hs. revert m. induction Hs as [| y l Hs IH Hall]; intros m Hin Hv Hothers.
  - by apply elem_of_nil in Hin.
  - simpl. apply elem_of_cons in Hin as [-> | Hin].
    + apply cascade_same_value.
      * by rewrite lookup_assign, lookup_fmap, Hv.
      * rewrite Forall_forall in Hall. apply Forall_forall. intros x Hx Hsome.
        destruct (Hothers x) as [-> | Hlt]; [by right | exact Hsome | exact Hv |].
        specialize (Hall x Hx). unfold desc in Hall. lra.
    + apply IH; [exact Hin | exact Hv |].
      intros x Hx. apply Hothers. by right.
Qed.

Lemma elem_of_insert_desc {A : Type} (key : A -> Q) (x y : A) (l : list A) :
  y ∈ insert_desc key x l <-> y = x \/ y ∈ l.
Proof.
  induction l as [| z l IH]; simpl.
  - rewrite list_elem_of_singleton, elem_of_nil. tauto.
  - destruct (Qleb (key z) (key x)).
    + by rewrite elem_of_cons.
    + rewrite !elem_of_cons, IH. tauto.
Qed.

Lemma elem_of_sort_desc {A : Type} (key : A -> Q) (y : A) (l : list A) :
  y ∈ sort_desc key l <-> y ∈ l.
Proof.
  induction l as [| x l IH]; simpl; [done |].
  by rewrite elem_of_insert_desc, IH, elem_of_cons.
Qed.

(** What [applyResponsiveSettings] returns on a list of breakpoints. *)
Lemma applyResponsiveSettings_matching (W : Q) (options : gmap string value)
    (bps : list Breakpoint) :
  options !! "responsive" = Some (VResponsive bps) ->
  applyResponsiveSettings W options =
    Ok (foldl (fun cur bp => assign cur (VPrim <$> settings bp)) options
          (sort_desc breakpoint (filter (fun bp => Qleb W (breakpoint bp) = true) bps))).
Proof.
  intros H. unfold applyResponsiveSettings.
  by rewrite H, assign_empty, cascade_filter, filter_sort_desc.
Qed.

End Cascade.

(** X4. Applying the responsive settings twice is applying them once:
    when no breakpoint carries a [responsive] setting of its own, the
    result of [applyResponsiveSettings] still holds the breakpoint list
    and is returned unchanged by a second call at the same width. *)
Theorem applyResponsiveSettings_idempotent
    (W : Q) (options r : gmap string Config.value) (bps : list Config.Breakpoint) :
  options !! "responsive" = Some (Config.VResponsive bps) ->
  Forall (fun bp => Config.settings bp !! "responsive" = None) bps ->
  Config.applyResponsiveSettings W options = Ok r ->
  r !! "responsive" = Some (Config.VResponsive bps) /\
  Config.applyResponsiveSettings W r = Ok r.
Proof.
  intros Hresp Hno. rewrite (applyResponsiveSettings_matching W options bps Hresp).
  intros [= <-].
  set (l := sort_desc _ _).
  assert (Hl : Forall (fun bp => Config.settings bp !! "responsive" = None) l).
  { apply Forall_forall. intros bp Hbp. subst l.
    apply elem_of_sort_desc, list_elem_of_filter in Hbp as [_ Hbp].
    rewrite Forall_forall in Hno. by apply Hno. }
  assert (Hkeep : foldl (fun cur bp =>
                    Config.assign cur (Config.VPrim <$> Config.settings bp)) options l
                  !! "responsive" = Some (Config.VResponsive bps)).
  { by rewrite cascade_untouched. }
  split; [exact Hkeep |].
  rewrite (applyResponsiveSettings_matching W _ bps Hkeep). fold l.
  by rewrite cascade_twice.
Qed.

Lemma applyResponsiveSettings_idempotent_witness :
  exists r,
    Config.applyResponsiveSettings 800 Config.DEFAULT_CONFIG = Ok r /\
    Config.applyResponsiveSettings 800 r = Ok r.
Proof.
  pose proof (applyResponsiveSettings_matching 800 Config.DEFAULT_CONFIG _ eq_refl) as H.
  eexists. split; [exact H |].
  refine (proj2 (applyResponsiveSettings_idempotent 800 Config.DEFAULT_CONFIG _ _
                   eq_refl _ H)).
  repeat constructor.
Defined.

(** X5. Among the breakpoints that match the width (threshold at least
    the width) and set the option [k], the one with the smallest threshold
    decides: its value is the value of [k] in the result of
    [applyResponsiveSettings]. *)
Theorem applyResponsiveSettings_narrowest_wins
    (W : Q) (options : gmap string Config.value) (bps : list Config.Breakpoint)
    (bp : Config.Breakpoint) (k : string) (v : prim) :
  options !! "responsive" = Some (Config.VResponsive bps) ->
  bp ∈ bps -> (W <= Config.breakpoint bp)%Q ->
  Config.settings bp !! k = Some v ->
  (forall bp', bp' ∈ bps -> (W <= Config.breakpoint bp')%Q ->
               is_Some (Config.settings bp' !! k) ->
               bp' = bp \/ (Config.breakpoint bp < Config.breakpoint bp')%Q) ->
  exists r,
    Config.applyResponsiveSettings W options = Ok r /\
    r !! k = Some (Config.VPrim v).
Proof.
  intros Hresp Hin HW Hv Hothers.
  rewrite (applyResponsiveSettings_matching W options bps Hresp).
  eexists. split; [reflexivity |].
  apply (cascade_sorted _ _ bp).
  - apply sort_desc_sorted.
  - apply elem_of_sort_desc, list_elem_of_filter. split; [by apply Qleb_spec | exact Hin].
  - exact Hv.
  - intros x Hx. apply elem_of_sort_desc, list_elem_of_filter in Hx as [Hm Hx].
    apply Hothers; [exact Hx | by apply Qleb_spec].
Qed.

Lemma applyResponsiveSettings_narrowest_wins_witness :
  exists r,
    Config.applyResponsiveSettings 700 Config.DEFAULT_CONFIG = Ok r /\
    r !! "slidesToShow" = Some (Config.vnum 1).
Proof.
  apply (applyResponsiveSettings_narrowest_wins 700 Config.DEFAULT_CONFIG _
           (Config.mkBreakpoint 768 {[ "slidesToShow" := PNum 1 ]}) "slidesToShow"
           (PNum 1) eq_refl).
  - set_solver.
  - vm_compute. discriminate.
  - reflexivity.
  - intros bp' Hin HW _.
    repeat (apply elem_of_cons in Hin as [-> | Hin]);
      [right; reflexivity | right; reflexivity | by left
      | exfalso; revert HW; vm_compute; intros H; by apply H |].
    by apply elem_of_nil in Hin.
Defined.

(** X6. [applyResponsiveSettings] without a matching breakpoint: it
    throws when the options have no [responsive] property or a primitive
    one that cannot be spread; a string is spread into characters, which
    match nothing, and the options are returned as they are; and so are
    they when every threshold is below the width. *)
Theorem applyResponsiveSettings_without_matching_breakpoint
    (W : Q) (options : gmap string Config.value) :
  (options !! "responsive" = None ->
   Config.applyResponsiveSettings W options = TypeError) /\
  (forall p, options !! "responsive" = Some (Config.VPrim p) ->
             Config.applyResponsiveSettings W options =
               match p with
               | PStr _ => Ok options
               | _ => TypeError
               end) /\
  (forall bps, options !! "responsive" = Some (Config.VResponsive bps) ->
               Forall (fun bp => (Config.breakpoint bp < W)%Q) bps ->
               Config.applyResponsiveSettings W options = Ok options).
Proof.
  split; [| split].
  - intros H. unfold Config.applyResponsiveSettings. by rewrite H.
  - intros p H. unfold Config.applyResponsiveSettings. rewrite H, assign_empty.
    by destruct p.
  - intros bps H Hall. rewrite (applyResponsiveSettings_matching W options bps H).
    replace (filter _ bps) with (@nil Config.Breakpoint); [reflexivity |].
    symmetry. clear H. induction Hall as [| bp l Hbp Hl IH]; [reflexivity |].
    rewrite filter_cons_False; [exact IH |].
    rewrite Qleb_spec. lra.
Qed.

Lemma applyResponsiveSettings_without_matching_breakpoint_witness :
  Forall (fun bp => (Config.breakpoint bp < 1000)%Q)
    [Config.mkBreakpoint 768 {[ "slidesToShow" := PNum 1 ]}] /\
  Config.applyResponsiveSettings 1000
    {[ "responsive" :=
         Config.VResponsive [Config.mkBreakpoint 768 {[ "slidesToShow" := PNum 1 ]}] ]}
  = Ok {[ "responsive" :=
            Config.VResponsive [Config.mkBreakpoint 768 {[ "slidesToShow" := PNum 1 ]}] ]}.
Proof.
  assert (H : Forall (fun bp => (Config.breakpoint bp < 1000)%Q)
                [Config.mkBreakpoint 768 {[ "slidesToShow" := PNum 1 ]}])
    by (repeat constructor).
  split; [exact H |].
  exact (proj2 (proj2 (applyResponsiveSettings_without_matching_breakpoint 1000
                         {[ "responsive" :=
                              Config.VResponsive
                                [Config.mkBreakpoint 768 {[ "slidesToShow" := PNum 1 ]}] ]}))
           _ eq_refl H).
Defined.

Lemma filter_true_cons {A : Type} (f : A -> bool) (x : A) (l : list A) :
  filter (fun x => f x = true) (x :: l) =
    if f x then x :: filter (fun x => f x = true) l
    else filter (fun x => f x = true) l.
Proof.
  rewrite filter_cons. destruct (f x); by case_decide.
Qed.

(** X7. With the default breakpoints (neither [responsive] nor
    [slidesToShow] passed, no data attribute) the slider shows 1 slide up
    to a width of 768, 2 up to 992, 3 up to 1200 and 4 beyond. *)
Theorem default_breakpoints_slidesToShow
    (JSON_parse : string -> option (gmap string Config.value))
    (W : Q) (passedOptions : gmap string Config.value) :
  passedOptions !! "responsive" = None ->
  passedOptions !! "slidesToShow" = None ->
  exists r,
    Config.applyResponsiveSettings W
      (Config.buildConfig JSON_parse None passedOptions).1 = Ok r /\
    r !! "slidesToShow" =
      Some (Config.vnum
              (if Qleb W 768 then 1
               else if Qleb W 992 then 2
               else if Qleb W 1200 then 3 else 4)).
Proof.
  intros Hresp Hshow.
  rewrite (buildConfig_no_attribute JSON_parse None passedOptions) by done.
  unfold fst, defaults_with.
  set (options := Config.assign _ passedOptions).
  assert (H1 : options !! "responsive" = Config.DEFAULT_CONFIG !! "responsive")
    by (subst options; by rewrite !lookup_assign, Hresp, lookup_empty).
  assert (H2 : options !! "slidesToShow" = Config.DEFAULT_CONFIG !! "slidesToShow")
    by (subst options; by rewrite !lookup_assign, Hshow, lookup_empty).
  clearbody options.
  rewrite (applyResponsiveSettings_matching W options _ H1).
  eexists. split; [reflexivity |].
  rewrite (cascade_lookup _ options Config.DEFAULT_CONFIG _ H2).
  rewrite !filter_true_cons. cbn [Config.breakpoint]. rewrite filter_nil.
  destruct (Qleb W 1200) eqn:E1; destruct (Qleb W 992) eqn:E2;
    destruct (Qleb W 768) eqn:E3; destruct (Qleb W 576) eqn:E4;
    try (vm_compute; reflexivity);
    exfalso;
    repeat match goal with
           | H : Qleb _ _ = true |- _ => apply Qleb_spec in H
           | H : Qleb _ _ = false |- _ => apply Qleb_false in H
           end; lra.
Qed.

Lemma default_breakpoints_slidesToShow_witness :
  exists r,
    Config.applyResponsiveSettings 1000
      (Config.buildConfig (fun _ => None) None {[ "gap" := Config.vnum 10 ]}).1 = Ok r /\
    r !! "slidesToShow" = Some (Config.vnum 3).
Proof.
  apply (default_breakpoints_slidesToShow (fun _ => None) 1000
           {[ "gap" := Config.vnum 10 ]}); reflexivity.
Defined.

(** ** Clones: [createClonedSlides] and [removeClonedSlides] *)

Section Loops.
Context {A B : Type}.

(** A loop that appends what it makes of what it finds, and throws when it
    finds nothing. *)
Lemma for_each_appending (found : Z -> option A) (make : Z -> A -> B)
    (idx : list Z) (track : list B) :
  for_each idx (fun i track =>
    match found i with
    | Some x => Ok (track ++ [make i x])
    | None => TypeError
    end) track =
  match mapM (fun i => make i <$> found i) idx with
  | Some xs => Ok (track ++ xs)
  | None => TypeError
  end.
Proof.
  revert track. induction idx as [| i idx IH]; intros track; cbn [for_each].
  - simpl. by rewrite app_nil_r.
  - simpl. destruct (found i) as [x |]; simpl; [| reflexivity].
    rewrite IH. destruct (mapM _ idx) as [xs |]; simpl; [| reflexivity].
    by rewrite <- app_assoc.
Qed.

(** The same for a loop that inserts in front. *)
Lemma for_each_prepending (found : Z -> option A) (make : Z -> A -> B)
    (idx : list Z) (track : list B) :
  for_each idx (fun i track =>
    match found i with
    | Some x => Ok (make i x :: track)
    | None => TypeError
    end) track =
  match mapM (fun i => make i <$> found i) idx with
  | Some xs => Ok (reverse xs ++ track)
  | None => TypeError
  end.
Proof.
  revert track. induction idx as [| i idx IH]; intros track; cbn [for_each].
  - reflexivity.
  - simpl. destruct (found i) as [x |]; simpl; [| reflexivity].
    rewrite IH. destruct (mapM _ idx) as [xs |]; simpl; [| reflexivity].
    by rewrite reverse_cons, <- app_assoc.
Qed.

Lemma mapM_nthZ_range (l : list A) (lo hi : Z) :
  (0 <= lo)%Z -> (lo <= hi)%Z -> (hi <= Z.of_nat (length l))%Z ->
  mapM (nthZ l) (range lo hi) =
    Some (take (Z.to_nat (hi - lo)) (drop (Z.to_nat lo) l)).
Proof.
  intros H0 H1 H2. apply mapM_Some, Forall2_same_length_lookup. split.
  - rewrite length_range, length_take, length_drop. lia.
  - intros k i x Hi Hx.
    pose proof (lookup_lt_Some _ _ _ Hi) as Hk. rewrite length_range in Hk.
    rewrite lookup_range in Hi by exact Hk. inversion Hi; subst i.
    rewrite lookup_take_lt in Hx by exact Hk. rewrite lookup_drop in Hx.
    unfold nthZ. destruct (Z.ltb_spec (lo + Z.of_nat k) 0); [lia |].
    rewrite <- Hx. f_equal. lia.
Qed.

Lemma mapM_fmap_found (f : A -> B) (found : Z -> option A) (idx : list Z) :
  mapM (fun i => f <$> found i) idx = fmap f <$> mapM found idx.
Proof.
  induction idx as [| i idx IH]; [reflexivity |]. simpl.
  destruct (found i) as [x |]; simpl; [| reflexivity].
  rewrite IH. by destruct (mapM found idx).
Qed.

End Loops.

Section Clones.
Local Open Scope Z_scope.

Lemma createClonedSlides_blocks (slides track : list Slide) (cloneCount : Z)
    (mode : string) :
  let T := Z.of_nat (length slides) in
  Dom.createClonedSlides slides track cloneCount mode =
    if String.eqb mode "infinite" then
      match mapM (fun i => cloneOf mode slides (Z.rem i T)) (range 0 cloneCount),
            mapM (fun i => cloneOf mode slides (Z.rem (T - cloneCount + i) T))
                 (range 0 cloneCount) with
      | Some post, Some pre => Ok (reverse pre ++ track ++ post)
      | _, _ => TypeError
      end
    else
      match mapM (cloneOf mode slides) (range 0 cloneCount),
            mapM (cloneOf mode slides) (range (T - cloneCount) T) with
      | Some post, Some pre => Ok (reverse pre ++ track ++ post)
      | _, _ => TypeError
      end.
Proof.
  intros T. unfold Dom.createClonedSlides, cloneOf. fold T.
  destruct (String.eqb mode "infinite"); cbv zeta.
  - rewrite (for_each_appending (fun i => nthZ slides (Z.rem i T))
               (fun i s => withOriginalIndex (Z.rem i T) (cloneAs InfiniteClone s))).
    destruct (mapM _ (range 0 cloneCount)) as [post |]; simpl; [| reflexivity].
    rewrite (for_each_prepending (fun i => nthZ slides (Z.rem (T - cloneCount + i) T))
               (fun i s => withOriginalIndex (Z.rem (T - cloneCount + i) T)
                             (cloneAs InfiniteClone s))).
    destruct (mapM _ (range 0 cloneCount)) as [pre |]; simpl; [| reflexivity].
    reflexivity.
  - rewrite (for_each_appending (nthZ slides) (fun _ s => cloneAs BounceClone s)).
    destruct (mapM _ (range 0 cloneCount)) as [post |]; simpl; [| reflexivity].
    rewrite (for_each_prepending (nthZ slides) (fun _ s => cloneAs BounceClone s)).
    destruct (mapM _ (range _ T)) as [pre |]; simpl; reflexivity.
Qed.


Lemma cloneOf_class (mode : string) (slides : list Slide) (j : Z) (x : Slide) :
  cloneOf mode slides j = Some x ->
  cls x = (if String.eqb mode "infinite" then InfiniteClone else BounceClone).
Proof.
  unfold cloneOf. destruct (String.eqb mode "infinite");
    destruct (nthZ slides j); intros [= <-]; reflexivity.
Qed.

Lemma mapM_cloneOf_class (mode : string) (slides : list Slide) (F : Z -> Z)
    (idx : list Z) (xs : list Slide) :
  mapM (fun i => cloneOf mode slides (F i)) idx = Some xs ->
  Forall (fun x => cls x =
            (if String.eqb mode "infinite" then InfiniteClone else BounceClone)) xs.
Proof.
  intros H. apply mapM_Some in H.
  induction H as [| i x idx xs Hx _ IH]; constructor; [| exact IH].
  by eapply cloneOf_class.
Qed.

Lemma filter_none {A : Type} (P : A -> Prop) `{!forall x, Decision (P x)} (l : list A) :
  Forall (fun x => ~ P x) l -> filter P l = [].
Proof.
  induction 1 as [| x l Hx _ IH]; [reflexivity |]. by rewrite filter_cons_False.
Qed.

Lemma filter_all {A : Type} (P : A -> Prop) `{!forall x, Decision (P x)} (l : list A) :
  Forall P l -> filter P l = l.
Proof.
  induction 1 as [| x l Hx _ IH]; [reflexivity |]. by rewrite filter_cons_True, IH.
Qed.

Lemma range_empty (lo hi : Z) : hi <= lo -> range lo hi = [].
Proof. intros H. unfold range. by replace (Z.to_nat (hi - lo)) with O by lia. Qed.

Lemma elem_of_range_2 (lo hi i : Z) : lo <= i < hi -> i ∈ range lo hi.
Proof.
  intros H. unfold range. apply list_elem_of_fmap.
  exists (Z.to_nat (i - lo)). split; [lia |]. apply elem_of_seq. lia.
Qed.

Lemma nthZ_outside {A : Type} (l : list A) (j : Z) :
  j < 0 \/ Z.of_nat (length l) <= j -> nthZ l j = None.
Proof.
  intros H. unfold nthZ. destruct (Z.ltb_spec j 0); [reflexivity |].
  apply lookup_ge_None. lia.
Qed.

Lemma range_shift (lo hi : Z) : range lo hi = Z.add lo <$> range 0 (hi - lo).
Proof.
  unfold range. rewrite <- list_fmap_compose, Z.sub_0_r. reflexivity.
Qed.

Lemma Forall2_on_list {A B : Type} (P Q : A -> B -> Prop) (l : list A) (k : list B) :
  Forall2 P l k -> (forall i x, i ∈ l -> P i x -> Q i x) -> Forall2 Q l k.
Proof.
  induction 1 as [| i x l k Hx _ IH]; intros H; constructor.
  - apply H; [by left | exact Hx].
  - apply IH. intros j y Hj. apply H. by right.
Qed.

Lemma mapM_found_all {A B : Type} (f : A -> option B) (l : list A) :
  (forall i, i ∈ l -> is_Some (f i)) ->
  exists k, mapM f l = Some k /\ Forall2 (fun i x => f i = Some x) l k.
Proof.
  intros H. destruct (mapM_is_Some_2 f l) as [k Hk].
  - apply Forall_forall. exact H.
  - exists k. split; [exact Hk | by apply mapM_Some_1].
Qed.

(** [%] keeps the sign of the dividend. *)
Lemma rem_next_negative (a T : Z) :
  2 <= T -> a < 0 -> Z.rem a T = 0 -> Z.rem (a + 1) T < 0.
Proof. intros HT Ha E.
  pose proof (Z.rem_nonpos (a+1) T ltac:(lia) ltac:(lia)).
  pose proof (Z.quot_rem' (a+1) T) as H1. pose proof (Z.quot_rem' a T) as H2.
  assert (Z.rem (a+1) T <> 0); [| lia].
  intros E2. rewrite E in H2. rewrite E2 in H1.
  assert (H3 : T * (Z.quot (a+1) T - Z.quot a T) = 1) by lia.
  revert H3. generalize (Z.quot (a+1) T - Z.quot a T). intros k Hk.
  assert (k <= 0 \/ 1 <= k) as [|] by lia; nia.
Qed.
Lemma rem_negative (a T : Z) :
  2 <= T -> a < 0 -> Z.rem a T <> 0 -> Z.rem a T < 0.
Proof. intros HT Ha E.
  pose proof (Z.rem_nonpos a T ltac:(lia) ltac:(lia)). lia.
Qed.

End Clones.

(** X8. [createClonedSlides] in a mode other than ['infinite'], for [T]
    slides: a clone count of 0 or less returns the strip; a count [k] up
    to [T] puts copies of the last [k] slides, in reverse order, before
    the strip and copies of the first [k] slides after it; a count above
    [T] throws. *)
Theorem createClonedSlides_bounce
    (slides track : list Slide) (cloneCount : Z) (mode : string) :
  mode <> "infinite" ->
  let T := Z.of_nat (length slides) in
  ((cloneCount <= 0)%Z ->
   Dom.createClonedSlides slides track cloneCount mode = Ok track) /\
  ((0 <= cloneCount <= T)%Z ->
   Dom.createClonedSlides slides track cloneCount mode =
     Ok (reverse (cloneAs BounceClone <$> drop (Z.to_nat (T - cloneCount)) slides)
         ++ track
         ++ (cloneAs BounceClone <$> take (Z.to_nat cloneCount) slides))) /\
  ((T < cloneCount)%Z ->
   Dom.createClonedSlides slides track cloneCount mode = TypeError).
Proof.
  intros Hmode T. apply String.eqb_neq in Hmode.
  rewrite createClonedSlides_blocks. fold T. rewrite Hmode.
  assert (Hclone : cloneOf mode slides = fun i => cloneAs BounceClone <$> nthZ slides i).
  { unfold cloneOf. by rewrite Hmode. }
  rewrite Hclone, !mapM_fmap_found.
  split; [| split].
  - intros Hk. rewrite !range_empty by lia. simpl. by rewrite app_nil_r.
  - intros [H0 H1].
    rewrite !mapM_nthZ_range by lia. simpl.
    replace (T - (T - cloneCount))%Z with cloneCount by lia.
    rewrite Z.sub_0_r, drop_0.
    rewrite (take_ge (drop _ _)) by (rewrite length_drop; lia).
    reflexivity.
  - intros Hk.
    rewrite (mapM_None_2 (nthZ slides) (range 0 cloneCount)); [reflexivity |].
    apply Exists_exists. exists T. split; [apply elem_of_range_2; lia |].
    apply nthZ_outside. lia.
Qed.

Lemma createClonedSlides_bounce_witness :
  Dom.createClonedSlides (realSlides 3 100) (realSlides 3 100) 4 "bounce" = TypeError.
Proof.
  apply (createClonedSlides_bounce (realSlides 3 100) (realSlides 3 100) 4 "bounce");
    [discriminate | simpl; lia].
Defined.

(** X9. [createClonedSlides] in mode ['infinite'], for [T] slides: a
    count [k] from 0 to [T] puts the clones of the items [T-k .. T-1], in
    reverse order, before the strip and the clones of the items
    [0 .. k-1] after it, each with its item in [data-original-index];
    with two slides or more a count above [T] throws. *)
Theorem createClonedSlides_infinite
    (slides track : list Slide) (cloneCount : Z) :
  let T := Z.of_nat (length slides) in
  ((0 <= cloneCount <= T)%Z ->
   exists pre post,
     Dom.createClonedSlides slides track cloneCount "infinite" =
       Ok (reverse pre ++ track ++ post) /\
     Forall2 (fun i x => infiniteCloneOf slides i = Some x)
             (range (T - cloneCount) T) pre /\
     Forall2 (fun i x => infiniteCloneOf slides i = Some x) (range 0 cloneCount) post) /\
  ((2 <= T)%Z -> (T < cloneCount)%Z ->
   Dom.createClonedSlides slides track cloneCount "infinite" = TypeError).
Proof.
  intros T. rewrite createClonedSlides_blocks. fold T. simpl String.eqb. cbv iota.
  assert (Hclone : forall j, cloneOf "infinite" slides j = infiniteCloneOf slides j)
    by reflexivity.
  assert (Hin : forall j, (0 <= j < T)%Z -> is_Some (infiniteCloneOf slides j)).
  { intros j Hj. unfold infiniteCloneOf.
    destruct (nthZ_in_range slides j Hj) as [x ->]. by eexists. }
  split.
  - intros [H0 H1].
    destruct (mapM_found_all (fun i => cloneOf "infinite" slides (Z.rem i T))
                (range 0 cloneCount)) as (post & -> & Hpost).
    { intros i Hi. apply elem_of_range in Hi.
      rewrite Z.rem_small, Hclone by lia. apply Hin. lia. }
    destruct (mapM_found_all
                (fun i => cloneOf "infinite" slides (Z.rem (T - cloneCount + i) T))
                (range 0 cloneCount)) as (pre & -> & Hpre).
    { intros i Hi. apply elem_of_range in Hi.
      rewrite Z.rem_small, Hclone by lia. apply Hin. lia. }
    exists pre, post. split; [reflexivity |]. split.
    + rewrite range_shift. apply Forall2_fmap_l.
      replace (T - (T - cloneCount))%Z with cloneCount by lia.
      eapply Forall2_on_list; [exact Hpre |].
      intros i x Hi. apply elem_of_range in Hi. simpl.
      by rewrite Z.rem_small, Hclone by lia.
    + eapply Forall2_on_list; [exact Hpost |].
      intros i x Hi. apply elem_of_range in Hi. simpl.
      by rewrite Z.rem_small, Hclone by lia.
  - intros HT Hk.
    destruct (mapM _ (range 0 cloneCount)) as [post |]; [| reflexivity].
    rewrite (mapM_None_2 _ (range 0 cloneCount)); [reflexivity |].
    apply Exists_exists.
    destruct (Z.eq_dec (Z.rem (T - cloneCount) T) 0%Z) as [E | E].
    + exists 1%Z. split; [apply elem_of_range_2; lia |].
      rewrite Hclone. unfold infiniteCloneOf. rewrite nthZ_outside; [reflexivity |].
      left. apply rem_next_negative; [exact HT | lia | exact E].
    + exists 0%Z. split; [apply elem_of_range_2; lia |].
      rewrite Hclone. unfold infiniteCloneOf. rewrite nthZ_outside; [reflexivity |].
      left. rewrite Z.add_0_r. apply rem_negative; [exact HT | lia | exact E].
Qed.

Lemma createClonedSlides_infinite_witness :
  Dom.createClonedSlides (realSlides 3 100) (realSlides 3 100) 7 "infinite" = TypeError.
Proof.
  apply (createClonedSlides_infinite (realSlides 3 100) (realSlides 3 100) 7);
    simpl; lia.
Defined.

(** X10. [removeClonedSlides] undoes [createClonedSlides]: when the
    strip holds no element of the clone class of the mode, removing the
    elements of that class from the result gives the strip back. *)
Theorem removeClonedSlides_createClonedSlides
    (slides track strip : list Slide) (cloneCount : Z) (mode : string) :
  let cloneClass := if String.eqb mode "infinite" then InfiniteClone else BounceClone in
  Forall (fun s => cls s <> cloneClass) track ->
  Dom.createClonedSlides slides track cloneCount mode = Ok strip ->
  Dom.removeClonedSlides (Some strip) cloneClass = Some track.
Proof.
  intros K Htrack. rewrite createClonedSlides_blocks. cbv zeta.
  assert (G : forall pre post,
             Forall (fun x => cls x = K) pre -> Forall (fun x => cls x = K) post ->
             Dom.removeClonedSlides (Some (reverse pre ++ track ++ post)) K = Some track).
  { intros pre post Hpre Hpost. unfold Dom.removeClonedSlides. simpl. f_equal.
    rewrite !filter_app.
    rewrite (filter_none _ (reverse pre)), (filter_none _ post), (filter_all _ track).
    - by rewrite app_nil_r.
    - exact Htrack.
    - eapply Forall_impl; [exact Hpost |]. simpl. intros x Hx. congruence.
    - apply Forall_reverse. eapply Forall_impl; [exact Hpre |]. simpl. intros x Hx.
      congruence. }
  subst K.
  destruct (String.eqb mode "infinite") eqn:Hmode.
  - destruct (mapM _ _) as [post |] eqn:E1; [| discriminate].
    destruct (mapM _ _) as [pre |] eqn:E2 in |- *; [| discriminate].
    intros [= <-].
    apply (mapM_cloneOf_class mode slides) in E1, E2. rewrite Hmode in E1, E2.
    by apply G.
  - destruct (mapM _ (range 0 cloneCount)) as [post |] eqn:E1; [| discriminate].
    destruct (mapM _ (range _ _)) as [pre |] eqn:E2 in |- *; [| discriminate].
    intros [= <-].
    apply (mapM_cloneOf_class mode slides (fun i => i)) in E1, E2.
    rewrite Hmode in E1, E2. by apply G.
Qed.

Lemma removeClonedSlides_createClonedSlides_witness :
  exists strip,
    Dom.createClonedSlides (realSlides 3 100) (realSlides 3 100) 2 "bounce" = Ok strip /\
    length strip = 7%nat /\
    Dom.removeClonedSlides (Some strip) BounceClone = Some (realSlides 3 100).
Proof.
  eexists. split; [vm_compute; reflexivity |]. split; [reflexivity |].
  apply (removeClonedSlides_createClonedSlides (realSlides 3 100) (realSlides 3 100) _ 2
           "bounce").
  - repeat constructor; discriminate.
  - vm_compute. reflexivity.
Defined.

(** ** The container of a track: [findContainer] *)

Section Container.
Import Dom.

Lemma firstConfigured_bound (chain : list Element) (steps r : nat) :
  firstConfigured chain steps = Some r -> steps <= r < steps + length chain.
Proof.
  revert steps. induction chain as [| e chain IH]; intros steps; simpl; [discriminate |].
  destruct (isBody e); [discriminate |].
  destruct (configured e); [intros [= <-]; lia |].
  intros H. apply IH in H. lia.
Qed.

Lemma firstConfigured_found (chain : list Element) (steps k : nat) (e : Element) :
  chain !! k = Some e -> configured e = true ->
  (forall j e', j <= k -> chain !! j = Some e' -> isBody e' = false) ->
  (forall j e', j < k -> chain !! j = Some e' -> configured e' = false) ->
  firstConfigured chain steps = Some (steps + k).
Proof.
  revert steps k. induction chain as [| x chain IH]; intros steps k Hk He Hbody Hconf;
    [discriminate |].
  simpl. rewrite (Hbody 0 x) by (reflexivity || lia).
  destruct k as [| k]; simpl in Hk.
  - inversion Hk; subst x. rewrite He. f_equal. lia.
  - rewrite (Hconf 0 x) by (reflexivity || lia).
    rewrite (IH (S steps) k); [f_equal; lia | exact Hk | exact He | |].
    + intros j e' Hj. apply (Hbody (S j)). lia.
    + intros j e' Hj. apply (Hconf (S j)). lia.
Qed.

Lemma firstConfigured_none (chain : list Element) (steps : nat) :
  (forall k e, chain !! k = Some e -> configured e = true ->
     exists j e', j <= k /\ chain !! j = Some e' /\ isBody e' = true) ->
  firstConfigured chain steps = None.
Proof.
  revert steps. induction chain as [| x chain IH]; intros steps H; [reflexivity |].
  simpl. destruct (isBody x) eqn:Hx; [reflexivity |].
  destruct (configured x) eqn:Hc.
  - destruct (H 0 x eq_refl Hc) as (j & e' & Hj & He' & Hb).
    replace j with 0 in He' by lia. simpl in He'. congruence.
  - apply IH. intros k e Hk He.
    destruct (H (S k) e Hk He) as (j & e' & Hj & He' & Hb).
    destruct j as [| j]; simpl in He'; [congruence |].
    exists j, e'. split; [lia | by split].
Qed.

End Container.

(** X11. [findContainer] returns an element of the chain from the track
    upwards: the nearest one that carries a [data-slider-config]
    attribute which is not empty, when no element up to and including it
    is [body]; and the parent of the track (the track itself when it has
    none) when every such element is [body] or above it. *)
Theorem findContainer_nearest_configured
    (trackElement : Dom.Element) (ancestors : list Dom.Element) :
  let chain := trackElement :: ancestors in
  let container := Dom.findContainer trackElement ancestors in
  is_Some (chain !! container) /\
  (forall k e,
      chain !! k = Some e -> Dom.configured e = true ->
      (forall j e', (j <= k)%nat -> chain !! j = Some e' -> Dom.isBody e' = false) ->
      (forall j e', (j < k)%nat -> chain !! j = Some e' -> Dom.configured e' = false) ->
      container = k) /\
  ((forall k e,
       chain !! k = Some e -> Dom.configured e = true ->
       exists j e', (j <= k)%nat /\ chain !! j = Some e' /\ Dom.isBody e' = true) ->
   container = match ancestors with [] => 0%nat | _ :: _ => 1%nat end).
Proof.
  intros chain container. subst container. unfold Dom.findContainer. fold chain.
  split; [| split].
  - destruct (Dom.firstConfigured chain 0) as [r |] eqn:E.
    + apply firstConfigured_bound in E. apply lookup_lt_is_Some. lia.
    + destruct ancestors; by eexists.
  - intros k e Hk He Hbody Hconf.
    by rewrite (firstConfigured_found chain 0 k e Hk He Hbody Hconf).
  - intros H. by rewrite (firstConfigured_none chain 0 H).
Qed.

Lemma findContainer_nearest_configured_witness :
  Dom.findContainer (Dom.mkElement None false)
    [Dom.mkElement (Some "") false; Dom.mkElement (Some "{}") false;
     Dom.mkElement (Some "{}") true] = 2%nat.
Proof.
  refine (proj1 (proj2 (findContainer_nearest_configured (Dom.mkElement None false)
           [Dom.mkElement (Some "") false; Dom.mkElement (Some "{}") false;
            Dom.mkElement (Some "{}") true])) 2%nat _ eq_refl eq_refl _ _).
  - intros [| [| [| j]]] e' Hj H; simplify_eq/=; reflexivity || lia.
  - intros [| [| j]] e' Hj H; simplify_eq/=; reflexivity || lia.
Defined.

(** ** Centre mode: [findCurrentCenterSlideIndex] and [goToCenterSlide] *)

Section Closest.
Import InfiniteScroll.
Local Open Scope Q_scope.

Lemma closestIndex_searched (centerPoint : Q) (l : list Q) :
  exists acc, closestIndex centerPoint l = acc.1.1 /\ searched centerPoint l acc.
Proof.
  unfold closestIndex.
  set (step := fun (acc : Z * option Q * Z) (slideCenter : Q) => _).
  assert (Hstep : forall best d i y,
            step (best, d, i) y =
              if match d with
                 | None => true
                 | Some d => Qltb (Qabs (centerPoint - y)) d
                 end
              then (i, Some (Qabs (centerPoint - y)), (i + 1)%Z)
              else (best, d, (i + 1)%Z)) by reflexivity.
  exists (foldl step (0%Z, None, 0%Z) l). split; [reflexivity |].
  clearbody step.
  induction l as [| y l IH] using rev_ind; [by split |].
  rewrite foldl_app. cbn [foldl].
  destruct (foldl step (0%Z, None, 0%Z) l) as [[best d] i].
  destruct IH as [Hi IH]. cbn [fst snd] in Hi, IH. subst i. rewrite Hstep.
  destruct l as [| z l].
  - inversion IH; subst. split; [reflexivity |].
    exists y. cbn [fst snd app length]. repeat split; try reflexivity.
    + destruct j; cbn in H; [inversion H; subst; apply Qle_refl | discriminate].
    + cbn. lia.
  - destruct IH as (x & H0 & Hx & Hd & Hall). cbn [fst snd] in H0, Hx, Hd, Hall. subst d.
    set (l' := z :: l) in *.
    assert (Hlen : (Z.to_nat best < length l')%nat) by (by eapply lookup_lt_Some).
    assert (Hcons : exists w k, l' ++ [y] = w :: k) by (by exists z, (l ++ [y])).
    destruct Hcons as (w0 & k0 & Hcons).
    destruct (Qltb (Qabs (centerPoint - y)) (Qabs (centerPoint - x))) eqn:E.
    + apply Qltb_spec in E. split; [cbn [snd]; rewrite length_app; cbn [length]; lia |].
      rewrite Hcons. rewrite <- Hcons.
      exists y. cbn [fst snd]. rewrite Nat2Z.id.
      split; [lia |].
      split; [by rewrite lookup_app_r, Nat.sub_diag by lia |].
      split; [reflexivity |].
      intros j w Hj. destruct (decide (j < length l')%nat) as [Hlt | Hge].
      * rewrite lookup_app_l in Hj by exact Hlt.
        destruct (Hall j w Hj) as [Hle _]. split; [lra | intros _; lra].
      * rewrite lookup_app_r in Hj by lia.
        destruct (j - length l')%nat eqn:Ej; cbn in Hj; [| discriminate].
        inversion Hj; subst w. split; [apply Qle_refl | lia].
    + apply Qltb_false in E. split; [cbn [snd]; rewrite length_app; cbn [length]; lia |].
      rewrite Hcons. rewrite <- Hcons.
      exists x. cbn [fst snd].
      split; [exact H0 |].
      split; [by rewrite lookup_app_l by exact Hlen |].
      split; [reflexivity |].
      intros j w Hj. destruct (decide (j < length l')%nat) as [Hlt | Hge].
      * rewrite lookup_app_l in Hj by exact Hlt. by apply Hall.
      * rewrite lookup_app_r in Hj by lia.
        destruct (j - length l')%nat eqn:Ej; cbn in Hj; [| discriminate].
        inversion Hj; subst w. split; [exact E | lia].
Qed.

(** The index that the search returns: in range, nearest, and the first
    among the nearest. *)
Lemma closestIndex_nearest (centerPoint : Q) (l : list Q) :
  l <> [] ->
  exists x,
    (0 <= closestIndex centerPoint l < Z.of_nat (length l))%Z /\
    l !! Z.to_nat (closestIndex centerPoint l) = Some x /\
    forall (j : nat) y, l !! j = Some y ->
      Qabs (centerPoint - x) <= Qabs (centerPoint - y) /\
      ((j < Z.to_nat (closestIndex centerPoint l))%nat ->
       Qabs (centerPoint - x) < Qabs (centerPoint - y)).
Proof.
  intros Hne. destruct (closestIndex_searched centerPoint l) as (acc & -> & _ & H).
  destruct l as [| z l]; [done |].
  destruct H as (x & H0 & Hx & _ & Hall).
  exists x. split; [| by split].
  split; [exact H0 |]. apply lookup_lt_Some in Hx. lia.
Qed.


End Closest.

Section Row.
Local Open Scope Q_scope.

Lemma length_offsetsFrom (x g : Q) (l : list Slide) :
  length (offsetsFrom x g l) = length l.
Proof. revert x. induction l as [| s l IH]; intros x; simpl; [done | by rewrite IH]. Qed.

Lemma stripWidth_app (g : Q) (l1 l2 : list Slide) :
  stripWidth g (l1 ++ l2) == stripWidth g l1 + stripWidth g l2.
Proof.
  induction l1 as [| s l1 IH]; simpl; [ring |].
  unfold stripWidth in *. simpl. rewrite IH. ring.
Qed.

Lemma stripWidth_nonneg (g : Q) (l : list Slide) :
  0 <= g -> Forall (fun s => 0 < offsetWidth s) l -> 0 <= stripWidth g l.
Proof.
  intros Hg. induction 1 as [| s l Hs _ IH]; simpl; [apply Qle_refl |].
  unfold stripWidth in *. simpl. lra.
Qed.

(** [offsetLeft] of the element at place [k]: the start of the row plus
    what stands before it. *)
Lemma nth_offsetsFrom (x g : Q) (l : list Slide) (k : nat) :
  (k < length l)%nat ->
  nth k (offsetsFrom x g l) 0 == x + stripWidth g (take k l).
Proof.
  revert x k. induction l as [| s l IH]; intros x k Hk; simpl in Hk; [lia |].
  destruct k as [| k]; simpl.
  - unfold stripWidth. simpl. ring.
  - rewrite IH by lia. unfold stripWidth. simpl. ring.
Qed.

Lemma nth_offsetsFrom_later (x g : Q) (l : list Slide) (j k : nat) (sj : Slide) :
  0 <= g -> Forall (fun s => 0 < offsetWidth s) l ->
  (j < k)%nat -> (k < length l)%nat -> l !! j = Some sj ->
  nth j (offsetsFrom x g l) 0 + offsetWidth sj + g <= nth k (offsetsFrom x g l) 0.
Proof.
  intros Hg Hall Hjk Hk Hj.
  rewrite !nth_offsetsFrom by lia.
  assert (E : take k l = take j l ++ sj :: take (k - j - 1) (drop (S j) l)).
  { rewrite <- (take_drop j (take k l)) at 1.
    rewrite take_take, Nat.min_l by lia. f_equal.
    replace (drop j (take k l)) with (drop j (take (j + (k - j)) l))
      by (f_equal; f_equal; lia).
    rewrite <- take_drop_commute, (drop_S l sj j Hj).
    destruct (k - j)%nat as [| d] eqn:Ed; [lia |].
    simpl. by rewrite Nat.sub_0_r. }
  rewrite E, stripWidth_app.
  assert (H0 : 0 <= stripWidth g (take (k - j - 1) (drop (S j) l))).
  { apply stripWidth_nonneg; [exact Hg |].
    apply Forall_take, Forall_drop. exact Hall. }
  unfold stripWidth in *. simpl. lra.
Qed.

End Row.

Section Centre.
Import InfiniteScroll.
Local Open Scope Q_scope.

(** The centres that [findCurrentCenterSlideIndex] compares. *)
Lemma lookup_centres (c : Context) (j : nat) :
  imap (fun i slide => offsetLeftAt c i + offsetWidth slide / 2 - trackPaddingLeft c)
       (slidesToUse c) !! j =
  (fun slide => offsetLeftAt c j + offsetWidth slide / 2 - trackPaddingLeft c)
    <$> slidesToUse c !! j.
Proof. apply list_lookup_imap. Qed.

Lemma Qabs_zero (x : Q) : Qabs x <= 0 -> x == 0.
Proof.
  intros H. pose proof (Qabs_nonneg x). pose proof (Qle_Qabs x).
  pose proof (Qle_Qabs (- x)) as H2. rewrite Qabs_opp in H2. lra.
Qed.

(** In a row of slides of positive width the centres grow from left to
    right. *)
Lemma centres_increase (c : Context) (j k : nat) (sj sk : Slide) :
  0 <= gap (currentOptions c) ->
  Forall (fun s => 0 < offsetWidth s) (trackChildren c) ->
  (j < k)%nat ->
  trackChildren c !! j = Some sj -> trackChildren c !! k = Some sk ->
  offsetLeftAt c j + offsetWidth sj / 2 < offsetLeftAt c k + offsetWidth sk / 2.
Proof.
  intros Hg Hall Hjk Hj Hk. unfold offsetLeftAt, offsetLefts.
  pose proof (nth_offsetsFrom_later (trackPaddingLeft c) _ _ j k sj Hg Hall Hjk
                (lookup_lt_Some _ _ _ Hk) Hj) as H.
  rewrite Forall_forall in Hall.
  pose proof (Hall sj (list_elem_of_lookup_2 _ _ _ Hj)).
  pose proof (Hall sk (list_elem_of_lookup_2 _ _ _ Hk)).
  rewrite !Qhalf. lra.
Qed.

End Centre.

Lemma findCurrentCenterSlideIndex_found (c : Context) :
  let centerPoint := (scrollLeft c + InfiniteScroll.visibleTrackWidth c / 2)%Q in
  let slideCenter (i : nat) (slide : Slide) :=
    (offsetLeftAt c i + offsetWidth slide / 2 - trackPaddingLeft c)%Q in
  let found := InfiniteScroll.findCurrentCenterSlideIndex c in
  (slidesToUse c = [] -> found = 0%Z) /\
  (slidesToUse c <> [] ->
   exists slide,
     (0 <= found)%Z /\ slidesToUse c !! Z.to_nat found = Some slide /\
     forall j other, slidesToUse c !! j = Some other ->
       (Qabs (centerPoint - slideCenter (Z.to_nat found) slide)
        <= Qabs (centerPoint - slideCenter j other))%Q /\
       ((j < Z.to_nat found)%nat ->
        (Qabs (centerPoint - slideCenter (Z.to_nat found) slide)
         < Qabs (centerPoint - slideCenter j other))%Q)).
Proof.
  intros centerPoint slideCenter found. subst found.
  unfold InfiniteScroll.findCurrentCenterSlideIndex. fold centerPoint. split.
  - intros ->. reflexivity.
  - intros Hne.
    set (centres := imap _ (slidesToUse c)).
    destruct (closestIndex_nearest centerPoint centres) as (x & [H0 H1] & Hx & Hall).
    { subst centres. destruct (slidesToUse c); [done | discriminate]. }
    subst centres. rewrite lookup_centres in Hx.
    destruct (slidesToUse c !! _) as [slide |] eqn:Hslide; [| discriminate].
    inversion Hx; subst x. exists slide. split; [exact H0 |]. split; [reflexivity |].
    intros j other Hj. apply (Hall j). by rewrite lookup_centres, Hj.
Qed.

(** X12. [findCurrentCenterSlideIndex] returns 0 when [slidesToUse] is
    empty; otherwise the index of an element whose centre is nearest to
    the centre of the visible track, and the first of those. *)
Theorem findCurrentCenterSlideIndex_nearest (c : Context) :
  let centerPoint := (scrollLeft c + InfiniteScroll.visibleTrackWidth c / 2)%Q in
  let slideCenter (i : nat) (slide : Slide) :=
    (offsetLeftAt c i + offsetWidth slide / 2 - trackPaddingLeft c)%Q in
  let found := InfiniteScroll.findCurrentCenterSlideIndex c in
  (slidesToUse c = [] -> found = 0%Z) /\
  (slidesToUse c <> [] ->
   exists slide,
     (0 <= found)%Z /\ slidesToUse c !! Z.to_nat found = Some slide /\
     forall j other, slidesToUse c !! j = Some other ->
       (Qabs (centerPoint - slideCenter (Z.to_nat found) slide)
        <= Qabs (centerPoint - slideCenter j other))%Q /\
       ((j < Z.to_nat found)%nat ->
        (Qabs (centerPoint - slideCenter (Z.to_nat found) slide)
         < Qabs (centerPoint - slideCenter j other))%Q)).
Proof. apply findCurrentCenterSlideIndex_found. Qed.

Lemma findCurrentCenterSlideIndex_nearest_witness :
  exists c, infiniteNearLeftEnd = Ok c /\ InfiniteScroll.findCurrentCenterSlideIndex c = 2%Z.
Proof.
  assert (H : exists c, infiniteNearLeftEnd = Ok c /\
                        InfiniteScroll.findCurrentCenterSlideIndex c = 2%Z)
    by (eexists; split; vm_compute; reflexivity).
  destruct H as (c & Hc & Hfound). exists c. split; [exact Hc |].
  destruct (proj2 (findCurrentCenterSlideIndex_nearest c)) as (slide & H0 & _).
  - intros E. revert Hfound. unfold InfiniteScroll.findCurrentCenterSlideIndex.
    rewrite E. discriminate.
  - exact Hfound.
Defined.

(** X13. [goToCenterSlide] does nothing for an index outside
    [slidesToUse]; for an index inside it requests the scroll offset that
    puts the centre of that slide on the centre of the visible track, and
    once the track is at that offset (the strip being [slidesToUse], the
    gap not negative, the slides of positive width)
    [findCurrentCenterSlideIndex] returns that index. *)
Theorem goToCenterSlide_centres (c : Context) (slideIndex : Z) :
  ((slideIndex < 0 \/ Z.of_nat (length (slidesToUse c)) <= slideIndex)%Z ->
   InfiniteScroll.goToCenterSlide slideIndex c = c) /\
  (forall slide,
      (0 <= slideIndex)%Z -> slidesToUse c !! Z.to_nat slideIndex = Some slide ->
      let target :=
        (offsetLeftAt c (Z.to_nat slideIndex) - trackPaddingLeft c
         - InfiniteScroll.visibleTrackWidth c / 2 + offsetWidth slide / 2)%Q in
      InfiniteScroll.goToCenterSlide slideIndex c = scrollTo (Some target) c /\
      (slidesToUse c = trackChildren c ->
       (0 <= gap (currentOptions c))%Q ->
       Forall (fun s => (0 < offsetWidth s)%Q) (trackChildren c) ->
       InfiniteScroll.findCurrentCenterSlideIndex
         (set_scrollLeft target (InfiniteScroll.goToCenterSlide slideIndex c))
       = slideIndex)).
Proof.
  split.
  - intros H. unfold InfiniteScroll.goToCenterSlide.
    destruct (Z.ltb_spec slideIndex 0); [reflexivity |].
    destruct (Z.leb_spec (Z.of_nat (length (slidesToUse c))) slideIndex); [reflexivity |].
    lia.
  - intros slide H0 Hslide target.
    assert (Hgo : InfiniteScroll.goToCenterSlide slideIndex c = scrollTo (Some target) c).
    { unfold InfiniteScroll.goToCenterSlide.
      pose proof (lookup_lt_Some _ _ _ Hslide) as Hlt.
      destruct (Z.ltb_spec slideIndex 0); [lia |].
      destruct (Z.leb_spec (Z.of_nat (length (slidesToUse c))) slideIndex); [lia |].
      simpl. unfold nthZ.
      destruct (Z.ltb_spec slideIndex 0); [lia |]. by rewrite Hslide. }
    split; [exact Hgo |].
    intros Hsnap Hg Hall. rewrite Hgo.
    set (c' := set_scrollLeft target (scrollTo (Some target) c)).
    destruct (proj2 (findCurrentCenterSlideIndex_found c')) as (other & Hf0 & Hother & Hnear).
    { change (slidesToUse c') with (slidesToUse c). intros E. by rewrite E in Hslide. }
    change (slidesToUse c') with (slidesToUse c) in Hother, Hnear.
    destruct (Hnear (Z.to_nat slideIndex) slide Hslide) as [Hle _].
    change (offsetLeftAt c') with (offsetLeftAt c) in Hle.
    change (trackPaddingLeft c') with (trackPaddingLeft c) in Hle.
    change (InfiniteScroll.visibleTrackWidth c') with (InfiniteScroll.visibleTrackWidth c)
      in Hle.
    change (scrollLeft c') with target in Hle.
    set (r := InfiniteScroll.findCurrentCenterSlideIndex c') in *.
    assert (Hzero : (target + InfiniteScroll.visibleTrackWidth c / 2
                     - (offsetLeftAt c (Z.to_nat slideIndex) + offsetWidth slide / 2
                        - trackPaddingLeft c) == 0)%Q)
      by (subst target; rewrite !Qhalf; ring).
    rewrite Hzero in Hle. change (Qabs 0) with 0%Q in Hle.
    apply Qabs_zero in Hle.
    rewrite Hsnap in Hother, Hslide.
    destruct (Nat.lt_trichotomy (Z.to_nat r) (Z.to_nat slideIndex)) as [Hlt | [Heq | Hgt]].
    + pose proof (centres_increase c _ _ _ _ Hg Hall Hlt Hother Hslide). exfalso.
      clearbody r target. rewrite !Qhalf in *. lra.
    + lia.
    + pose proof (centres_increase c _ _ _ _ Hg Hall Hgt Hslide Hother). exfalso.
      clearbody r target. rewrite !Qhalf in *. lra.
Qed.

Lemma goToCenterSlide_centres_witness :
  slidesToUse (construct (mkOptions 1 1 true false true false 3000 24 0) 3 300 300)
    !! Z.to_nat 1 = Some (mkSlide 1 RealSlide None 300) /\
  InfiniteScroll.goToCenterSlide 1
    (construct (mkOptions 1 1 true false true false 3000 24 0) 3 300 300)
  = scrollTo (Some (324 - 0 - (300 - 0 - 0) / 2 + 300 / 2)%Q)
      (construct (mkOptions 1 1 true false true false 3000 24 0) 3 300 300).
Proof.
  split; [reflexivity |].
  exact (proj1 (proj2 (goToCenterSlide_centres
                         (construct (mkOptions 1 1 true false true false 3000 24 0)
                            3 300 300) 1)
                  (mkSlide 1 RealSlide None 300) ltac:(lia) eq_refl)).
Defined.

(** ** Teleporting again and again *)

Section Teleports.
Import InfiniteScroll.
Local Open Scope Q_scope.

Lemma handleInfiniteScroll_result (c : Context) (first : Slide) (rest : list Slide)
    (p : Q) :
  infiniteScrollSetup c = true -> slides c = first :: rest ->
  nthZ (slidePositions c) (initialCloneCount c + totalSlides c) = Some p ->
  let slideWidth := offsetWidth first + gap (currentOptions c) in
  let cycle := inject_Z (totalSlides c) * slideWidth in
  handleInfiniteScroll c =
    Ok (if Qleb (scrollLeft c) (slideWidth * 2)
        then seamlessJump (scrollLeft c + cycle) c
        else if Qleb (p - slideWidth * 2) (scrollLeft c)
             then seamlessJump (scrollLeft c - cycle) c
             else c).
Proof.
  intros Hsetup Hslides Hp slideWidth cycle. unfold handleInfiniteScroll.
  rewrite Hsetup, Hslides, Hp. simpl.
  fold slideWidth. fold cycle.
  destruct (Qleb (scrollLeft c) (slideWidth * 2)); [reflexivity |].
  destruct (Qleb (p - slideWidth * 2) (scrollLeft c)); reflexivity.
Qed.

Lemma seamlessJump_sameGeometry (x : Q) (c c0 : Context) :
  sameGeometry c0 c -> sameGeometry c0 (seamlessJump x c).
Proof. intros H. exact H. Qed.

End Teleports.

(** X14. With three real items or more, five clones or more on each
    side and the element after the real items at the offset that a row of
    equal slides gives it, one call of [handleInfiniteScroll] of
    modules/infinite-scroll.js settles the strip, from every offset from 0
    up to one cycle beyond the right boundary: a second call changes
    nothing. *)
Theorem handleInfiniteScroll_settles
    (c : Context) (first : Slide) (rest : list Slide) (p : Q) :
  infiniteScrollSetup c = true -> slides c = first :: rest ->
  nthZ (slidePositions c) (initialCloneCount c + totalSlides c) = Some p ->
  let slideWidth := (offsetWidth first + gap (currentOptions c))%Q in
  let cycle := (inject_Z (totalSlides c) * slideWidth)%Q in
  (0 < slideWidth)%Q ->
  (p == inject_Z (initialCloneCount c + totalSlides c) * slideWidth)%Q ->
  (3 <= totalSlides c)%Z -> (5 <= initialCloneCount c)%Z ->
  (0 <= scrollLeft c)%Q -> (scrollLeft c < p - slideWidth * 2 + cycle)%Q ->
  exists c1,
    InfiniteScroll.handleInfiniteScroll c = Ok c1 /\
    InfiniteScroll.handleInfiniteScroll c1 = Ok c1.
Proof.
  intros Hsetup Hslides Hp slideWidth cycle Hsw Hpos HT Hm Hx0 Hx1.
  rewrite (handleInfiniteScroll_result c first rest p Hsetup Hslides Hp).
  fold slideWidth. fold cycle. eexists. split; [reflexivity |].
  assert (HTq : (3 * slideWidth <= cycle)%Q).
  { subst cycle. apply Qmult_le_compat_r; [| lra].
    change 3%Q with (inject_Z 3). rewrite <- Zle_Qle. exact HT. }
  assert (Hmq : (5 * slideWidth + cycle <= p)%Q).
  { rewrite Hpos, inject_Z_plus, Qmult_plus_distr_l. fold cycle.
    apply Qplus_le_l. apply Qmult_le_compat_r; [| lra].
    change 5%Q with (inject_Z 5). rewrite <- Zle_Qle. exact Hm. }
  assert (Hnext : forall x,
            InfiniteScroll.handleInfiniteScroll (InfiniteScroll.seamlessJump x c) =
              Ok (if Qleb x (slideWidth * 2)
                  then InfiniteScroll.seamlessJump (x + cycle)
                         (InfiniteScroll.seamlessJump x c)
                  else if Qleb (p - slideWidth * 2) x
                       then InfiniteScroll.seamlessJump (x - cycle)
                              (InfiniteScroll.seamlessJump x c)
                       else InfiniteScroll.seamlessJump x c)).
  { intros x.
    exact (handleInfiniteScroll_result (InfiniteScroll.seamlessJump x c) first rest p
             Hsetup Hslides Hp). }
  pose proof (handleInfiniteScroll_result c first rest p Hsetup Hslides Hp) as Hhere.
  cbv zeta in Hhere. fold slideWidth in Hhere. fold cycle in Hhere.
  clearbody cycle slideWidth. clear Hpos.
  destruct (Qleb (scrollLeft c) (slideWidth * 2)) eqn:El.
  - apply Qleb_spec in El. rewrite Hnext.
    rewrite (proj2 (Qleb_false (scrollLeft c + cycle) (slideWidth * 2))) by lra.
    rewrite (proj2 (Qleb_false (p - slideWidth * 2) (scrollLeft c + cycle))) by lra.
    reflexivity.
  - apply Qleb_false in El.
    destruct (Qleb (p - slideWidth * 2) (scrollLeft c)) eqn:Er.
    + apply Qleb_spec in Er. rewrite Hnext.
      rewrite (proj2 (Qleb_false (scrollLeft c - cycle) (slideWidth * 2))) by lra.
      rewrite (proj2 (Qleb_false (p - slideWidth * 2) (scrollLeft c - cycle))) by lra.
      reflexivity.
    + apply Qleb_false in Er.
      exact Hhere.
Qed.

Lemma handleInfiniteScroll_settles_witness :
  exists c c1,
    infiniteNearLeftEnd = Ok c /\
    InfiniteScroll.handleInfiniteScroll c = Ok c1 /\
    InfiniteScroll.handleInfiniteScroll c1 = Ok c1.
Proof.
  assert (H : exists c first rest p,
             infiniteNearLeftEnd = Ok c /\ infiniteScrollSetup c = true /\
             slides c = first :: rest /\
             nthZ (slidePositions c) (initialCloneCount c + totalSlides c) = Some p /\
             offsetWidth first = 282%Q /\ gap (currentOptions c) = 24%Q /\
             totalSlides c = 5%Z /\ initialCloneCount c = 8%Z /\
             scrollLeft c = 100%Q /\ p = 3978%Q).
  { do 4 eexists. split; [vm_compute; reflexivity |]. vm_compute. repeat split. }
  destruct H as (c & first & rest & p & Hc & Hsetup & Hslides & Hp & Hw & Hg & Ht & Hm
                 & Hx & Hpv).
  destruct (handleInfiniteScroll_settles c first rest p Hsetup Hslides Hp)
    as (c1 & H1 & H2).
  - rewrite Hw, Hg. reflexivity.
  - rewrite Hw, Hg, Ht, Hm, Hpv. vm_compute. reflexivity.
  - rewrite Ht. lia.
  - rewrite Hm. lia.
  - rewrite Hx. discriminate.
  - rewrite Hw, Hg, Ht, Hx, Hpv. vm_compute. reflexivity.
  - exists c, c1. by repeat split.
Defined.

Section Oscillation.
Import InfiniteScroll.
Local Open Scope Q_scope.

Lemma handleInfiniteScroll_back_and_forth
    (c0 : Context) (first : Slide) (rest : list Slide) (p x : Q) (n : nat) :
  infiniteScrollSetup c0 = true -> slides c0 = first :: rest ->
  nthZ (slidePositions c0) (initialCloneCount c0 + totalSlides c0) = Some p ->
  let slideWidth := offsetWidth first + gap (currentOptions c0) in
  let cycle := inject_Z (totalSlides c0) * slideWidth in
  x <= slideWidth * 2 -> slideWidth * 2 < x + cycle -> p - slideWidth * 2 <= x + cycle ->
  forall c, sameGeometry c0 c ->
    (scrollLeft c == x -> 
     exists c', repeatedly n handleInfiniteScroll c = Ok c' /\
                scrollLeft c' == (if Nat.even n then x else x + cycle)) /\
    (scrollLeft c == x + cycle -> 
     exists c', repeatedly n handleInfiniteScroll c = Ok c' /\
                scrollLeft c' == (if Nat.even n then x + cycle else x)).
Proof.
  intros Hsetup Hslides Hp slideWidth cycle Hl Hr1 Hr2.
  induction n as [| n IH]; intros c Hc.
  - split; intros Hx; exists c; by split.
  - destruct Hc as (H1 & H2 & H3 & H4 & H5 & H6).
    pose proof (handleInfiniteScroll_result c first rest p) as Hrun.
    rewrite H1, H2, H3, H4, H5, H6 in Hrun.
    specialize (Hrun Hsetup Hslides Hp). cbv zeta in Hrun.
    fold slideWidth in Hrun. fold cycle in Hrun.
    assert (Hgeo : forall y, sameGeometry c0 (seamlessJump y c)) by (intros y; by repeat split).
    rewrite Nat.even_succ, <- Nat.negb_even.
    clearbody cycle slideWidth.
    split; intros Hx; cbn [repeatedly]; rewrite Hrun; cbn [mbind result_bind].
    + rewrite (proj2 (Qleb_spec (scrollLeft c) (slideWidth * 2))) by (rewrite Hx; lra).
      destruct (proj2 (IH (seamlessJump (scrollLeft c + cycle) c) (Hgeo _)))
        as (c' & Hrep & Hc').
      { change (scrollLeft (seamlessJump ?y c)) with y. by rewrite Hx. }
      exists c'. split; [exact Hrep |]. rewrite Hc'. by destruct (Nat.even n).
    + rewrite (proj2 (Qleb_false (scrollLeft c) (slideWidth * 2))) by (rewrite Hx; lra).
      rewrite (proj2 (Qleb_spec (p - slideWidth * 2) (scrollLeft c)))
        by (rewrite Hx; lra).
      destruct (proj1 (IH (seamlessJump (scrollLeft c - cycle) c) (Hgeo _)))
        as (c' & Hrep & Hc').
      { change (scrollLeft (seamlessJump ?y c)) with y. rewrite Hx. ring. }
      exists c'. split; [exact Hrep |]. rewrite Hc'. by destruct (Nat.even n).
Qed.

End Oscillation.

(** X15. When the strip is so short that one cycle beyond an offset
    within the left boundary is at or beyond the right boundary, every
    call of [handleInfiniteScroll] teleports: after [n] calls the offset
    is the first one for even [n] and one cycle further for odd [n]. *)
Theorem handleInfiniteScroll_oscillates
    (c : Context) (first : Slide) (rest : list Slide) (p : Q) (n : nat) :
  infiniteScrollSetup c = true -> slides c = first :: rest ->
  nthZ (slidePositions c) (initialCloneCount c + totalSlides c) = Some p ->
  let slideWidth := (offsetWidth first + gap (currentOptions c))%Q in
  let cycle := (inject_Z (totalSlides c) * slideWidth)%Q in
  (scrollLeft c <= slideWidth * 2)%Q ->
  (slideWidth * 2 < scrollLeft c + cycle)%Q ->
  (p - slideWidth * 2 <= scrollLeft c + cycle)%Q ->
  exists c',
    repeatedly n InfiniteScroll.handleInfiniteScroll c = Ok c' /\
    (scrollLeft c' == if Nat.even n then scrollLeft c else scrollLeft c + cycle)%Q.
Proof.
  intros Hsetup Hslides Hp slideWidth cycle Hl Hr1 Hr2.
  apply (proj1 (handleInfiniteScroll_back_and_forth c first rest p (scrollLeft c) n
                  Hsetup Hslides Hp Hl Hr1 Hr2 c ltac:(by repeat split))).
  reflexivity.
Qed.

Lemma handleInfiniteScroll_oscillates_witness :
  exists c c',
    infiniteThree = Ok c /\
    repeatedly 7 InfiniteScroll.handleInfiniteScroll c = Ok c' /\
    (scrollLeft c' == 324 + 3 * 324)%Q.
Proof.
  assert (H : exists c first rest p,
             infiniteThree = Ok c /\ infiniteScrollSetup c = true /\
             slides c = first :: rest /\
             nthZ (slidePositions c) (initialCloneCount c + totalSlides c) = Some p /\
             offsetWidth first = 300%Q /\ gap (currentOptions c) = 24%Q /\
             totalSlides c = 3%Z /\ scrollLeft c = 324%Q /\ p = 1944%Q).
  { do 4 eexists. split; [vm_compute; reflexivity |]. vm_compute. repeat split. }
  destruct H as (c & first & rest & p & Hc & Hsetup & Hslides & Hp & Hw & Hg & Ht
                 & Hx & Hpv).
  destruct (handleInfiniteScroll_oscillates c first rest p 7 Hsetup Hslides Hp)
    as (c' & Hrun & Hc').
  - rewrite Hw, Hg, Hx. vm_compute. discriminate.
  - rewrite Hw, Hg, Ht, Hx. vm_compute. reflexivity.
  - rewrite Hw, Hg, Ht, Hx, Hpv. vm_compute. discriminate.
  - exists c, c'. split; [exact Hc |]. split; [exact Hrun |].
    rewrite Hc'. rewrite Hw, Hg, Ht, Hx. vm_compute. reflexivity.
Defined.

(** ** The setup of infinite mode *)

Section Frame.
Local Open Scope Z_scope.

(** A cloning loop changes the strip and nothing else. *)
Lemma for_each_strip_only (idx : list Z) (body : Z -> Context -> result Context)
    (c c' : Context) :
  (forall i c1 c2, body i c1 = Ok c2 ->
     exists x, c2 = appendChild x c1 \/ c2 = insertFirst x c1) ->
  for_each idx body c = Ok c' ->
  c' = set_trackChildren (trackChildren c') c.
Proof.
  intros Hbody Hrun.
  apply (for_each_counted (fun _ c1 => c1 = set_trackChildren (trackChildren c1) c))
    in Hrun; [exact Hrun | by destruct c |].
  intros k i c1 c2 Hc1 Hb. destruct (Hbody i c1 c2 Hb) as (x & [-> | ->]);
    rewrite Hc1; reflexivity.
Qed.

Lemma setupTrueInfinite_frame (c c' : Context) :
  InfiniteScroll.setupTrueInfinite c = Ok c' ->
  c' = snd (setTimeout (InitialPosition (clonesNeeded c)) 10
              (set_allSlides (Some (trackChildren c'))
                 (set_trackChildren (trackChildren c')
                    (set_initialCloneCount (clonesNeeded c) c)))).
Proof.
  unfold InfiniteScroll.setupTrueInfinite, clonesNeeded.
  destruct (slides c) as [| first rest] eqn:Hslides; [discriminate |]. cbv zeta.
  set (n := Z.max _ _).
  destruct (for_each _ _ (set_initialCloneCount n c)) as [c1 |] eqn:H1; simpl;
    [| discriminate].
  destruct (for_each _ _ c1) as [c2 |] eqn:H2; simpl; [| discriminate].
  intros [= <-].
  apply for_each_strip_only in H1, H2.
  - rewrite H2, H1. reflexivity.
  - intros i ca cb. destruct (nthZ _ _); [| discriminate]. intros [= <-].
    eexists. by right.
  - intros i ca cb. destruct (nthZ _ _); [| discriminate]. intros [= <-].
    eexists. by left.
Qed.

End Frame.

Section Again.
Local Open Scope Z_scope.

Lemma countClass_all (k : slideClass) (l : list Slide) :
  Forall (fun s => cls s = k) l -> countClass k l = length l.
Proof. intros H. unfold countClass. by rewrite filter_all. Qed.

Lemma copies_are_clones (sl l : list Slide) (F : nat -> Z) :
  (forall i, (i < length l)%nat -> exists x, l !! i = Some x /\ copyOf sl (F i) x) ->
  Forall (fun s => cls s = InfiniteClone) l.
Proof.
  intros H. apply Forall_lookup. intros i x Hx.
  destruct (H i (lookup_lt_Some _ _ _ Hx)) as (y & Hy & s & _ & _ & Hc & _). congruence.
Qed.

(** One setup of the infinite mode: it returns, the instance is the same
    but for the strip, the snapshot, the clone count and the timer, and
    the strip has [clonesNeeded] more clones on each side. *)
Lemma setupTrueInfinite_adds (c : Context) (first : Slide) (rest : list Slide) :
  slides c = first :: rest -> totalSlides c = Z.of_nat (length (slides c)) ->
  (0 < offsetWidth first + gap (currentOptions c))%Q ->
  exists c' pre post,
    InfiniteScroll.setupTrueInfinite c = Ok c' /\
    c' = snd (setTimeout (InitialPosition (clonesNeeded c)) 10
                (set_allSlides (Some (trackChildren c'))
                   (set_trackChildren (trackChildren c')
                      (set_initialCloneCount (clonesNeeded c) c)))) /\
    trackChildren c' = pre ++ trackChildren c ++ post /\
    length pre = Z.to_nat (clonesNeeded c) /\ length post = Z.to_nat (clonesNeeded c) /\
    Forall (fun s => cls s = InfiniteClone) pre /\
    Forall (fun s => cls s = InfiniteClone) post /\
    totalSlides c <= clonesNeeded c.
Proof.
  intros Hslides Htotal Hpos.
  destruct (setupTrueInfinite_strip c first rest Hslides Htotal Hpos)
    as (c' & pre & post & Hrun & _ & Hstrip & Hpre & Hpost & Hcpre & Hcpost).
  assert (Hn : clonesNeeded c =
               Z.max (totalSlides c)
                 (Qceiling (containerOffsetWidth c
                            / (offsetWidth first + gap (currentOptions c))) * 2))
    by (unfold clonesNeeded; by rewrite Hslides).
  rewrite <- Hn in Hpre, Hpost, Hcpre, Hcpost.
  exists c', pre, post. split; [exact Hrun |].
  split; [by apply setupTrueInfinite_frame |].
  split; [exact Hstrip |]. split; [exact Hpre |]. split; [exact Hpost |].
  split; [| split; [| lia]].
  - apply (copies_are_clones (slides c) pre
             (fun i => totalSlides c - 1
                       - Z.of_nat (Z.to_nat (clonesNeeded c) - 1 - i) mod totalSlides c)).
    intros i Hi. rewrite Hpre in Hi.
    destruct (Hcpre (Z.to_nat (clonesNeeded c) - 1 - i)%nat ltac:(lia)) as (x & Hx & Hc).
    exists x. split; [| exact Hc]. rewrite <- Hx. f_equal. lia.
  - apply (copies_are_clones (slides c) post (fun j => Z.of_nat j mod totalSlides c)).
    intros j Hj. rewrite Hpost in Hj. by apply Hcpost.
Qed.

Lemma setupLoopMode_infinite (c : Context) :
  infinite (currentOptions c) = true -> slidesToShow (currentOptions c) < totalSlides c ->
  Slider.setupLoopMode c = InfiniteScroll.setupTrueInfinite c.
Proof.
  intros Hinf Hshow. unfold Slider.setupLoopMode. cbv zeta.
  by rewrite Hinf, (proj2 (Z.ltb_lt _ _) Hshow).
Qed.

End Again.

(** X16. In infinite mode every run of the last statement of
    [setupSlides] of version 0.0.2 adds another [2 * clonesNeeded] clones
    to the strip, [clonesNeeded] being at least the number of real items;
    [k] runs one after the other add [k] times as many and leave the real
    items as they are. *)
Theorem setupLoopMode_adds_clones_every_time
    (c : Context) (first : Slide) (rest : list Slide) (k : nat) :
  infinite (currentOptions c) = true ->
  slides c = first :: rest -> totalSlides c = Z.of_nat (length (slides c)) ->
  (0 < offsetWidth first + gap (currentOptions c))%Q ->
  (slidesToShow (currentOptions c) < totalSlides c)%Z ->
  exists c',
    repeatedly k Slider.setupLoopMode c = Ok c' /\
    countClass InfiniteClone (trackChildren c') =
      (countClass InfiniteClone (trackChildren c) + k * (2 * Z.to_nat (clonesNeeded c)))%nat /\
    (totalSlides c <= clonesNeeded c)%Z /\
    filter (fun s => cls s = RealSlide) (trackChildren c') =
      filter (fun s => cls s = RealSlide) (trackChildren c).
Proof.
  intros Hinf Hslides Htotal Hpos Hshow.
  assert (Hge : (totalSlides c <= clonesNeeded c)%Z)
    by (unfold clonesNeeded; rewrite Hslides; lia).
  revert c Hinf Hslides Htotal Hpos Hshow Hge.
  induction k as [| k IH]; intros c Hinf Hslides Htotal Hpos Hshow Hge.
  - exists c. repeat split; [simpl; lia | exact Hge].
  - cbn [repeatedly]. rewrite (setupLoopMode_infinite c Hinf Hshow).
    destruct (setupTrueInfinite_adds c first rest Hslides Htotal Hpos)
      as (c1 & pre & post & Hrun & Hframe & Hstrip & Hpre & Hpost & Hcpre & Hcpost & _).
    rewrite Hrun. cbn [mbind result_bind].
    assert (Hsame : currentOptions c1 = currentOptions c /\ slides c1 = slides c /\
                    totalSlides c1 = totalSlides c /\
                    containerOffsetWidth c1 = containerOffsetWidth c)
      by (rewrite Hframe; repeat split).
    destruct Hsame as (Ho & Hs & Ht & Hw).
    assert (Hn : clonesNeeded c1 = clonesNeeded c)
      by (unfold clonesNeeded; by rewrite Ho, Hs, Ht, Hw).
    destruct (IH c1) as (c' & Hrep & Hcount & _ & Hreal).
    { by rewrite Ho. } { by rewrite Hs. } { by rewrite Hs, Ht. }
    { by rewrite Ho. } { by rewrite Ho, Ht. } { by rewrite Hn, Ht. }
    exists c'. split; [exact Hrep |]. split; [| split; [exact Hge |]].
    + rewrite Hcount, Hn, Hstrip, !countClass_app.
      rewrite (countClass_all _ pre Hcpre), (countClass_all _ post Hcpost). lia.
    + rewrite Hreal, Hstrip, !filter_app.
      rewrite (filter_none _ pre), (filter_none _ post).
      * by rewrite app_nil_r.
      * eapply Forall_impl; [exact Hcpost |]. simpl. intros x Hx. congruence.
      * eapply Forall_impl; [exact Hcpre |]. simpl. intros x Hx. congruence.
Qed.

Lemma setupLoopMode_adds_clones_every_time_witness :
  exists c',
    repeatedly 3 Slider.setupLoopMode
      (construct (mkOptions 4 1 true false false false 3000 24 0) 5 282 1200) = Ok c' /\
    countClass InfiniteClone (trackChildren c') = 48%nat.
Proof.
  destruct (setupLoopMode_adds_clones_every_time
              (construct (mkOptions 4 1 true false false false 3000 24 0) 5 282 1200)
              _ _ 3 eq_refl eq_refl)
    as (c' & Hrun & Hcount & _);
    [reflexivity | reflexivity | reflexivity |].
  exists c'. split; [exact Hrun |]. rewrite Hcount. vm_compute. reflexivity.
Defined.

Section Positioning.
Import InfiniteScroll.
Local Open Scope Q_scope.

(** The positioning callback outside centre mode. *)
Lemma initialPosition_result (clonesNeeded : Z) (c : Context) (all : list Slide) :
  allSlides c = Some all -> centerMode (currentOptions c) = false ->
  let slidePositions := imap (fun i _ => offsetLeftAt c i - trackPaddingLeft c) all in
  let startIndex := (clonesNeeded + startSlide (currentOptions c))%Z in
  initialPosition clonesNeeded c =
    Ok (set_infiniteScrollSetup true
          (set_currentSlide (startSlide (currentOptions c))
             (set_scrollBehavior "smooth"
                (set_scrollLeft (default 0 (nthZ slidePositions startIndex))
                   (set_scrollBehavior "auto" (set_slidePositions slidePositions c)))))).
Proof.
  intros Hall Hcenter. unfold initialPosition. rewrite Hall. cbn [mbind result_bind].
  cbv zeta. cbn [currentOptions set_slidePositions]. rewrite Hcenter. reflexivity.
Qed.

End Positioning.

(** X17. [setupTrueInfinite] without centre mode schedules the
    positioning after 10 ms.  When that timer runs, the strip is scrolled
    to the real item [startSlide], whose offset is the width of all that
    stands before it (the clones on the left and the real items before
    it); [currentSlide] is [startSlide], teleporting is enabled and the
    scroll behaviour is ['smooth']. *)
Theorem setupTrueInfinite_starts_on_startSlide
    (c : Context) (first : Slide) (rest : list Slide) :
  slides c = first :: rest -> totalSlides c = Z.of_nat (length (slides c)) ->
  trackChildren c = slides c ->
  (0 < offsetWidth first + gap (currentOptions c))%Q ->
  centerMode (currentOptions c) = false ->
  (0 <= startSlide (currentOptions c) < totalSlides c)%Z ->
  let start := (clonesNeeded c + startSlide (currentOptions c))%Z in
  exists c1 c2 real,
    InfiniteScroll.setupTrueInfinite c = Ok c1 /\
    timers c1 !! nextTimer c = Some (mkTimer 10 false (InitialPosition (clonesNeeded c))) /\
    fireTimer InfiniteScroll.run (nextTimer c) c1 = Ok c2 /\
    infiniteScrollSetup c2 = true /\
    currentSlide c2 = startSlide (currentOptions c) /\
    scrollBehavior c2 = "smooth" /\
    slides c !! Z.to_nat (startSlide (currentOptions c)) = Some real /\
    trackChildren c2 !! Z.to_nat start = Some real /\
    (scrollLeft c2 ==
       stripWidth (gap (currentOptions c)) (take (Z.to_nat start) (trackChildren c2)))%Q.
Proof.
  intros Hslides Htotal Hstrip0 Hpos Hcenter Hstart start.
  destruct (setupTrueInfinite_adds c first rest Hslides Htotal Hpos)
    as (c1 & pre & post & Hrun & Hframe & Hstrip & Hpre & Hpost & _ & _ & Hge).
  destruct (nthZ_in_range (slides c) (startSlide (currentOptions c)))
    as [real Hreal]; [lia |].
  unfold nthZ in Hreal. destruct (Z.ltb_spec (startSlide (currentOptions c)) 0); [lia |].
  assert (Hn0 : (0 <= clonesNeeded c)%Z) by lia.
  assert (Hat : trackChildren c1 !! Z.to_nat start = Some real).
  { rewrite Hstrip, lookup_app_r by lia.
    rewrite lookup_app_l by (rewrite Hstrip0; lia).
    rewrite Hstrip0, <- Hreal. f_equal. lia. }
  assert (Hlen : (Z.to_nat start < length (trackChildren c1))%nat)
    by (by eapply lookup_lt_Some).
  assert (Htimer : timers c1 !! nextTimer c =
                     Some (mkTimer 10 false (InitialPosition (clonesNeeded c)))).
  { rewrite Hframe. apply lookup_insert_eq. }
  assert (Hfields : allSlides c1 = Some (trackChildren c1) /\
                    currentOptions c1 = currentOptions c /\
                    trackPaddingLeft c1 = trackPaddingLeft c)
    by (rewrite Hframe; repeat split).
  destruct Hfields as (Hall & Ho & Hpad).
  set (c1' := set_timers (delete (nextTimer c) (timers c1)) c1).
  assert (Hfire : fireTimer InfiniteScroll.run (nextTimer c) c1 =
                  InfiniteScroll.initialPosition (clonesNeeded c) c1').
  { unfold fireTimer. rewrite Htimer. reflexivity. }
  pose proof (initialPosition_result (clonesNeeded c) c1' (trackChildren c1) Hall) as Hinit.
  change (currentOptions c1') with (currentOptions c1) in Hinit. rewrite Ho in Hinit.
  specialize (Hinit Hcenter). cbv zeta in Hinit. fold start in Hinit.
  assert (Hpos' : nthZ (imap (fun i _ => (offsetLeftAt c1' i - trackPaddingLeft c1')%Q)
                          (trackChildren c1)) start
                  = Some (offsetLeftAt c1' (Z.to_nat start) - trackPaddingLeft c1')%Q).
  { unfold nthZ. destruct (Z.ltb_spec start 0); [lia |].
    by rewrite list_lookup_imap, Hat. }
  rewrite Hpos' in Hinit. cbn [default] in Hinit.
  exists c1. eexists. exists real.
  split; [exact Hrun |]. split; [exact Htimer |].
  split; [rewrite Hfire; exact Hinit |].
  split; [reflexivity |]. split; [reflexivity |]. split; [reflexivity |].
  split; [exact Hreal |]. split; [exact Hat |].
  change (scrollLeft _) with (offsetLeftAt c1' (Z.to_nat start) - trackPaddingLeft c1')%Q.
  change (trackChildren (set_infiniteScrollSetup _ _)) with (trackChildren c1).
  unfold offsetLeftAt, offsetLefts.
  change (trackChildren c1') with (trackChildren c1).
  change (currentOptions c1') with (currentOptions c1).
  rewrite nth_offsetsFrom by exact Hlen. rewrite Ho. ring.
Qed.

Lemma setupTrueInfinite_starts_on_startSlide_witness :
  exists c1 c2,
    InfiniteScroll.setupTrueInfinite
      (construct (mkOptions 4 1 true false false false 3000 24 2) 5 282 1200) = Ok c1 /\
    fireTimer InfiniteScroll.run 1 c1 = Ok c2 /\
    (content <$> trackChildren c2 !! 10%nat) = Some 2%nat /\
    currentSlide c2 = 2%Z.
Proof.
  destruct (setupTrueInfinite_starts_on_startSlide
              (construct (mkOptions 4 1 true false false false 3000 24 2) 5 282 1200)
              _ _ eq_refl eq_refl eq_refl)
    as (c1 & c2 & real & Hrun & _ & Hfire & _ & Hcur & _ & Hreal & Hat & _);
    [reflexivity | reflexivity | split; [discriminate | reflexivity] |].
  exists c1, c2. split; [exact Hrun |]. split; [exact Hfire |]. split; [| exact Hcur].
  change (trackChildren c2 !! 10%nat = Some real) in Hat. rewrite Hat.
  inversion Hreal. reflexivity.
Defined.

(** ** Timers of the class of version 0.0.2 *)

Section Timers.
Import Slider.

Lemma ownsTimers_same (c c' : Context) : sameTimers c c' -> ownsTimers c -> ownsTimers c'.
Proof.
  intros (H1 & H2 & H3 & H4 & H5 & _) (I1 & I2 & I3 & I4).
  unfold ownsTimers. rewrite H1, H2, H3, H4, H5. by repeat split.
Qed.

Lemma ownsTimers_setTimeout (cb : callback) (ms : Z) (c : Context) :
  cb <> AutoplayTick -> cb <> ScrollEnd -> cb <> DebouncedInfiniteScroll ->
  ownsTimers c -> ownsTimers (snd (setTimeout cb ms c)).
Proof.
  intros N1 N2 N3 (I1 & I2 & I3 & I4). unfold setTimeout, ownsTimers. cbn.
  repeat split; intros id t; rewrite lookup_insert;
    case_decide; subst; intros Ht; simplify_eq/=; eauto; try done.
  apply I1 in Ht. lia.
Qed.

Lemma ownsTimers_stopAutoplay (c : Context) :
  ownsTimers c ->
  ownsTimers (stopAutoplay c) /\
  autoplayInterval (stopAutoplay c) = None /\
  (forall id t, timers (stopAutoplay c) !! id = Some t -> action t <> AutoplayTick) /\
  (forall id t, timers (stopAutoplay c) !! id = Some t -> timers c !! id = Some t).
Proof.
  intros Hinv. pose proof Hinv as (I1 & I2 & I3 & I4). unfold stopAutoplay.
  destruct (autoplayInterval c) as [a |] eqn:Ha; cbn.
  - split; [| split; [done | split]].
    + repeat split; cbn; intros id t; rewrite lookup_delete; case_decide; try done; eauto.
      intros Ht Hact. specialize (I2 id t Ht Hact). congruence.
    + intros id t. rewrite lookup_delete. case_decide; [done |].
      intros Ht Hact. specialize (I2 id t Ht Hact). congruence.
    + intros id t. rewrite lookup_delete. by case_decide.
  - split; [exact Hinv |]. split; [exact Ha |]. split; [| done].
    intros id t Ht Hact. specialize (I2 id t Ht Hact). congruence.
Qed.

Lemma ownsTimers_setInterval_tick (ms : Z) (c : Context) :
  ownsTimers c -> autoplayInterval c = None ->
  (forall id t, timers c !! id = Some t -> action t <> AutoplayTick) ->
  ownsTimers (set_autoplayInterval (Some (fst (setInterval AutoplayTick ms c)))
                (snd (setInterval AutoplayTick ms c))).
Proof.
  intros (I1 & I2 & I3 & I4) Hnone Hno. unfold setInterval, ownsTimers. cbn.
  repeat split; intros id t; rewrite lookup_insert;
    case_decide; subst; intros Ht; simplify_eq/=; eauto; try done.
  - apply I1 in Ht. lia.
  - intros Hact. by destruct (Hno id t Ht).
Qed.

Lemma ownsTimers_startAutoplay (c : Context) :
  ownsTimers c ->
  ownsTimers (startAutoplay c) /\
  (autoplay (currentOptions c) = true ->
   autoplayInterval (startAutoplay c) = Some (nextTimer c) /\
   timers (startAutoplay c) !! nextTimer c =
     Some (mkTimer (autoplaySpeed (currentOptions c)) true AutoplayTick)).
Proof.
  intros Hinv. unfold startAutoplay.
  destruct (autoplay (currentOptions c)) eqn:Hauto; cbn [negb]; [| by split].
  destruct (ownsTimers_stopAutoplay c Hinv) as (Hstop & Hnone & Hno & _).
  assert (Hnext : nextTimer (stopAutoplay c) = nextTimer c)
    by (unfold stopAutoplay; by destruct (autoplayInterval c)).
  assert (Hopt : currentOptions (stopAutoplay c) = currentOptions c)
    by (unfold stopAutoplay; by destruct (autoplayInterval c)).
  split.
  - exact (ownsTimers_setInterval_tick _ _ Hstop Hnone Hno).
  - intros _. cbn. rewrite Hnext, Hopt. split; [reflexivity | apply lookup_insert_eq].
Qed.

Lemma ownsTimers_pauseAutoplay (c : Context) :
  ownsTimers c ->
  ownsTimers (pauseAutoplay c) /\
  autoplayInterval (pauseAutoplay c) = None /\
  (forall id t, timers (pauseAutoplay c) !! id = Some t -> action t <> AutoplayTick).
Proof.
  intros Hinv. unfold pauseAutoplay.
  destruct (ownsTimers_stopAutoplay (set_autoplayPaused true c)) as (H1 & H2 & H3 & _);
    [exact Hinv | split; [exact H1 | split; [exact H2 | exact H3]]].
Qed.

Lemma ownsTimers_resumeAutoplay (c : Context) :
  ownsTimers c -> ownsTimers (resumeAutoplay c).
Proof.
  intros Hinv. unfold resumeAutoplay. destruct (_ && _); [| exact Hinv].
  by apply (ownsTimers_setTimeout ResumeAutoplay 1000 (set_autoplayPaused false c)).
Qed.

Lemma ownsTimers_resumeAutoplay_timeout (c : Context) :
  ownsTimers c -> ownsTimers (resumeAutoplay_timeout c).
Proof.
  intros Hinv. unfold resumeAutoplay_timeout. destruct (_ && _); [| exact Hinv].
  by apply ownsTimers_startAutoplay.
Qed.

Lemma ownsTimers_debounce_scroll_end (c : Context) :
  ownsTimers c ->
  let c' := set_scrollTimeout (Some (nextTimer c))
              (snd (setTimeout ScrollEnd 150 (clearTimer (scrollTimeout c) c))) in
  ownsTimers c' /\
  timers c' !! nextTimer c = Some (mkTimer 150 false ScrollEnd) /\
  (forall id t, timers c' !! id = Some t -> id <> nextTimer c -> timers c !! id = Some t).
Proof.
  intros Hinv. pose proof Hinv as (I1 & I2 & I3 & I4). unfold clearTimer, setTimeout.
  destruct (scrollTimeout c) as [a |] eqn:Ha; cbn.
  - split; [| split; [apply lookup_insert_eq |]].
    + repeat split; cbn; intros id t; rewrite lookup_insert; case_decide; subst;
        intros Ht; simplify_eq/=; try done; try lia;
        rewrite lookup_delete in Ht; case_decide; simplify_eq/=; eauto.
      * apply I1 in Ht. lia.
      * intros Hact. specialize (I3 id t Ht Hact). congruence.
    + intros id t. rewrite lookup_insert. case_decide; [done |].
      rewrite lookup_delete. by case_decide.
  - split; [| split; [apply lookup_insert_eq |]].
    + repeat split; cbn; intros id t; rewrite lookup_insert; case_decide; subst;
        intros Ht; simplify_eq/=; try done; eauto.
      * apply I1 in Ht. lia.
      * intros Hact. specialize (I3 id t Ht Hact). congruence.
    + intros id t. rewrite lookup_insert. by case_decide.
Qed.

Lemma ownsTimers_debounce_teleport (c : Context) :
  ownsTimers c ->
  let c' := set_infiniteScrollTimeout (Some (nextTimer c))
              (snd (setTimeout DebouncedInfiniteScroll 50
                      (clearTimer (infiniteScrollTimeout c) c))) in
  ownsTimers c' /\
  timers c' !! nextTimer c = Some (mkTimer 50 false DebouncedInfiniteScroll) /\
  (forall id t, timers c' !! id = Some t -> id <> nextTimer c -> timers c !! id = Some t).
Proof.
  intros Hinv. pose proof Hinv as (I1 & I2 & I3 & I4). unfold clearTimer, setTimeout.
  destruct (infiniteScrollTimeout c) as [a |] eqn:Ha; cbn.
  - split; [| split; [apply lookup_insert_eq |]].
    + repeat split; cbn; intros id t; rewrite lookup_insert; case_decide; subst;
        intros Ht; simplify_eq/=; try done; try lia;
        rewrite lookup_delete in Ht; case_decide; simplify_eq/=; eauto.
      * apply I1 in Ht. lia.
      * intros Hact. specialize (I4 id t Ht Hact). congruence.
    + intros id t. rewrite lookup_insert. case_decide; [done |].
      rewrite lookup_delete. by case_decide.
  - split; [| split; [apply lookup_insert_eq |]].
    + repeat split; cbn; intros id t; rewrite lookup_insert; case_decide; subst;
        intros Ht; simplify_eq/=; try done; eauto.
      * apply I1 in Ht. lia.
      * intros Hact. specialize (I4 id t Ht Hact). congruence.
    + intros id t. rewrite lookup_insert. by case_decide.
Qed.

Lemma sameTimers_refl (c : Context) : sameTimers c c.
Proof. by repeat split. Qed.

Lemma sameTimers_goToCenterSlide (i : Z) (c : Context) :
  sameTimers c (InfiniteScroll.goToCenterSlide i c).
Proof.
  unfold InfiniteScroll.goToCenterSlide.
  destruct (_ || _); [apply sameTimers_refl |].
  destruct (nthZ _ _); [by repeat split | apply sameTimers_refl].
Qed.

Lemma sameTimers_goToSlide (i : Z) (c c' : Context) :
  Navigation.goToSlide i c = Ok c' -> sameTimers c c'.
Proof.
  unfold Navigation.goToSlide.
  destruct (infinite _); [intros; simplify_eq; apply sameTimers_refl |].
  destruct (_ || _); [intros; simplify_eq; apply sameTimers_refl |].
  destruct (centerMode _); [destruct (slides c) |];
    intros; simplify_eq/=; by repeat split.
Qed.

Lemma sameTimers_next (c c' : Context) : Navigation.next c = Ok c' -> sameTimers c c'.
Proof.
  unfold Navigation.next. destruct (infinite _); [| apply sameTimers_goToSlide].
  destruct (slides c); [done |].
  destruct (centerMode _); intros; simplify_eq/=;
    [apply sameTimers_goToCenterSlide | by repeat split].
Qed.

Lemma sameTimers_prev (c c' : Context) : Navigation.prev c = Ok c' -> sameTimers c c'.
Proof.
  unfold Navigation.prev. destruct (infinite _); [| apply sameTimers_goToSlide].
  destruct (slides c); [done |].
  destruct (centerMode _); intros; simplify_eq/=;
    [apply sameTimers_goToCenterSlide | by repeat split].
Qed.

Lemma sameTimers_autoplayTick (c c' : Context) : autoplayTick c = Ok c' -> sameTimers c c'.
Proof.
  unfold autoplayTick. destruct (negb _); [| intros; simplify_eq; apply sameTimers_refl].
  destruct (infinite _); [| apply sameTimers_next].
  destruct (slides c); [done |].
  destruct (centerMode _); intros; simplify_eq/=;
    [apply sameTimers_goToCenterSlide | by repeat split].
Qed.

Lemma sameTimers_initialPosition (n : Z) (c c' : Context) :
  initialPosition n c = Ok c' -> sameTimers c c'.
Proof.
  unfold initialPosition, calculateSlidePositions. cbn.
  destruct (centerMode _); [destruct (slides c) |];
    intros; simplify_eq/=; by repeat split.
Qed.

Lemma sameTimers_updateCurrentSlideFromScroll (c c' : Context) (v v' : View) :
  updateCurrentSlideFromScroll c v = Ok (c', v') -> sameTimers c c'.
Proof.
  unfold updateCurrentSlideFromScroll.
  destruct (infinite _); [intros; simplify_eq; apply sameTimers_refl |].
  destruct (centerMode _); [destruct (slidePositions c); [| destruct (slides c)] |];
    cbn; try done; intros; simplify_eq/=;
    repeat match goal with |- context [if ?b then _ else _] => destruct b end;
    by repeat split.
Qed.

Lemma ownsTimers_handleInfiniteScroll (c c' : Context) :
  InfiniteScroll.handleInfiniteScroll c = Ok c' -> ownsTimers c -> ownsTimers c'.
Proof.
  unfold InfiniteScroll.handleInfiniteScroll, InfiniteScroll.seamlessJump.
  destruct (negb _); [by intros; simplify_eq |].
  destruct (slides c); [done |].
  destruct (Qleb _ _); [| destruct (InfiniteScroll.geq_boundary _ _)];
    intros ? Hinv; simplify_eq/=; try exact Hinv;
    by apply (ownsTimers_setTimeout (RestoreScrollBehavior _) 10
                (set_scrollLeft _ (set_scrollBehavior "auto" c))).
Qed.

Lemma ownsTimers_delete (id : nat) (c : Context) :
  ownsTimers c -> ownsTimers (set_timers (delete id (timers c)) c).
Proof.
  intros (I1 & I2 & I3 & I4).
  repeat split; cbn; intros i t; rewrite lookup_delete; case_decide; try done; eauto.
Qed.

Lemma sameTimers_infiniteInitialPosition (n : Z) (c c' : Context) :
  SliderRun.infiniteInitialPosition n c = Ok c' -> sameTimers c c'.
Proof.
  unfold SliderRun.infiniteInitialPosition, calculateSlidePositions. cbn.
  destruct (centerMode _); [destruct (slides c) |];
    intros; simplify_eq/=; by repeat split.
Qed.

Lemma ownsTimers_run (cb : callback) (c c' : Context) :
  SliderRun.run cb c = Ok c' -> ownsTimers c -> ownsTimers c'.
Proof.
  destruct cb; cbn; intros Hrun Hinv; simplify_eq/=.
  - exact Hinv.
  - destruct (infinite (currentOptions c)).
    + exact (ownsTimers_same _ _ (sameTimers_infiniteInitialPosition _ _ _ Hrun) Hinv).
    + exact (ownsTimers_same _ _ (sameTimers_initialPosition _ _ _ Hrun) Hinv).
  - exact Hinv.
  - exact (ownsTimers_same _ _ (sameTimers_autoplayTick _ _ Hrun) Hinv).
  - by apply ownsTimers_resumeAutoplay_timeout.
  - by apply ownsTimers_resumeAutoplay.
  - exact (ownsTimers_handleInfiniteScroll _ _ Hrun Hinv).
Qed.

Lemma ownsTimers_fireTimer (id : nat) (c c' : Context) :
  fireTimer SliderRun.run id c = Ok c' -> ownsTimers c -> ownsTimers c'.
Proof.
  unfold fireTimer. destruct (timers c !! id) as [t |]; [| by intros; simplify_eq].
  intros Hrun Hinv. apply (ownsTimers_run _ _ _ Hrun).
  destruct (repeating t); [exact Hinv | by apply ownsTimers_delete].
Qed.

Lemma onScroll_steps (c : Context) (v : View) :
  let cP := pauseAutoplay (set_isScrolling true c) in
  let cT :=
    if infinite (currentOptions cP) then
      set_infiniteScrollTimeout (Some (nextTimer cP))
        (snd (setTimeout DebouncedInfiniteScroll 50
                (clearTimer (infiniteScrollTimeout cP) cP)))
    else cP in
  onScroll c v =
  updateCurrentSlideFromScroll
    (set_scrollTimeout (Some (nextTimer cT))
       (snd (setTimeout ScrollEnd 150 (clearTimer (scrollTimeout cT) cT)))) v.
Proof.
  intros cP cT. unfold onScroll. fold cP. subst cT.
  destruct (infinite (currentOptions cP)).
  - destruct (infiniteScrollTimeout cP); unfold setTimeout, clearTimer;
      cbn [fst snd scrollTimeout nextTimer set_infiniteScrollTimeout set_nextTimer
           set_timers];
      destruct (scrollTimeout cP); reflexivity.
  - destruct (scrollTimeout cP); reflexivity.
Qed.

Lemma ownsTimers_onScroll (c c' : Context) (v v' : View) :
  onScroll c v = Ok (c', v') -> ownsTimers c -> ownsTimers c'.
Proof.
  rewrite onScroll_steps. cbv zeta. intros Hrun Hinv.
  apply sameTimers_updateCurrentSlideFromScroll in Hrun.
  apply (ownsTimers_same _ _ Hrun). clear Hrun.
  destruct (ownsTimers_pauseAutoplay (set_isScrolling true c)) as (Hp & _); [exact Hinv |].
  apply ownsTimers_debounce_scroll_end.
  destruct (infinite _); [| exact Hp].
  by apply ownsTimers_debounce_teleport.
Qed.

Lemma ownsTimers_dispatch (e : SliderRun.event) (s s' : Context * View) :
  SliderRun.dispatch e s = Ok s' -> ownsTimers s.1 -> ownsTimers s'.1.
Proof.
  destruct s as [c v], s' as [c' v']. unfold SliderRun.dispatch. cbn [fst].
  destruct e.
  - intros Hrun Hinv. exact (ownsTimers_onScroll _ _ _ _ Hrun Hinv).
  - destruct (autoplay _); intros ? Hinv; simplify_eq; [| exact Hinv].
    by apply ownsTimers_pauseAutoplay.
  - destruct (autoplay _); intros ? Hinv; simplify_eq; [| exact Hinv].
    by apply ownsTimers_resumeAutoplay.
  - destruct (prevBtn v) as [[|] |]; try (by intros; simplify_eq).
    destruct (Navigation.prev c) as [c1 |] eqn:Hnav; [| done].
    cbn. intros ? Hinv. simplify_eq.
    exact (ownsTimers_same _ _ (sameTimers_prev _ _ Hnav) Hinv).
  - destruct (nextBtn v) as [[|] |]; try (by intros; simplify_eq).
    destruct (Navigation.next c) as [c1 |] eqn:Hnav; [| done].
    cbn. intros ? Hinv. simplify_eq.
    exact (ownsTimers_same _ _ (sameTimers_next _ _ Hnav) Hinv).
  - destruct (fireTimer SliderRun.run id c) as [c1 |] eqn:Hfire; [| done].
    cbn. intros ? Hinv. simplify_eq.
    exact (ownsTimers_fireTimer _ _ _ Hfire Hinv).
Qed.

Lemma ownsTimers_runEvents (es : list SliderRun.event) (s s' : Context * View) :
  SliderRun.runEvents es s = Ok s' -> ownsTimers s.1 -> ownsTimers s'.1.
Proof.
  revert s. induction es as [| e es IH]; intros s; cbn.
  - by intros; simplify_eq.
  - destruct (SliderRun.dispatch e s) as [s1 |] eqn:He; [| done]. cbn.
    intros Hrest Hinv. apply (IH s1 Hrest). exact (ownsTimers_dispatch _ _ _ He Hinv).
Qed.

Lemma ownsTimers_no_timers (c : Context) : timers c = ∅ -> ownsTimers c.
Proof. intros H. unfold ownsTimers. rewrite H. by repeat split; intros ??; rewrite lookup_empty. Qed.

Lemma ownsTimers_unique (c : Context) (id1 id2 : nat) (t1 t2 : Timer) :
  ownsTimers c ->
  timers c !! id1 = Some t1 -> timers c !! id2 = Some t2 ->
  action t1 = action t2 -> debounced (action t1) = true -> id1 = id2.
Proof.
  intros (_ & I2 & I3 & I4) H1 H2 Hsame Hdeb.
  destruct (action t1) eqn:Hact; try done; symmetry in Hsame.
  - pose proof (I2 _ _ H1 Hact). pose proof (I2 _ _ H2 Hsame). congruence.
  - pose proof (I3 _ _ H1 Hact). pose proof (I3 _ _ H2 Hsame). congruence.
  - pose proof (I4 _ _ H1 Hact). pose proof (I4 _ _ H2 Hsame). congruence.
Qed.

Lemma autoplayFive_ownsTimers : ownsTimers autoplayFive.1.
Proof.
  unfold autoplayFive. cbn [fst]. refine (proj1 (ownsTimers_startAutoplay _ _)).
  apply ownsTimers_no_timers. reflexivity.
Qed.

(** X18. Whatever the page sends to a slider of version 0.0.2 (scroll
    events, the pointer entering and leaving, clicks, timers that become
    due, in any order), the slider never has two autoplay intervals, two
    scroll-end timeouts or two debounced teleports pending at the same
    time, provided it started with none that it does not hold the id of. *)
Theorem runEvents_one_timer_of_a_kind (es : list SliderRun.event) (c c' : Context)
    (v v' : View) :
  ownsTimers c ->
  SliderRun.runEvents es (c, v) = Ok (c', v') ->
  forall (id1 id2 : nat) (t1 t2 : Timer),
    timers c' !! id1 = Some t1 -> timers c' !! id2 = Some t2 ->
    action t1 = action t2 -> debounced (action t1) = true ->
    id1 = id2.
Proof.
  intros Hinv Hrun id1 id2 t1 t2.
  exact (ownsTimers_unique c' id1 id2 t1 t2
           (ownsTimers_runEvents es (c, v) (c', v') Hrun Hinv)).
Qed.

Lemma runEvents_one_timer_of_a_kind_witness :
  ownsTimers autoplayFive.1 /\
  exists s' : Context * View,
    SliderRun.runEvents
      [SliderRun.Scroll 10; SliderRun.MouseEnter; SliderRun.Scroll 200;
       SliderRun.TimerFires 3; SliderRun.MouseLeave; SliderRun.TimerFires 4;
       SliderRun.ClickNext; SliderRun.TimerFires 5; SliderRun.Scroll 324]
      autoplayFive = Ok s' /\
    forall (id1 id2 : nat) (t1 t2 : Timer),
      timers s'.1 !! id1 = Some t1 -> timers s'.1 !! id2 = Some t2 ->
      action t1 = action t2 -> debounced (action t1) = true ->
      id1 = id2.
Proof.
  pose proof autoplayFive_ownsTimers as Hinv.
  split; [exact Hinv |].
  match goal with |- context [SliderRun.runEvents ?es _] => set (events := es) end.
  assert (Hok : match SliderRun.runEvents events autoplayFive with
                | Ok _ => true
                | TypeError => false
                end = true) by (vm_compute; reflexivity).
  destruct (SliderRun.runEvents events autoplayFive) as [[c' v'] |] eqn:Hrun; [| done].
  exists (c', v'). split; [reflexivity |].
  exact (runEvents_one_timer_of_a_kind events _ c' _ v' Hinv Hrun).
Defined.

(** *** Scrolling and the autoplay *)

Lemma stopAutoplay_fields (c : Context) :
  nextTimer (stopAutoplay c) = nextTimer c /\
  currentOptions (stopAutoplay c) = currentOptions c /\
  isScrolling (stopAutoplay c) = isScrolling c /\
  autoplayPaused (stopAutoplay c) = autoplayPaused c.
Proof. unfold stopAutoplay. by destruct (autoplayInterval c). Qed.

Lemma clearTimer_fields (id : option nat) (c : Context) :
  nextTimer (clearTimer id c) = nextTimer c /\
  currentOptions (clearTimer id c) = currentOptions c /\
  isScrolling (clearTimer id c) = isScrolling c /\
  autoplayPaused (clearTimer id c) = autoplayPaused c /\
  autoplayInterval (clearTimer id c) = autoplayInterval c.
Proof. by destruct id. Qed.

Lemma updateCurrentSlideFromScroll_returns (c : Context) (v : View) :
  slides c <> [] -> exists c' v', updateCurrentSlideFromScroll c v = Ok (c', v').
Proof.
  intros Hslides. unfold updateCurrentSlideFromScroll.
  destruct (infinite _); [by eexists _, _ |].
  destruct (centerMode _); [destruct (slidePositions c); [| destruct (slides c); [done |]] |];
    cbn; by eexists _, _.
Qed.

Lemma slides_pauseAutoplay (c : Context) : slides (pauseAutoplay c) = slides c.
Proof. unfold pauseAutoplay, stopAutoplay. cbn. by destruct (autoplayInterval c). Qed.

Lemma onScroll_state (c : Context) (v : View) :
  ownsTimers c -> slides c <> [] ->
  let n := (nextTimer c + (if infinite (currentOptions c) then 1 else 0))%nat in
  exists c1 v1,
    onScroll c v = Ok (c1, v1) /\
    ownsTimers c1 /\ nextTimer c1 = S n /\ currentOptions c1 = currentOptions c /\
    isScrolling c1 = true /\ autoplayPaused c1 = true /\ autoplayInterval c1 = None /\
    scrollTimeout c1 = Some n /\
    timers c1 !! n = Some (mkTimer 150 false ScrollEnd) /\
    (forall id t, timers c1 !! id = Some t -> action t <> AutoplayTick).
Proof.
  intros Hinv Hslides n. rewrite onScroll_steps. cbv zeta.
  set (cP := pauseAutoplay (set_isScrolling true c)).
  destruct (ownsTimers_pauseAutoplay (set_isScrolling true c) Hinv) as (HP & HPnone & HPno).
  fold cP in HP, HPnone, HPno.
  destruct (stopAutoplay_fields (set_autoplayPaused true (set_isScrolling true c)))
    as (HPnext & HPopt & HPscr & HPpaused).
  change (stopAutoplay _) with cP in HPnext, HPopt, HPscr, HPpaused. cbn in HPnext, HPopt, HPscr, HPpaused.
  set (cT := if infinite (currentOptions cP) then _ else cP).
  assert (HT : ownsTimers cT /\ nextTimer cT = n /\ currentOptions cT = currentOptions c /\
               isScrolling cT = true /\ autoplayPaused cT = true /\
               autoplayInterval cT = None /\ slides cT = slides c /\
               (forall id t, timers cT !! id = Some t -> action t <> AutoplayTick)).
  { subst cT n. rewrite HPopt. destruct (infinite (currentOptions c)).
    - destruct (ownsTimers_debounce_teleport cP HP) as (H1 & H2 & H3).
      destruct (clearTimer_fields (infiniteScrollTimeout cP) cP) as (E1 & E2 & E3 & E4 & E5).
      split; [exact H1 |].
      repeat split;
        try (unfold setTimeout; cbn;
             rewrite ?E1, ?E2, ?E3, ?E4, ?E5, ?HPnext, ?HPopt, ?HPscr, ?HPpaused, ?HPnone;
             (done || lia)).
      + destruct (infiniteScrollTimeout cP);
          exact (slides_pauseAutoplay (set_isScrolling true c)).
      + intros id t Ht. destruct (decide (id = nextTimer cP)) as [-> | Hne].
        * rewrite H2 in Ht. by simplify_eq.
        * exact (HPno id t (H3 id t Ht Hne)).
    - rewrite Nat.add_0_r. split; [exact HP |]. repeat split; try done.
      exact (slides_pauseAutoplay (set_isScrolling true c)). }
  destruct HT as (HT & HTnext & HTopt & HTscr & HTpaused & HTnone & HTslides & HTno).
  destruct (ownsTimers_debounce_scroll_end cT HT) as (H1 & H2 & H3).
  cbv zeta in H1, H2, H3.
  set (cS := set_scrollTimeout _ _) in *.
  destruct (clearTimer_fields (scrollTimeout cT) cT) as (E1 & E2 & E3 & E4 & E5).
  assert (HSslides : slides cS = slides c).
  { subst cS. unfold setTimeout. cbn. by destruct (scrollTimeout cT). }
  destruct (updateCurrentSlideFromScroll_returns cS v) as (c1 & v1 & Hupd);
    [by rewrite HSslides |].
  exists c1, v1. split; [exact Hupd |].
  destruct (sameTimers_updateCurrentSlideFromScroll _ _ _ _ Hupd)
    as (S1 & S2 & S3 & S4 & S5 & S6 & S7 & S8).
  split; [exact (ownsTimers_same _ _ (sameTimers_updateCurrentSlideFromScroll _ _ _ _ Hupd) H1) |].
  rewrite S1, S2, S3, S4, S6, S7, S8.
  repeat split;
    try (subst cS; unfold setTimeout; cbn;
         rewrite ?E1, ?E2, ?E3, ?E4, ?E5, ?HTnext, ?HTopt, ?HTscr, ?HTpaused, ?HTnone;
         (done || lia)).
  - rewrite HTnext in H2. exact H2.
  - intros id t Ht. destruct (decide (id = nextTimer cT)) as [-> | Hne].
    + rewrite H2 in Ht. by simplify_eq.
    + exact (HTno id t (H3 id t Ht Hne)).
Qed.

Lemma fireTimer_scroll_end (n : nat) (c : Context) :
  timers c !! n = Some (mkTimer 150 false ScrollEnd) ->
  autoplay (currentOptions c) = true -> autoplayPaused c = true ->
  fireTimer SliderRun.run n c =
  Ok (snd (setTimeout ResumeAutoplay 1000
             (set_autoplayPaused false
                (set_isScrolling false (set_timers (delete n (timers c)) c))))).
Proof.
  intros Ht Hauto Hpaused. unfold fireTimer. rewrite Ht. cbn.
  unfold resumeAutoplay. cbn. by rewrite Hauto, Hpaused.
Qed.

Lemma fireTimer_resume (m : nat) (c : Context) :
  timers c !! m = Some (mkTimer 1000 false ResumeAutoplay) ->
  autoplayPaused c = false -> isScrolling c = false ->
  fireTimer SliderRun.run m c = Ok (startAutoplay (set_timers (delete m (timers c)) c)).
Proof.
  intros Ht Hpaused Hscr. unfold fireTimer. rewrite Ht. cbn.
  unfold resumeAutoplay_timeout. cbn. by rewrite Hpaused, Hscr.
Qed.

Lemma startAutoplay_fields (c : Context) :
  autoplayPaused (startAutoplay c) = autoplayPaused c /\
  isScrolling (startAutoplay c) = isScrolling c.
Proof.
  unfold startAutoplay. destruct (negb _); [done |].
  unfold stopAutoplay. by destruct (autoplayInterval c).
Qed.

Lemma timers_setTimeout (cb : callback) (ms : Z) (c : Context) :
  timers (snd (setTimeout cb ms c)) = <[nextTimer c := mkTimer ms false cb]> (timers c).
Proof. reflexivity. Qed.

Lemma bind_Ok {A B : Type} (x : A) (f : A -> result B) : Ok x ≫= f = f x.
Proof. reflexivity. Qed.

Lemma runEvents_cons (e : SliderRun.event) (es : list SliderRun.event) (s : Context * View) :
  SliderRun.runEvents (e :: es) s = SliderRun.dispatch e s ≫= SliderRun.runEvents es.
Proof. reflexivity. Qed.

Lemma runEvents_nil (s : Context * View) : SliderRun.runEvents [] s = Ok s.
Proof. reflexivity. Qed.

Lemma dispatch_Scroll (x : Q) (c : Context) (v : View) :
  SliderRun.dispatch (SliderRun.Scroll x) (c, v) = onScroll (set_scrollLeft x c) v.
Proof. reflexivity. Qed.

Lemma dispatch_MouseEnter (c : Context) (v : View) :
  autoplay (currentOptions c) = true ->
  SliderRun.dispatch SliderRun.MouseEnter (c, v) = Ok (pauseAutoplay c, v).
Proof. intros H. unfold SliderRun.dispatch. by rewrite H. Qed.

Lemma dispatch_TimerFires (id : nat) (c c' : Context) (v : View) :
  fireTimer SliderRun.run id c = Ok c' ->
  SliderRun.dispatch (SliderRun.TimerFires id) (c, v) = Ok (c', v).
Proof. intros H. unfold SliderRun.dispatch. by rewrite H. Qed.

Lemma runEvents_enter_scroll (hovering : bool) (x : Q) (c c1 : Context) (v v' : View) :
  autoplay (currentOptions c) = true ->
  onScroll (set_scrollLeft x (if hovering then pauseAutoplay c else c)) v = Ok (c1, v') ->
  SliderRun.runEvents
    ((if hovering then [SliderRun.MouseEnter] else []) ++ [SliderRun.Scroll x])
    (c, v) = Ok (c1, v').
Proof.
  intros Hauto Hscroll. destruct hovering; cbn [app].
  - rewrite runEvents_cons, (dispatch_MouseEnter _ _ Hauto), bind_Ok.
    rewrite runEvents_cons, dispatch_Scroll, Hscroll, bind_Ok. apply runEvents_nil.
  - rewrite runEvents_cons, dispatch_Scroll, Hscroll, bind_Ok. apply runEvents_nil.
Qed.

Lemma runEvents_two_timers (a b : nat) (c c2 c3 : Context) (v : View) :
  fireTimer SliderRun.run a c = Ok c2 -> fireTimer SliderRun.run b c2 = Ok c3 ->
  SliderRun.runEvents [SliderRun.TimerFires a; SliderRun.TimerFires b] (c, v) = Ok (c3, v).
Proof.
  intros H1 H2.
  rewrite runEvents_cons, (dispatch_TimerFires _ _ _ _ H1), bind_Ok.
  rewrite runEvents_cons, (dispatch_TimerFires _ _ _ _ H2), bind_Ok. apply runEvents_nil.
Qed.

(** X19. A scroll event stops the autoplay of a slider of version
    0.0.2; when the scroll-end timeout (150 ms) and then the resumption
    timeout (1000 ms) become due, the autoplay runs again with the
    configured speed.  The pointer is not consulted: the same happens
    when the pointer entered the container before the scroll and never
    left it. *)
Theorem scrolling_restarts_autoplay (hovering : bool) (x : Q) (c : Context) (v : View) :
  ownsTimers c -> autoplay (currentOptions c) = true -> slides c <> [] ->
  let n := (nextTimer c + (if infinite (currentOptions c) then 1 else 0))%nat in
  let enter := if hovering then [SliderRun.MouseEnter] else [] in
  exists c1 c2 v',
    SliderRun.runEvents (enter ++ [SliderRun.Scroll x]) (c, v) = Ok (c1, v') /\
    autoplayInterval c1 = None /\
    (forall id t, timers c1 !! id = Some t -> action t <> AutoplayTick) /\
    SliderRun.runEvents [SliderRun.TimerFires n; SliderRun.TimerFires (S n)] (c1, v')
      = Ok (c2, v') /\
    autoplayPaused c2 = false /\ isScrolling c2 = false /\
    autoplayInterval c2 = Some (S (S n)) /\
    timers c2 !! S (S n) = Some (mkTimer (autoplaySpeed (currentOptions c)) true AutoplayTick).
Proof.
  intros Hinv Hauto Hslides n enter.
  set (c0 := set_scrollLeft x (if hovering then pauseAutoplay c else c)).
  assert (H0 : ownsTimers c0 /\ nextTimer c0 = nextTimer c /\
               currentOptions c0 = currentOptions c /\ slides c0 = slides c).
  { subst c0. destruct hovering; [| done].
    split; [exact (proj1 (ownsTimers_pauseAutoplay c Hinv)) |].
    destruct (stopAutoplay_fields (set_autoplayPaused true c)) as (E1 & E2 & _).
    split; [exact E1 |]. split; [exact E2 |]. apply slides_pauseAutoplay. }
  destruct H0 as (Hinv0 & Hnext0 & Hopt0 & Hslides0).
  destruct (onScroll_state c0 v Hinv0) as
    (c1 & v' & Hscroll & Hinv1 & Hnext1 & Hopt1 & Hscr1 & Hpaused1 & Hnone1 & _ & Ht1 & Hno1);
    [by rewrite Hslides0 |].
  rewrite Hnext0, Hopt0 in Hnext1, Ht1. fold n in Hnext1, Ht1. rewrite Hopt0 in Hopt1.
  assert (Hfirst : SliderRun.runEvents (enter ++ [SliderRun.Scroll x]) (c, v) = Ok (c1, v')).
  { exact (runEvents_enter_scroll hovering x c c1 v v' Hauto Hscroll). }
  set (c2 := snd (setTimeout ResumeAutoplay 1000
                    (set_autoplayPaused false
                       (set_isScrolling false (set_timers (delete n (timers c1)) c1))))).
  assert (Hfire1 : fireTimer SliderRun.run n c1 = Ok c2)
    by (apply fireTimer_scroll_end; [exact Ht1 | by rewrite Hopt1 | exact Hpaused1]).
  assert (Hinv2 : ownsTimers c2).
  { apply (ownsTimers_setTimeout ResumeAutoplay 1000); try done.
    exact (ownsTimers_delete n c1 Hinv1). }
  set (c3 := set_timers (delete (S n) (timers c2)) c2).
  assert (Hfire2 : fireTimer SliderRun.run (S n) c2 = Ok (startAutoplay c3)).
  { apply fireTimer_resume; [| reflexivity | reflexivity].
    subst c2. rewrite timers_setTimeout.
    change (nextTimer (set_autoplayPaused false _)) with (nextTimer c1).
    rewrite Hnext1. apply lookup_insert_eq. }
  destruct (ownsTimers_startAutoplay c3 (ownsTimers_delete (S n) c2 Hinv2))
    as (_ & Hstart).
  destruct Hstart as (Hid & Htimer);
    [change (autoplay (currentOptions c1) = true); by rewrite Hopt1 |].
  destruct (startAutoplay_fields c3) as (Hpaused3 & Hscr3).
  exists c1, (startAutoplay c3), v'.
  split; [exact Hfirst |]. split; [exact Hnone1 |]. split; [exact Hno1 |].
  split; [exact (runEvents_two_timers n (S n) c1 c2 (startAutoplay c3) v' Hfire1 Hfire2) |].
  split; [rewrite Hpaused3; reflexivity |]. split; [rewrite Hscr3; reflexivity |].
  assert (Hnext3 : nextTimer c3 = S (S n))
    by (change (nextTimer c3) with (S (nextTimer c1)); by rewrite Hnext1).
  rewrite Hnext3 in Hid, Htimer. split; [exact Hid |].
  rewrite Htimer. do 3 f_equal. exact Hopt1.
Qed.

Lemma scrolling_restarts_autoplay_witness :
  ownsTimers autoplayFive.1 /\ autoplay (currentOptions autoplayFive.1) = true /\
  slides autoplayFive.1 <> [] /\
  exists c1 c2 v',
    SliderRun.runEvents ([SliderRun.MouseEnter] ++ [SliderRun.Scroll 324]) autoplayFive
      = Ok (c1, v') /\
    autoplayInterval c1 = None /\
    (forall id t, timers c1 !! id = Some t -> action t <> AutoplayTick) /\
    SliderRun.runEvents [SliderRun.TimerFires 2; SliderRun.TimerFires 3] (c1, v')
      = Ok (c2, v') /\
    autoplayPaused c2 = false /\ isScrolling c2 = false /\
    autoplayInterval c2 = Some 4%nat /\
    timers c2 !! 4%nat = Some (mkTimer 3000 true AutoplayTick).
Proof.
  split; [exact autoplayFive_ownsTimers |]. split; [reflexivity |]. split; [done |].
  exact (scrolling_restarts_autoplay true 324 autoplayFive.1 autoplayFive.2
           autoplayFive_ownsTimers eq_refl ltac:(done)).
Defined.

End Timers.

(** ** The pull-to-right padding *)

Section PullToRight.
Import Slider.
Local Open Scope Q_scope.

(** X20. With [showOverflow] and a base padding that is not negative,
    [updatePullToRightPadding] sets the right padding of the track to the
    base padding; the left padding is the base padding up to a viewport of
    [containerMaxWidth + 2 * basePadding], and beyond it half of what the
    viewport exceeds [containerMaxWidth] by plus the base padding, which
    is more than twice the base padding: the left padding jumps at that
    width. *)
Theorem updatePullToRightPadding_aligns (viewportWidth : Q) (o : OverflowOptions)
    (p : TrackPadding) :
  showOverflow o = true -> 0 <= basePadding o ->
  let p' := updatePullToRightPadding viewportWidth o p in
  stylePaddingRight p' = Some (basePadding o) /\
  stylePaddingLeft p' = Some (pullToRightLeftPadding p') /\
  (viewportWidth <= containerMaxWidth o + basePadding o * 2 ->
   pullToRightLeftPadding p' == basePadding o) /\
  (containerMaxWidth o + basePadding o * 2 < viewportWidth ->
   pullToRightLeftPadding p' == (viewportWidth - containerMaxWidth o) / 2 + basePadding o /\
   basePadding o * 2 < pullToRightLeftPadding p').
Proof.
  intros Hshow Hbase. unfold updatePullToRightPadding. rewrite Hshow. cbn.
  split; [reflexivity |]. split; [reflexivity |].
  destruct (Qleb viewportWidth _) eqn:Hle.
  - apply Qleb_spec in Hle. split; [reflexivity |]. intros Hlt. lra.
  - apply Qleb_false in Hle. split; [intros Hge; lra |]. intros _.
    assert (Hmax : Qmax (basePadding o)
                     ((viewportWidth - containerMaxWidth o) / 2 + basePadding o)
                   == (viewportWidth - containerMaxWidth o) / 2 + basePadding o).
    { apply Q.max_r. rewrite Qhalf. lra. }
    rewrite Hmax. split; [reflexivity |]. rewrite Qhalf. lra.
Qed.

Lemma updatePullToRightPadding_aligns_witness :
  showOverflow (mkOverflowOptions true 0 1200 35) = true /\
  pullToRightLeftPadding
    (updatePullToRightPadding 1600 (mkOverflowOptions true 0 1200 35)
       (mkTrackPadding None None 0)) == 235.
Proof.
  split; [reflexivity |].
  destruct (updatePullToRightPadding_aligns 1600 (mkOverflowOptions true 0 1200 35)
              (mkTrackPadding None None 0) eq_refl ltac:(discriminate))
    as (_ & _ & _ & Hwide).
  destruct Hwide as [Hleft _]; [reflexivity |].
  rewrite Hleft. reflexivity.
Defined.

End PullToRight.

(** ** Real items under the clone maintenance *)

Section RealItems.
Import SliderDynamic DynamicRun.

Lemma realItems_clone_appended (l : list Slide) (i : Z) (s : Slide) :
  realItems (l ++ [withOriginalIndex i (cloneAs InfiniteClone s)]) = realItems l.
Proof.
  unfold realItems. rewrite filter_app, filter_cons_False, filter_nil by done.
  apply app_nil_r.
Qed.

Lemma realItems_clone_inserted (l : list Slide) (i : Z) (s : Slide) :
  realItems (withOriginalIndex i (cloneAs InfiniteClone s) :: l) = realItems l.
Proof. unfold realItems. by rewrite filter_cons_False. Qed.

Lemma addClonesAtEnd_realItems (c c' : Context) :
  addClonesAtEnd c = Ok c' -> realItems (trackChildren c') = realItems (trackChildren c).
Proof.
  unfold addClonesAtEnd.
  destruct (for_each _ _ c) as [c1 |] eqn:Hloop; simpl; [| discriminate].
  intros [= <-].
  apply (for_each_counted
           (fun _ c1 => realItems (trackChildren c1) = realItems (trackChildren c)))
    in Hloop; [exact Hloop | reflexivity |].
  intros _ i s1 s2 Hk. destruct (nthZ (slides s1) i); [| discriminate].
  intros [= <-]. cbn. by rewrite realItems_clone_appended.
Qed.

Lemma addClonesAtStart_realItems (c c' : Context) :
  addClonesAtStart c = Ok c' -> realItems (trackChildren c') = realItems (trackChildren c).
Proof.
  unfold addClonesAtStart.
  destruct (for_each _ _ (c, 0%Q)) as [[c1 w] |] eqn:Hloop; simpl; [| discriminate].
  intros [= <-].
  apply (for_each_counted
           (fun _ (r : Context * Q) =>
              realItems (trackChildren r.1) = realItems (trackChildren c)))
    in Hloop; [exact Hloop | reflexivity |].
  intros _ i [s1 w1] s2 Hk. simpl in Hk.
  destruct (nthZ (slides s1) i); [| discriminate].
  intros [= <-]. cbn [fst]. rewrite <- Hk. apply realItems_clone_inserted.
Qed.

Lemma removeNode_realItems (t : nat) (strip : list (nat * Slide)) :
  (forall s, (t, s) ∈ strip -> cls s <> RealSlide) ->
  realItems ((removeNode t strip).*2) = realItems (strip.*2).
Proof.
  unfold removeNode, realItems. induction strip as [| [t' s'] strip IH]; intros Hclone.
  - reflexivity.
  - rewrite filter_cons. cbn [fst]. destruct (decide (t' <> t)) as [Hne | Heq].
    + rewrite !fmap_cons. cbn [snd]. rewrite !filter_cons.
      rewrite IH by (intros s Hs; apply Hclone; by right). reflexivity.
    + apply dec_stable in Heq. subst t'. rewrite fmap_cons. cbn [snd].
      rewrite (filter_cons_False _ s') by (apply Hclone; by left).
      apply IH. intros s Hs. apply Hclone. by right.
Qed.

Lemma foldl_realItems {A B : Type}
    (step : list (nat * Slide) * B -> A -> list (nat * Slide) * B) (node : A -> nat)
    (all : list (nat * Slide)) (l : list A) (acc : list (nat * Slide) * B) :
  (forall acc x, (step acc x).1 = removeNode (node x) acc.1) ->
  (forall x s, x ∈ l -> (node x, s) ∈ all -> cls s <> RealSlide) ->
  sublist acc.1 all ->
  realItems ((foldl step acc l).1.*2) = realItems (acc.1.*2).
Proof.
  intros Hstep. revert acc. induction l as [| x l IH]; intros acc Hclones Hsub; simpl.
  - reflexivity.
  - rewrite IH.
    + rewrite Hstep. apply removeNode_realItems. intros s Hs.
      apply (Hclones x s); [by left |]. exact (elem_of_sublist _ _ _ Hs Hsub).
    + intros y s Hy. apply Hclones. by right.
    + rewrite Hstep. etransitivity; [apply removeNode_sublist | exact Hsub].
Qed.

Lemma nodes_unique (c : Context) (t : nat) (s s' : Slide) :
  (t, s) ∈ nodes c -> (t, s') ∈ nodes c -> s = s'.
Proof.
  unfold nodes. intros H1 H2.
  apply elem_of_lookup_imap in H1 as (i & x & E1 & L1).
  apply elem_of_lookup_imap in H2 as (j & y & E2 & L2).
  simplify_eq. congruence.
Qed.

Lemma cleanupClonesForAutoplay_realItems (c : Context) :
  realItems (trackChildren (cleanupClonesForAutoplay c)) = realItems (trackChildren c).
Proof.
  unfold cleanupClonesForAutoplay. cbv zeta.
  destruct (_ <=? _)%Z; [reflexivity |].
  match goal with
  | |- context [foldl ?step ?acc ?l] =>
      pose proof (foldl_realItems step (fun n => n.1) (nodes c) l acc) as Hkeep;
      destruct (foldl step acc l) as [strip' adj]
  end.
  cbn [fst] in Hkeep. rewrite nodes_elements in Hkeep.
  assert (Hchildren : realItems (strip'.*2) = realItems (trackChildren c)).
  { apply Hkeep.
    - by intros [strip a] x.
    - intros x s Hx Hs. apply elem_of_take in Hx as (i & Hx & _).
      apply list_elem_of_lookup_2 in Hx.
      apply elem_of_sort_desc, list_elem_of_filter in Hx as [_ Hx].
      apply list_elem_of_filter in Hx as [Hcls Hx].
      destruct x as [t sx]. cbn in *.
      rewrite (nodes_unique c t s sx Hs Hx), Hcls. done.
    - reflexivity. }
  destruct (Qltb 0 adj); destruct (sort_desc _ _); exact Hchildren.
Qed.

Lemma cleanupDistantClones_realItems (c c' : Context) :
  cleanupDistantClones c = Ok c' ->
  realItems (trackChildren c') = realItems (trackChildren c).
Proof.
  unfold cleanupDistantClones. cbv zeta.
  destruct (autoplay (currentOptions c)).
  { intros [= <-]. apply cleanupClonesForAutoplay_realItems. }
  destruct (allSlides c); [| discriminate].
  match goal with
  | |- context [foldl ?step ?acc ?l] =>
      pose proof (foldl_realItems step (fun a => (slide a).1) (nodes c) l acc) as Hkeep;
      destruct (foldl step acc l) as [strip' x]
  end.
  cbn [fst] in Hkeep. rewrite nodes_elements in Hkeep.
  assert (Hchildren : realItems (strip'.*2) = realItems (trackChildren c)).
  { apply Hkeep.
    - by intros [strip a] y.
    - intros y s Hy Hs. apply elem_of_take in Hy as (i & Hy & _).
      apply list_elem_of_lookup_2 in Hy.
      apply elem_of_sort_desc, list_elem_of_omap in Hy as (n & Hn & Hfar).
      destruct (bool_decide (cls n.2 = InfiniteClone)) eqn:Hcls; [| discriminate].
      apply bool_decide_eq_true in Hcls.
      destruct (slidePositions c !! n.1); [| discriminate].
      destruct (Qltb _ _); [| discriminate].
      simplify_eq. cbn in Hs. destruct n as [t sn]. cbn in *.
      rewrite (nodes_unique c t s sn Hs Hn), Hcls. done.
    - reflexivity. }
  destruct (take _ _); intros [= <-]; exact Hchildren.
Qed.

Lemma handleInfiniteScroll_realItems (c c' : Context) :
  handleInfiniteScroll c = Ok c' ->
  realItems (trackChildren c') = realItems (trackChildren c).
Proof.
  unfold handleInfiniteScroll. cbv zeta.
  set (r1 := if Qltb _ _ then _ else _).
  assert (H1 : forall c1, r1 = Ok c1 ->
                 realItems (trackChildren c1) = realItems (trackChildren c)).
  { intros c1. subst r1. destruct (Qltb _ _); [| by intros [= <-]].
    destruct (_ <? _)%Z; [| by intros [= <-]]. apply addClonesAtEnd_realItems. }
  destruct r1 as [c1 |]; simpl; [| discriminate].
  specialize (H1 c1 eq_refl).
  set (r2 := if Qltb _ _ then _ else _).
  assert (H2 : forall c2, r2 = Ok c2 ->
                 realItems (trackChildren c2) = realItems (trackChildren c1)).
  { intros c2. subst r2. destruct (Qltb _ _); [| by intros [= <-]].
    destruct (_ <? _)%Z; [| by intros [= <-]]. apply addClonesAtStart_realItems. }
  destruct r2 as [c2 |]; simpl; [| discriminate].
  specialize (H2 c2 eq_refl).
  intros Hclean. apply cleanupDistantClones_realItems in Hclean. congruence.
Qed.

Lemma step_realItems (c c' : Context) :
  step c c' -> realItems (trackChildren c') = realItems (trackChildren c).
Proof.
  intros Hstep. destruct Hstep as [c c' H | c c' H | n c c' H | n c c' H | x c | b c].
  - unfold autoplayTick in H.
    destruct (negb (isScrolling c)); [| by inversion H; subst].
    destruct (slides c); [discriminate |]. inversion H; subst.
    apply (cleanupClonesForAutoplay_realItems (scrollTo _ c)).
  - unfold handleScrollEnd in H.
    destruct (bounceBack (currentOptions c)).
    + unfold handleBounceBackScroll in H. destruct (slides c) eqn:E; [discriminate |].
      destruct (Qltb _ _); [by inversion H; subst |].
      destruct (nthZ _ _); [| by inversion H; subst].
      destruct (Qltb _ _); by inversion H; subst.
    + destruct (infinite (currentOptions c)); [| by inversion H; subst].
      by apply handleInfiniteScroll_realItems.
  - unfold initialPosition in H. cbv zeta in H.
    destruct (centerMode _); [destruct (slides _) eqn:E; [discriminate |] |];
      simpl in H; by inversion H; subst.
  - unfold bouncePosition in H. cbv zeta in H.
    destruct (centerMode _); [destruct (slides _) eqn:E; [discriminate |] |];
      simpl in H; by inversion H; subst.
  - reflexivity.
  - reflexivity.
Qed.

Lemma realItems_bounce_appended (l : list Slide) (s : Slide) :
  realItems (l ++ [cloneAs BounceClone s]) = realItems l.
Proof.
  unfold realItems. rewrite filter_app, filter_cons_False, filter_nil by done.
  apply app_nil_r.
Qed.

Lemma realItems_bounce_inserted (l : list Slide) (s : Slide) :
  realItems (cloneAs BounceClone s :: l) = realItems l.
Proof. unfold realItems. by rewrite filter_cons_False. Qed.

Lemma setupLoopMode_realItems (c c' : Context) :
  setupLoopMode c = Ok c' -> realItems (trackChildren c') = realItems (trackChildren c).
Proof.
  unfold setupLoopMode. cbv zeta. destruct (_ && _); [| by intros [= <-]].
  destruct (infinite _).
  - unfold setupTrueInfinite. cbv zeta.
    destruct (for_each _ _ c) as [c1 |] eqn:Hloop1; simpl; [| discriminate].
    destruct (for_each _ _ c1) as [c2 |] eqn:Hloop2; simpl; [| discriminate].
    intros [= <-]. cbn.
    apply (for_each_counted
             (fun _ c1 => realItems (trackChildren c1) = realItems (trackChildren c)))
      in Hloop1; [| reflexivity |].
    + apply (for_each_counted
               (fun _ c2 => realItems (trackChildren c2) = realItems (trackChildren c)))
        in Hloop2; [exact Hloop2 | exact Hloop1 |].
      intros _ i s1 s2 Hk. destruct (nthZ (slides s1) _); [| discriminate].
      intros [= <-]. rewrite <- Hk. apply realItems_clone_inserted.
    + intros _ i s1 s2 Hk. destruct (nthZ (slides s1) _); [| discriminate].
      intros [= <-]. rewrite <- Hk. apply realItems_clone_appended.
  - destruct (bounceBack _); [| by intros [= <-]].
    unfold setupBounceBack. cbv zeta.
    destruct (for_each _ _ c) as [c1 |] eqn:Hloop1; simpl; [| discriminate].
    destruct (for_each _ _ c1) as [c2 |] eqn:Hloop2; simpl; [| discriminate].
    intros [= <-]. cbn.
    apply (for_each_counted
             (fun _ c1 => realItems (trackChildren c1) = realItems (trackChildren c)))
      in Hloop1; [| reflexivity |].
    + apply (for_each_counted
               (fun _ c2 => realItems (trackChildren c2) = realItems (trackChildren c)))
        in Hloop2; [exact Hloop2 | exact Hloop1 |].
      intros _ i s1 s2 Hk. destruct (nthZ (slides s1) _); [| discriminate].
      intros [= <-]. rewrite <- Hk. apply realItems_bounce_inserted.
    + intros _ i s1 s2 Hk. destruct (nthZ (slides s1) _); [| discriminate].
      intros [= <-]. rewrite <- Hk. apply realItems_bounce_appended.
Qed.

Lemma reachable_realItems (c0 c : Context) :
  reachable c0 c -> realItems (trackChildren c) = realItems (trackChildren c0).
Proof.
  induction 1 as [| c c' _ IH Hstep]; [reflexivity |].
  rewrite <- IH. by apply step_realItems.
Qed.

(** X21. A slider of version 0.0.1 whose strip holds its real items is
    set up; whatever then happens (autoplay ticks, scroll ends with their
    clone maintenance, positioning, scroll offsets set by the browser),
    the elements of the strip that are not clones are those real items,
    each once and in the original order: only clones are added and
    removed. *)
Theorem real_items_stay (c0 c1 c : Context) :
  Forall (fun s => cls s = RealSlide) (trackChildren c0) ->
  setupLoopMode c0 = Ok c1 ->
  reachable c1 c ->
  realItems (trackChildren c) = trackChildren c0.
Proof.
  intros Hreal Hsetup Hreach.
  rewrite (reachable_realItems c1 c Hreach), (setupLoopMode_realItems c0 c1 Hsetup).
  unfold realItems. by apply filter_all.
Qed.

Lemma real_items_stay_witness :
  exists c1 c2 c3,
    setupLoopMode dynamicAutoplay = Ok c1 /\
    autoplayTick c1 = Ok c2 /\
    handleScrollEnd (set_scrollLeft 3000 c2) = Ok c3 /\
    realItems (trackChildren c3) = trackChildren dynamicAutoplay.
Proof.
  do 3 eexists.
  do 3 (split; [vm_compute; reflexivity |]).
  refine (real_items_stay dynamicAutoplay _ _ _ _ _).
  - vm_compute. repeat constructor.
  - vm_compute. reflexivity.
  - eapply reachable_step;
      [eapply reachable_step; [eapply reachable_step; [apply reachable_start |] |] |].
    + apply step_tick. vm_compute. reflexivity.
    + apply (step_scrolled 3000%Q).
    + apply step_scroll_end. vm_compute. reflexivity.
Defined.

End RealItems.

(** ** Clones put before the strip *)

Section Prepend.
Import SliderDynamic.
Local Open Scope Q_scope.

Lemma stripWidth_cons (g : Q) (s : Slide) (l : list Slide) :
  stripWidth g (s :: l) == offsetWidth s + g + stripWidth g l.
Proof. reflexivity. Qed.

(** X22. [addClonesAtStart] of version 0.0.1 puts one clone of every
    real item before the strip and moves the scroll offset by the width
    they take (each clone with its gap): every element that was in the
    strip keeps its distance from the left edge of the viewport. *)
Theorem addClonesAtStart_keeps_view (c c' : Context) :
  addClonesAtStart c = Ok c' ->
  exists clones : list Slide,
    trackChildren c' = clones ++ trackChildren c /\
    length clones = Z.to_nat (totalSlides c) /\
    Forall (fun s => cls s = InfiniteClone) clones /\
    scrollLeft c' == scrollLeft c + stripWidth (gap (currentOptions c)) clones /\
    forall i : nat, (i < length (trackChildren c))%nat ->
      offsetLeftAt c' (length clones + i) - scrollLeft c'
      == offsetLeftAt c i - scrollLeft c.
Proof.
  unfold addClonesAtStart. cbv zeta.
  destruct (for_each _ _ (c, 0)) as [[c1 w] |] eqn:Hloop; simpl; [| discriminate].
  intros [= <-].
  apply (for_each_counted
           (fun k (r : Context * Q) =>
              currentOptions r.1 = currentOptions c /\
              trackPaddingLeft r.1 = trackPaddingLeft c /\
              exists clones, trackChildren r.1 = clones ++ trackChildren c /\
                length clones = k /\
                Forall (fun s => cls s = InfiniteClone) clones /\
                r.2 == stripWidth (gap (currentOptions c)) clones))
    in Hloop.
  - cbn [fst snd] in Hloop. destruct Hloop as (Hopt & Hpad & clones & Hstrip & Hlen & Hcls & Hw).
    rewrite length_reverse, length_range, Z.sub_0_r in Hlen.
    exists clones. cbn. split; [exact Hstrip |]. split; [exact Hlen |].
    split; [exact Hcls |]. split; [by rewrite Hw |].
    intros i Hi. unfold offsetLeftAt, offsetLefts. cbn. rewrite Hopt, Hpad, Hstrip.
    rewrite !nth_offsetsFrom by (rewrite ?length_app; lia).
    rewrite take_app_add, stripWidth_app, Hw. ring.
  - cbn. split; [reflexivity |]. split; [reflexivity |]. exists [].
    split; [reflexivity |]. split; [reflexivity |]. split; [constructor | reflexivity].
  - intros k i [s1 w1] s2 (Hopt & Hpad & clones & Hstrip & Hlen & Hcls & Hw).
    cbn [fst snd] in *. destruct (nthZ (slides s1) i) as [s |]; [| discriminate].
    intros [= <-]. cbn [fst snd]. cbn. split; [exact Hopt |]. split; [exact Hpad |].
    exists (withOriginalIndex i (cloneAs InfiniteClone s) :: clones).
    split; [by rewrite Hstrip |]. split; [cbn; by rewrite Hlen |].
    split; [by constructor |].
    rewrite stripWidth_cons, Hw, Hopt. cbn. ring.
Qed.

Lemma addClonesAtStart_keeps_view_witness :
  exists (c' : Context) (clones : list Slide),
    addClonesAtStart dynamicAutoplay = Ok c' /\
    trackChildren c' = clones ++ trackChildren dynamicAutoplay /\
    length clones = 5%nat /\
    scrollLeft c' == scrollLeft dynamicAutoplay + stripWidth 24 clones.
Proof.
  assert (Hok : match addClonesAtStart dynamicAutoplay with
                | Ok _ => true
                | TypeError => false
                end = true) by (vm_compute; reflexivity).
  destruct (addClonesAtStart dynamicAutoplay) as [c' |] eqn:Hrun; [| discriminate].
  destruct (addClonesAtStart_keeps_view dynamicAutoplay c' Hrun)
    as (clones & Hstrip & Hlen & _ & Hscroll & _).
  exists c', clones. split; [reflexivity |]. split; [exact Hstrip |].
  split; [exact Hlen | exact Hscroll].
Defined.

End Prepend.

(** ** The index of the current slide *)

Section CurrentSlide.
Import Slider.
Local Open Scope Z_scope.





Lemma unmoved_setTimeout (cb : callback) (ms : Z) (c : Context) :
  unmoved c (snd (setTimeout cb ms c)).
Proof. by repeat split. Qed.





















(** *** The number of real items is fixed *)
















End CurrentSlide.

(** ** The class of the centred slide *)

Section CenterClass.
Import Slider.
Local Open Scope Z_scope.

Lemma nthZ_Some_range {A : Type} (l : list A) (j : Z) (x : A) :
  nthZ l j = Some x -> (Z.to_nat j < length l)%nat.
Proof.
  unfold nthZ. destruct (j <? 0); [done |]. apply lookup_lt_Some.
Qed.

(** X24. In centre mode [updateCenterMode] of version 0.0.2 leaves the
    class ['center'] on at most one element of [slidesToUse], whatever
    carried it before; the buttons are not touched.  In infinite mode
    (without bounce-back) a strip that is not empty always has its one
    centred element; in plain mode it is the current slide. *)
Theorem updateCenterMode_marks_one (c : Context) (v : View) :
  centerMode (currentOptions c) = true ->
  let v' := updateCenterMode c v in
  prevBtn v' = prevBtn v /\ nextBtn v' = nextBtn v /\
  (center v' = ∅ \/
   exists i : nat, center v' = {[ i ]} /\ (i < length (slidesToUse c))%nat) /\
  (bounceBack (currentOptions c) = false -> infinite (currentOptions c) = true ->
   slidesToUse c <> [] -> center v' <> ∅) /\
  (bounceBack (currentOptions c) = false -> infinite (currentOptions c) = false ->
   0 <= currentSlide c < Z.of_nat (length (slidesToUse c)) ->
   center v' = {[ Z.to_nat (currentSlide c) ]}).
Proof.
  intros Hcenter. unfold updateCenterMode. rewrite Hcenter. cbn [negb]. cbv zeta.
  destruct (bounceBack (currentOptions c)).
  - destruct (nthZ _ _) eqn:Hnth; cbn.
    + split; [done |]. split; [done |]. split; [| done]. right. eexists.
      split; [apply (right_id_L ∅ (∪)) |]. by eapply nthZ_Some_range.
    + split; [done |]. split; [done |]. split; [by left | done].
  - destruct (infinite (currentOptions c)).
    + destruct (slidesToUse c) as [| s l] eqn:Hl; cbn [prevBtn nextBtn center].
      * split; [done |]. split; [done |]. split; [by left | done].
      * split; [done |]. split; [done |].
        rewrite (right_id_L ∅ (∪)).
        split; [| split; [intros _ _ _; apply non_empty_singleton_L | done]].
        right. eexists. split; [reflexivity |].
        match goal with |- context [InfiniteScroll.closestIndex ?x ?cs] =>
          destruct (closestIndex_nearest x cs) as (_ & Hr & _)
        end; [done |].
        rewrite length_imap in Hr. lia.
    + destruct (nthZ _ _) eqn:Hnth; cbn.
      * split; [done |]. split; [done |]. rewrite (right_id_L ∅ (∪)).
        split; [| split; [done |]; intros _ _ _; reflexivity].
        right. eexists. split; [reflexivity |]. by eapply nthZ_Some_range.
      * split; [done |]. split; [done |]. split; [by left |]. split; [done |].
        intros _ _ Hr. apply nthZ_in_range in Hr. rewrite Hnth in Hr. by destruct Hr.
Qed.

Lemma updateCenterMode_marks_one_witness :
  centerMode (currentOptions
    (set_scrollLeft 324
       (construct (mkOptions 1 1 true false true false 3000 24 0) 3 300 300))) = true /\
  center (updateCenterMode
    (set_scrollLeft 324
       (construct (mkOptions 1 1 true false true false 3000 24 0) 3 300 300))
    (mkView None None {[ 0%nat; 2%nat ]})) <> ∅.
Proof.
  split; [reflexivity |].
  destruct (updateCenterMode_marks_one
              (set_scrollLeft 324
                 (construct (mkOptions 1 1 true false true false 3000 24 0) 3 300 300))
              (mkView None None {[ 0%nat; 2%nat ]}) eq_refl)
    as (_ & _ & _ & Hone & _).
  apply Hone; [reflexivity | reflexivity | discriminate].
Defined.

End CenterClass.
